(** * little-reaper / tinyreaper: the supervision state machine

    A shallow embedding of the reaper programs of this repository.  The
    repository holds three revisions of the program that wait for any child
    in a loop:

    - [Tinyreaper]   : tinyreaper 1.0.1, src/unnamed/part_002: the signal
                       handler, [start_shutdown] and the death clock; the only
                       option that matters to the loop is [-v];
    - [ReaperWT]     : the revision with the options [-w] and [-t], the second
                       of the two program texts that src/examples/make-orphan.c
                       holds (from its line 33 on);
    - [LittleReaper] : src/little-reaper.c, the revision with [-w], [-W],
                       [-r] and [return_code_from_process_status], without
                       signal handling.

    The C code is written once, as a tree of atomic actions ([prog]); two
    interpreters give it a meaning: [exec] runs a program to its end without
    interruption, [prun] runs it while signals are delivered between any two
    of its atomic actions, the way an asynchronous handler preempts the main
    loop (and another handler). *)

From Stdlib Require Import ZArith List String Ascii Bool Lia DecimalString.
Import ListNotations.
Open Scope string_scope.
Open Scope list_scope.
Open Scope Z_scope.

Infix "+++" := String.append (at level 60, right associativity).

(** ** Platform constants and macros

    The signal numbers, [ECHILD] and the wait-status macros come from the
    platform headers (<signal.h>, <errno.h>, <sys/wait.h>), not from the
    repository; they are given here with their Linux/glibc values. *)

Definition SIGINT : Z := 2.
Definition SIGQUIT : Z := 3.
Definition SIGALRM : Z := 14.
Definition SIGTERM : Z := 15.
Definition ECHILD : Z := 10.
Definition EINTR : Z := 4.

(** glibc: [__WTERMSIG(s) = s & 0x7f] *)
Definition WTERMSIG (status : Z) : Z := Z.land status 127.

(** glibc: [__WEXITSTATUS(s) = (s & 0xff00) >> 8] *)
Definition WEXITSTATUS (status : Z) : Z := Z.shiftr (Z.land status 65280) 8.

(** glibc: [__WIFEXITED(s) = (__WTERMSIG(s) == 0)] *)
Definition WIFEXITED (status : Z) : bool := WTERMSIG status =? 0.

(** the value of [(signed char) x] for [0 <= x < 256] *)
Definition signed_char (x : Z) : Z := if 128 <=? x then x - 256 else x.

(** glibc: [__WIFSIGNALED(s) = ((signed char) ((s & 0x7f) + 1) >> 1) > 0] *)
Definition WIFSIGNALED (status : Z) : bool :=
  0 <? Z.shiftr (signed_char (Z.land status 127 + 1)) 1.

(** The status [wait] stores for a child that called [exit(code)], and for a
    child killed by signal [sig] (without core dump). *)
Definition W_EXITCODE (code : Z) : Z := Z.shiftl (Z.land code 255) 8.
Definition W_KILLED (sig : Z) : Z := Z.land sig 127.

(** What the parent of a process sees of [exit(code)]: the low eight bits. *)
Definition exit_status (code : Z) : Z := Z.land code 255.

(** [printf("%d", z)] *)
Definition dec (z : Z) : string := NilZero.string_of_int (Z.to_int z).

Definition NL : string := String "010"%char "".
Definition NUL : string := String "000"%char "".

(** The truth value of a C integer used as a condition. *)
Definition truthy (z : Z) : bool := negb (z =? 0).

(** ** Programs as trees of atomic actions *)

(** The only variable shared between the main loop and the signal handler is
    [static volatile sig_atomic_t shutdown_in_progress]; every access to it is
    one atomic action, and so is every system call with an effect outside the
    process. *)
Inductive action : Type :=
| ALoad                      (* read shutdown_in_progress *)
| AStore (v : Z)             (* shutdown_in_progress = v *)
| AWrite (s : string)        (* bytes written to stdout *)
| AKill (pid sig : Z)        (* kill(pid, sig) *)
| AAlarm (secs : Z).         (* alarm(secs) *)

Inductive prog (A : Type) : Type :=
| Ret (a : A)
| Act (a : action) (k : Z -> prog A)
| PExit (code : Z)           (* exit(code) *)
| PAbort                     (* a failed assert: abort() *)
| PSleep.                    (* for (;;) sleep(10); *)

Arguments Ret {A} a.
Arguments Act {A} a k.
Arguments PExit {A} code.
Arguments PAbort {A}.
Arguments PSleep {A}.

Fixpoint bind {A B : Type} (p : prog A) (f : A -> prog B) : prog B :=
  match p with
  | Ret a => f a
  | Act a k => Act a (fun x => bind (k x) f)
  | PExit c => PExit c
  | PAbort => PAbort
  | PSleep => PSleep
  end.

Declare Scope prog_scope.
Delimit Scope prog_scope with prog.
Notation "x <- p ;; q" := (bind p (fun x => q))
  (at level 61, p at next level, right associativity) : prog_scope.
Notation "p ;; q" := (bind p (fun _ => q))
  (at level 61, right associativity) : prog_scope.
Open Scope prog_scope.

Definition load : prog Z := Act ALoad (fun x => Ret x).
Definition store (v : Z) : prog unit := Act (AStore v) (fun _ => Ret tt).
Definition write (s : string) : prog unit := Act (AWrite s) (fun _ => Ret tt).
Definition kill (pid sig : Z) : prog unit := Act (AKill pid sig) (fun _ => Ret tt).
Definition alarm (secs : Z) : prog unit := Act (AAlarm secs) (fun _ => Ret tt).
Definition skip : prog unit := Ret tt.

(** What a run leaves behind for the outside world. *)
Inductive event : Type :=
| EvWrite (s : string)
| EvKill (pid sig : Z)
| EvAlarm (secs : Z).

Inductive outcome (A : Type) : Type :=
| ORet (a : A)               (* the program text was run to its end *)
| OExit (code : Z)           (* the process called exit(code) *)
| OAbort
| OSleep.

Arguments ORet {A} a.
Arguments OExit {A} code.
Arguments OAbort {A}.
Arguments OSleep {A}.

(** One atomic action on the flag: the value handed to the continuation, the
    new value of the flag and the events produced. *)
Definition run_action (a : action) (flag : Z) : Z * Z * list event :=
  match a with
  | ALoad => (flag, flag, [])
  | AStore v => (0, v, [])
  | AWrite s => (0, flag, [EvWrite s])
  | AKill pid sig => (0, flag, [EvKill pid sig])
  | AAlarm secs => (0, flag, [EvAlarm secs])
  end.

(** Uninterrupted execution. *)
Fixpoint exec {A : Type} (p : prog A) (flag : Z) : outcome A * Z * list event :=
  match p with
  | Ret a => (ORet a, flag, [])
  | Act a k =>
      let '(x, flag1, ev) := run_action a flag in
      let '(o, flag2, tr) := exec (k x) flag1 in
      (o, flag2, ev ++ tr)
  | PExit c => (OExit c, flag, [])
  | PAbort => (OAbort, flag, [])
  | PSleep => (OSleep, flag, [])
  end.

(** Preemptive execution.  A schedule says, slot by slot, whether the kernel
    delivers a signal now ([Sig sig si_pid]: the handler is called on top of
    whatever is running, main loop or another handler) or lets the running
    code do its next atomic action ([Run]).  When the schedule is used up,
    no further signal arrives. *)
Inductive slot : Type :=
| Sig (sig si_pid : Z)
| Run.

Fixpoint prun {A : Type} (handler : Z -> Z -> prog unit)
         (sch : list slot) (p : prog A) (flag : Z) : outcome A * Z * list event :=
  match sch with
  | [] => exec p flag
  | Sig sig si_pid :: sch' => prun handler sch' (handler sig si_pid ;; p) flag
  | Run :: sch' =>
      match p with
      | Act a k =>
          let '(x, flag1, ev) := run_action a flag in
          let '(o, flag2, tr) := prun handler sch' (k x) flag1 in
          (o, flag2, ev ++ tr)
      | Ret a => prun handler sch' (Ret a) flag
      | _ => exec p flag
      end
  end.

(** The events of a trace that reach other processes or the timer. *)
Definition is_kill (e : event) : bool :=
  match e with EvKill _ _ => true | _ => false end.
Definition is_alarm (e : event) : bool :=
  match e with EvAlarm _ => true | _ => false end.
Definition is_write (e : event) : bool :=
  match e with EvWrite _ => true | _ => false end.

Definition kills (tr : list event) : list event := filter is_kill tr.
Definition alarms (tr : list event) : list event := filter is_alarm tr.
Definition effects (tr : list event) : list event :=
  filter (fun e => negb (is_write e)) tr.

(** ** What the process asks the kernel about itself *)

Record env : Type := {
  getpid : Z;
  getpgrp : Z;
  strerror : Z -> string
}.

(** One return of [wait(&status)]: the returned pid, the status stored, and
    [errno] as it stands after the call. *)
Record wait_result : Type := {
  w_child : Z;
  w_status : Z;
  w_errno : Z
}.

Definition reaped (pid status : Z) : wait_result :=
  {| w_child := pid; w_status := status; w_errno := 0 |}.
Definition wait_failed (errno : Z) : wait_result :=
  {| w_child := -1; w_status := 0; w_errno := errno |}.

(** ** Code shared by [Tinyreaper] and [ReaperWT] *)

(** [int a = n;] for an [unsigned n] *)
Definition int_of_unsigned (n : Z) : Z :=
  if n <? 2147483648 then n else n - 4294967296.

(** [digits + i], one byte: inside the literal ["0123456789"] (its
    terminating NUL included) this is the byte at index [i].  Outside of it
    the C program writes one byte read from memory it does not own, which
    the program text does not determine: the embedding has no byte for it
    (it gives the empty string) and is faithful for [0 <= i <= 10] only.
    Every call of [write_num] in these programs (a pid, an exit status, a
    signal number) stays within that range. *)
Definition digit_at (i : Z) : string :=
  if i <? 0 then ""
  else match String.get (Z.to_nat i) ("0123456789" +++ NUL) with
       | Some c => String c ""
       | None => ""
       end.

(** [write_num]: the recursion is on [n / 10]; [fuel] bounds its depth. *)
Fixpoint write_num_rec (fuel : nat) (n : Z) : prog unit :=
  match fuel with
  | O => skip
  | S fuel' =>
      let a := int_of_unsigned n in
      (if 9 <? n then write_num_rec fuel' (n / 10) else skip) ;;
      write (digit_at (Z.rem a 10))
  end.

(** An [unsigned] has at most ten decimal digits. *)
Definition write_num (n : Z) : prog unit := write_num_rec 10 n.

(** [WRITE_LITERAL_STRING(s)]: [write(STDOUT_FILENO, s, sizeof(s))]; the size
    of a string literal counts its terminating NUL, which is written too. *)
Definition WRITE_LITERAL_STRING (s : string) : prog unit := write (s +++ NUL).

Definition LOG_process_state (pid status : Z) : prog unit :=
  if 0 <? pid then
    if WIFEXITED status then
      WRITE_LITERAL_STRING "child " ;;
      write_num pid ;;
      WRITE_LITERAL_STRING " exited with " ;;
      write_num (WEXITSTATUS status) ;;
      WRITE_LITERAL_STRING NL
    else if WIFSIGNALED status then
      WRITE_LITERAL_STRING "child " ;;
      write_num pid ;;
      WRITE_LITERAL_STRING " terminated with " ;;
      write_num (WTERMSIG status) ;;
      WRITE_LITERAL_STRING NL
    else skip
  else skip.

Definition send_signal_to_all_children (e : env) (sig : Z) : prog unit :=
  if getpgrp e =? getpid e then kill 0 sig else skip.

(** How the reap loop leaves one iteration. *)
Inductive loop_ctl : Type :=
| Continue (command_status : Z)
| Break (command_status : Z).

(** The exit code computed after the loop (the same in both revisions):
    [-1] if the command was terminated by a signal or its exit status was
    not 0, else [0]. *)
Definition rc_of_command_status (command_status : Z) : Z :=
  if (WIFEXITED command_status && negb (WEXITSTATUS command_status =? 0))
     || WIFSIGNALED command_status
  then -1 else 0.

(** ** tinyreaper 1.0.1 (src/unnamed/part_002) *)

Module Tinyreaper.

(** How much time we give children to terminate before terminating
    ourselves. *)
Definition shutdown_timeout_seconds : Z := 5.

Section Process.

(** [e]: the pid and process group of the reaper; [verbose]: the global set
    by [-v] before the command is started; [command_pid]: what [fork]
    returned to the parent; [argv0]: [child_argv[0]]. *)
Variable e : env.
Variable verbose : Z.
Variable command_pid : Z.
Variable argv0 : string.

Definition LOG (msg : string) : prog unit :=
  WRITE_LITERAL_STRING ("tinyreaper: " +++ msg +++ NL).

(** [LOGf], with the formatted text already built. *)
Definition LOGf (text : string) : prog unit :=
  WRITE_LITERAL_STRING "tinyreaper: " ;;
  write (text +++ NL).

Definition VERBOSEf (text : string) : prog unit :=
  if truthy verbose then LOGf text else skip.
Definition VERBOSE (msg : string) : prog unit :=
  if truthy verbose then LOG msg else skip.

Definition start_shutdown : prog unit :=
  shutdown_in_progress <- load ;;
  if truthy shutdown_in_progress then
    VERBOSE "Shutdown already in progress."
  else
    store 1 ;;
    LOG "Terminating children..." ;;
    send_signal_to_all_children e SIGTERM ;;
    VERBOSE "tick tock..." ;;
    alarm shutdown_timeout_seconds.

Definition handle_alarm : prog unit :=
  shutdown_in_progress <- load ;;
  if truthy shutdown_in_progress then
    LOG "Shutdown timeout. Terminating." ;;
    PExit (-1)
  else skip.

Definition signal_handler (sig si_pid : Z) : prog unit :=
  if (sig =? SIGTERM) && (si_pid =? getpid e) then
    VERBOSE "Ignoring SIGTERM sent by myself."
  else
    (if truthy verbose then
       WRITE_LITERAL_STRING "Signal: " ;;
       write_num sig ;;
       WRITE_LITERAL_STRING NL
     else skip) ;;
    if (sig =? SIGTERM) || (sig =? SIGINT) || (sig =? SIGQUIT) then
      start_shutdown
    else if sig =? SIGALRM then
      handle_alarm
    else skip.

(** The line the handler writes first when [verbose] is set (the first
    statement of [signal_handler] past its filter). *)
Definition signal_line (sig : Z) : prog unit :=
  if truthy verbose then
    WRITE_LITERAL_STRING "Signal: " ;;
    write_num sig ;;
    WRITE_LITERAL_STRING NL
  else skip.

(** The cases of the handler's [switch] that start the shutdown. *)
Definition termination_class (sig : Z) : bool :=
  (sig =? SIGTERM) || (sig =? SIGINT) || (sig =? SIGQUIT).


(** One iteration of the [for (;;)] loop of the parent, [w] being what
    [wait(&status)] returned. *)
Definition reap_iteration (w : wait_result) (command_status : Z) : prog loop_ctl :=
  let child := w_child w in
  let status := w_status w in
  if 0 <? child then
    LOG_process_state child status ;;
    if child =? command_pid then
      VERBOSEf (argv0 +++ " finished.") ;;
      start_shutdown ;;
      Ret (Continue status)
    else Ret (Continue command_status)
  else if (child =? -1) && (w_errno w =? ECHILD) then
    VERBOSE "all child processes terminated." ;;
    Ret (Break command_status)
  else Ret (Continue command_status).

(** The loop, over the successive returns of [wait]; [None]: all of them are
    consumed and the process is blocked in the next [wait]. *)
Fixpoint reap_loop (ws : list wait_result) (command_status : Z) : prog (option Z) :=
  match ws with
  | [] => Ret None
  | w :: ws' =>
      c <- reap_iteration w command_status ;;
      match c with
      | Continue command_status' => reap_loop ws' command_status'
      | Break command_status' => Ret (Some command_status')
      end
  end.

(** After the loop. *)
Definition finish (command_status : Z) : prog unit :=
  let rc := rc_of_command_status command_status in
  VERBOSEf ("Returning " +++ dec rc) ;;
  PExit rc.

(** The parent branch of [main], from [int command_status = 0;] on. *)
Definition parent (ws : list wait_result) : prog unit :=
  r <- reap_loop ws 0 ;;
  match r with
  | Some command_status => finish command_status
  | None => Ret tt
  end.

(** *** The data flow of the loop, its effects left out *)

(** Whether an iteration goes round again or leaves the loop, and the value
    of [command_status] it leaves behind. *)
Definition next_ctl (w : wait_result) (command_status : Z) : loop_ctl :=
  if 0 <? w_child w then
    if w_child w =? command_pid then Continue (w_status w)
    else Continue command_status
  else if (w_child w =? -1) && (w_errno w =? ECHILD) then Break command_status
  else Continue command_status.

(** [command_status] at the [break], if the returns [ws] of [wait] lead to
    it. *)
Fixpoint status_at_break (ws : list wait_result) (command_status : Z) : option Z :=
  match ws with
  | [] => None
  | w :: ws' =>
      match next_ctl w command_status with
      | Continue command_status' => status_at_break ws' command_status'
      | Break command_status' => Some command_status'
      end
  end.

(** [command_status] once [ws] is consumed, or at the [break] if [ws] leads
    to it: the recorded terminal status of the command. *)
Fixpoint recorded_status (ws : list wait_result) (command_status : Z) : Z :=
  match ws with
  | [] => command_status
  | w :: ws' =>
      match next_ctl w command_status with
      | Continue command_status' => recorded_status ws' command_status'
      | Break command_status' => command_status'
      end
  end.

(** No return of [wait] in [ws] is the command's pid. *)
Definition never_observed (ws : list wait_result) : Prop :=
  forall w, In w ws -> 0 < w_child w -> w_child w <> command_pid.

(** *** Begin-shutdown requests, one after the other *)

(** A request comes from the handler of a signal or from the loop when it
    has reaped the command. *)
Inductive trigger : Type :=
| BySignal (sig si_pid : Z)
| ByCommandExit.

Definition run_trigger (t : trigger) : prog unit :=
  match t with
  | BySignal sig si_pid => signal_handler sig si_pid
  | ByCommandExit => start_shutdown
  end.

(** Each request is served to its end before the next one starts. *)
Fixpoint run_triggers (ts : list trigger) : prog unit :=
  match ts with
  | [] => skip
  | t :: ts' => run_trigger t ;; run_triggers ts'
  end.

End Process.

End Tinyreaper.

(** ** The revision with [-w] and [-t] (src/examples/make-orphan.c, the
    second program text, lines 33 to 329) *)

Module ReaperWT.

Record options : Type := {
  verbose : Z;
  wait_for_all_children : Z;
  terminate_all_children_after_command_terminated : Z
}.

(** How much time we give children to terminate before terminating
    ourselves. *)
Definition shutdown_timeout_seconds : Z := 5.

Section Process.

Variable e : env.
Variable o : options.
Variable command_pid : Z.
Variable argv0 : string.

Definition LOG (msg : string) : prog unit := WRITE_LITERAL_STRING (msg +++ NL).
Definition LOGf (text : string) : prog unit := write (text +++ NL).
Definition VERBOSEf (text : string) : prog unit :=
  if truthy (verbose o) then LOGf text else skip.
Definition VERBOSE (msg : string) : prog unit :=
  if truthy (verbose o) then LOG msg else skip.

Definition reap_iteration (w : wait_result) (command_status : Z) : prog loop_ctl :=
  let child := w_child w in
  let status := w_status w in
  if 0 <? child then
    LOG_process_state child status ;;
    if child =? command_pid then
      VERBOSEf (argv0 +++ " finished.") ;;
      (if truthy (terminate_all_children_after_command_terminated o)
       then send_signal_to_all_children e SIGTERM else skip) ;;
      if negb (truthy (wait_for_all_children o))
      then Ret (Break status)
      else Ret (Continue status)
    else Ret (Continue command_status)
  else if (child =? -1) && (w_errno w =? ECHILD) then
    VERBOSE "all child processes terminated." ;;
    Ret (Break command_status)
  else Ret (Continue command_status).

Fixpoint reap_loop (ws : list wait_result) (command_status : Z) : prog (option Z) :=
  match ws with
  | [] => Ret None
  | w :: ws' =>
      c <- reap_iteration w command_status ;;
      match c with
      | Continue command_status' => reap_loop ws' command_status'
      | Break command_status' => Ret (Some command_status')
      end
  end.

Definition finish (command_status : Z) : prog unit :=
  let rc := rc_of_command_status command_status in
  VERBOSEf ("Returning " +++ dec rc) ;;
  PExit rc.

Definition parent (ws : list wait_result) : prog unit :=
  r <- reap_loop ws 0 ;;
  match r with
  | Some command_status => finish command_status
  | None => Ret tt
  end.

(** The data flow of one iteration, its effects left out. *)
Definition next_ctl (w : wait_result) (command_status : Z) : loop_ctl :=
  if 0 <? w_child w then
    if w_child w =? command_pid then
      if negb (truthy (wait_for_all_children o))
      then Break (w_status w) else Continue (w_status w)
    else Continue command_status
  else if (w_child w =? -1) && (w_errno w =? ECHILD) then Break command_status
  else Continue command_status.

Fixpoint status_at_break (ws : list wait_result) (command_status : Z) : option Z :=
  match ws with
  | [] => None
  | w :: ws' =>
      match next_ctl w command_status with
      | Continue command_status' => status_at_break ws' command_status'
      | Break command_status' => Some command_status'
      end
  end.

(** *** The signal handler of this revision *)

(** [handle_shutdown_signal].  After the flag, the C code stores [sig] in
    [static int shutdown_signal]; that variable is written here and read
    nowhere in the program, and has no part in the state of the
    embedding. *)
Definition handle_shutdown_signal (sig : Z) : prog unit :=
  shutdown_in_progress <- load ;;
  if negb (truthy shutdown_in_progress) then
    store 1 ;;
    LOG "Terminating children..." ;;
    send_signal_to_all_children e SIGTERM ;;
    VERBOSE "tick tock..." ;;
    alarm shutdown_timeout_seconds
  else
    VERBOSE "shutdown in progress, ignoring further attempts.".

Definition handle_alarm : prog unit :=
  shutdown_in_progress <- load ;;
  if truthy shutdown_in_progress then
    LOG "Shutdown timeout. Terminating." ;;
    PExit (-1)
  else skip.

(** The line ["Signal: <sig>"] is written whether or not [verbose] is
    set. *)
Definition signal_handler (sig si_pid : Z) : prog unit :=
  if (sig =? SIGTERM) && (si_pid =? getpid e) then
    VERBOSE "Ignoring SIGTERM sent by myself."
  else
    WRITE_LITERAL_STRING "Signal: " ;;
    write_num sig ;;
    WRITE_LITERAL_STRING NL ;;
    if (sig =? SIGTERM) || (sig =? SIGINT) then
      handle_shutdown_signal sig
    else if sig =? SIGALRM then
      handle_alarm
    else skip.

End Process.

End ReaperWT.

(** ** src/little-reaper.c *)

Module LittleReaper.

Record options : Type := {
  verbose : Z;
  fault_tolerant : Z;
  dont_reap : Z;
  wait_for_all_sub_processes : Z;
  wait_forever : Z
}.

Definition return_code_from_process_status (status : Z) : Z :=
  if WIFSIGNALED status then -1
  else if WIFEXITED status then WEXITSTATUS status
  else -1.

(** The locals of [main] that live across iterations of the loop. *)
Record locals : Type := {
  command_status : Z;
  command_terminated : Z;
  no_child_left : Z
}.

Definition initial_locals : locals :=
  {| command_status := 0; command_terminated := 0; no_child_left := 0 |}.

Section Process.

Variable e : env.
Variable o : options.
Variable command : Z.

Definition LOG (msg : string) : prog unit := write (msg +++ NL).
Definition LOGf (text : string) : prog unit := write (text +++ NL).
Definition VERBOSEf (text : string) : prog unit :=
  if truthy (verbose o) then LOGf text else skip.
Definition VERBOSE (msg : string) : prog unit :=
  if truthy (verbose o) then LOG msg else skip.

Definition infinite_sleep {A : Type} : prog A :=
  VERBOSE "sleeping forever..." ;;
  PSleep.

(** The first half of the loop body: [wait] returned [w]. *)
Definition observe (w : wait_result) (l : locals) : prog locals :=
  let child := w_child w in
  let status := w_status w in
  if 0 <? child then
    if WIFEXITED status || WIFSIGNALED status then
      (if WIFEXITED status
       then VERBOSEf ("child " +++ dec child +++ " exited with " +++ dec (WEXITSTATUS status))
       else skip) ;;
      (if WIFSIGNALED status
       then VERBOSEf ("child " +++ dec child +++ " terminated with signal "
                      +++ dec (WTERMSIG status))
       else skip) ;;
      if child =? command then
        VERBOSE "Command finished." ;;
        Ret {| command_status := status;
               command_terminated := 1;
               no_child_left := no_child_left l |}
      else Ret l
    else Ret l
  else
    if w_errno w =? ECHILD then
      VERBOSE "All child processes finished" ;;
      Ret {| command_status := command_status l;
             command_terminated := command_terminated l;
             no_child_left := 1 |}
    else
      VERBOSEf ("wait error (" +++ dec (w_errno w) +++ " " +++ strerror e (w_errno w) +++ ")") ;;
      Ret l.

(** The second half: whether to leave.  Returning means going round the loop
    again. *)
Definition decide (l : locals) : prog locals :=
  if truthy (wait_forever o) then
    if truthy (no_child_left l) then infinite_sleep else Ret l
  else if truthy (wait_for_all_sub_processes o) then
    if truthy (no_child_left l) then
      if truthy (command_terminated l)
      then PExit (return_code_from_process_status (command_status l))
      else PAbort
    else Ret l
  else
    if truthy (command_terminated l)
    then PExit (return_code_from_process_status (command_status l))
    else Ret l.

Definition iteration (w : wait_result) (l : locals) : prog locals :=
  l' <- observe w l ;;
  decide l'.

Fixpoint main_loop (ws : list wait_result) (l : locals) : prog locals :=
  match ws with
  | [] => Ret l
  | w :: ws' => l' <- iteration w l ;; main_loop ws' l'
  end.

(** The parent branch of [main]. *)
Definition parent (ws : list wait_result) : prog locals :=
  if truthy (dont_reap o) then
    (if truthy (wait_forever o) then infinite_sleep else skip) ;;
    PExit 0
  else main_loop ws initial_locals.

(** *** The data flow of the loop, its effects left out *)

(** [wait] returned the command's pid with a terminal status. *)
Definition is_command_end (w : wait_result) : bool :=
  (0 <? w_child w)
  && (WIFEXITED (w_status w) || WIFSIGNALED (w_status w))
  && (w_child w =? command).

(** [wait] failed with [ECHILD]. *)
Definition is_no_child (w : wait_result) : bool :=
  negb (0 <? w_child w) && (w_errno w =? ECHILD).

(** What [observe] leaves in the locals. *)
Definition observe_locals (w : wait_result) (l : locals) : locals :=
  if is_command_end w then
    {| command_status := w_status w;
       command_terminated := 1;
       no_child_left := no_child_left l |}
  else if is_no_child w then
    {| command_status := command_status l;
       command_terminated := command_terminated l;
       no_child_left := 1 |}
  else l.

(** The statuses the loop can record for the command all satisfy [P]. *)
Definition command_ends_satisfy (P : Z -> Prop) (ws : list wait_result) : Prop :=
  forall w, In w ws -> is_command_end w = true -> P (w_status w).

Definition recorded_satisfies (P : Z -> Prop) (l : locals) : Prop :=
  truthy (command_terminated l) = true -> P (command_status l).

End Process.

End LittleReaper.

(** ** Reading traces *)

(** What a logging program writes. *)
Definition output_of (p : prog unit) : list event := snd (exec p 0).

(** The events of [send_signal_to_all_children e sig]. *)
Definition broadcast (e : env) (sig : Z) : list event :=
  if getpgrp e =? getpid e then [EvKill 0 sig] else [].

(** ** How programs end *)

(** [quiet p]: [p] only writes to stdout and then returns. *)
Fixpoint quiet {A : Type} (p : prog A) : Prop :=
  match p with
  | Ret _ => True
  | Act (AWrite _) k => forall x, quiet (k x)
  | _ => False
  end.

(** [ends R E D p]: whatever the flag holds when [p] reads it, [p] ends by
    returning a value in [R] or by calling [exit] with a code in [E]; it may
    abort or sleep for ever only if [D]. *)
Fixpoint ends {A : Type} (R : A -> Prop) (E : Z -> Prop) (D : Prop)
         (p : prog A) : Prop :=
  match p with
  | Ret a => R a
  | Act _ k => forall x, ends R E D (k x)
  | PExit c => E c
  | PAbort => D
  | PSleep => D
  end.

(** What a run ended with, read against [R], [E] and [D]. *)
Definition ended {A : Type} (R : A -> Prop) (E : Z -> Prop) (D : Prop)
           (r : outcome A * Z * list event) : Prop :=
  match fst (fst r) with
  | ORet a => R a
  | OExit c => E c
  | OAbort => D
  | OSleep => D
  end.

(** ** Scenarios *)

(** A reaper that runs as pid 1 and leads its process group, as in a
    container. *)
Definition init_env : env :=
  {| getpid := 1; getpgrp := 1; strerror := fun _ => "Interrupted system call" |}.

(** A reaper that is not the leader of its process group. *)
Definition follower_env : env :=
  {| getpid := 40; getpgrp := 7; strerror := fun _ => "Interrupted system call" |}.

(** The options of the revision with [-w] and [-t], none given. *)
Definition no_policy : ReaperWT.options :=
  {| ReaperWT.verbose := 0;
     ReaperWT.wait_for_all_children := 0;
     ReaperWT.terminate_all_children_after_command_terminated := 0 |}.

(** The options of little-reaper.c, none given. *)
Definition default_options : LittleReaper.options :=
  {| LittleReaper.verbose := 0; LittleReaper.fault_tolerant := 0;
     LittleReaper.dont_reap := 0;
     LittleReaper.wait_for_all_sub_processes := 0;
     LittleReaper.wait_forever := 0 |}.

(** ** The claims C1, C2, C3 and C8 as the spec states them *)

(** C1: the process exits, and its parent sees status [N]. *)
Definition exits_with_status {A : Type} (r : outcome A * Z * list event) (N : Z) : Prop :=
  exists c, fst (fst r) = OExit c /\ exit_status c = N.



(** The claim as the spec states it, read on one run of tinyreaper, which
    has no option for either policy: when the command's termination has been
    observed, nobody is signalled, no alarm is armed, and the process
    exits. *)
Definition leaves_at_command_exit (r : outcome unit * Z * list event) : Prop :=
  effects (snd r) = [] /\ exists c, fst (fst r) = OExit c.

(** * The rest of [main]: arguments, start-up, [fork] and [execv] *)

(** ** What the kernel answers during start-up *)

(** [getppid]; the return value and [errno] of [prctl]; those of
    [sigaction], by signal number; the return value of [fork]; and [errno]
    if [execv] fails ([None]: it does not return, the command's image has
    replaced the process). *)
Record startup : Type := {
  getppid : Z;
  prctl_rc : Z;
  prctl_errno : Z;
  sigaction_rc : Z -> Z;
  sigaction_errno : Z -> Z;
  fork_rc : Z;
  execv_errno : option Z
}.

(** How the text of [main] is left when no [exit] is reached: in the child,
    [execv(child_argv[0], child_argv)] has replaced the image; in the
    parent, every return of [wait] handed to the model is consumed and the
    process is blocked in the next [wait]. *)
Inductive main_end : Type :=
| Replaced (child_argv : list string)
| Waiting.

(** [printf] of a text without conversions; stdout is flushed by [exit] at
    the latest. *)
Definition printf (text : string) : prog unit := write text.

(** The double quote. *)
Definition QUOTE : string := String "034"%char "".

(** [argv[i][0]]: the first byte of a C string, the NUL if it is empty. *)
Definition first_char (s : string) : ascii :=
  match s with
  | String c _ => c
  | EmptyString => "000"%char
  end.

(** [(int)strlen(s)] *)
Definition strlen (s : string) : Z := Z.of_nat (String.length s).

(** The bytes [argv[i][1]], ..., [argv[i][len - 1]]. *)
Definition letters_of (arg : string) : string :=
  match arg with
  | String _ rest => rest
  | EmptyString => EmptyString
  end.

(** [%c] *)
Definition chr (c : ascii) : string := String c "".

(** ** Reading command lines *)

(** Every letter of [letters] satisfies [known]. *)
Fixpoint only_letters (known : ascii -> bool) (letters : string) : bool :=
  match letters with
  | EmptyString => true
  | String c rest => known c && only_letters known rest
  end.

(** The letter [c] occurs in [letters]. *)
Fixpoint has_letter (c : ascii) (letters : string) : bool :=
  match letters with
  | EmptyString => false
  | String c' rest => Ascii.eqb c' c || has_letter c rest
  end.

(** An option argument: a dash followed by one or more letters, all of them
    in [known]. *)
Definition is_option (known : ascii -> bool) (arg : string) : bool :=
  Ascii.eqb (first_char arg) "-"
  && negb (strlen arg =? 1)
  && only_letters known (letters_of arg).

(** The letters of all option arguments, in order. *)
Fixpoint letters_of_all (opts : list string) : string :=
  match opts with
  | [] => ""
  | arg :: rest => letters_of arg +++ letters_of_all rest
  end.

(** The flag letters that let tinyreaper's parser go on ([V] and [h] end
    the process), and those of little-reaper.c. *)
Definition tinyreaper_flag (c : ascii) : bool := Ascii.eqb c "v".
Definition little_reaper_flag (c : ascii) : bool :=
  Ascii.eqb c "v" || Ascii.eqb c "e" || Ascii.eqb c "w" || Ascii.eqb c "W"
  || Ascii.eqb c "r".

(** The C integer of a truth value. *)
Definition int_of_bool (b : bool) : Z := if b then 1 else 0.

(** ** tinyreaper 1.0.1 (src/unnamed/part_002) *)

Module TinyreaperMain.

Definition VERSION : string := "1.0.1".

Definition print_usage : prog unit :=
  printf ("tinyreaper [Options] <command> [<command arguments>]" +++ NL) ;;
  printf NL ;;
  printf ("Registers itself as sub reaper for child processes, then starts <command>." +++ NL) ;;
  printf NL ;;
  printf ("Options:" +++ NL) ;;
  printf ("`-v`: verbose mode" +++ NL) ;;
  printf ("`-V`: version" +++ NL) ;;
  printf ("`-h`: this help" +++ NL).

(** The inner loop of the argument parser, over the letters of one option
    argument; [verbose] is the global as it stands, the result its new
    value. *)
Fixpoint read_flags (letters : string) (verbose : Z) : prog Z :=
  match letters with
  | EmptyString => Ret verbose
  | String c rest =>
      Tinyreaper.VERBOSEf verbose ("read flag: " +++ chr c) ;;
      if Ascii.eqb c "v" then read_flags rest 1
      else if Ascii.eqb c "V" then
        Tinyreaper.LOG ("version: " +++ VERSION) ;;
        PExit 0
      else if Ascii.eqb c "h" then
        print_usage ;;
        PExit 0
      else
        Tinyreaper.LOGf ("Unknown flag: " +++ chr c) ;;
        print_usage ;;
        PExit (-1)
  end.

(** The outer loop, [args] being [argv[i]], [argv[i + 1]], ...; it returns
    [verbose] and [start_command]. *)
Fixpoint parse_arguments (args : list string) (i : Z) (verbose : Z) : prog (Z * Z) :=
  match args with
  | [] => Ret (verbose, -1)
  | arg :: rest =>
      if Ascii.eqb (first_char arg) "-" then
        let len := strlen arg in
        if len =? 1 then
          Tinyreaper.LOG "Missing option" ;;
          print_usage ;;
          PExit (-1)
        else
          verbose' <- read_flags (letters_of arg) verbose ;;
          parse_arguments rest (i + 1) verbose'
      else Ret (verbose, i)
  end.

Definition make_me_a_reaper (e : env) (k : startup) : prog unit :=
  let rc := prctl_rc k in
  if rc =? -1 then
    Tinyreaper.LOGf ("Failed to set sub reaper state - errno: " +++ dec (prctl_errno k)
                     +++ " (" +++ strerror e (prctl_errno k) +++ ")") ;;
    Tinyreaper.LOG "Note: Will not adopt orphans."
  else skip.

(** [const int sigs[]], its sentinel included. *)
Definition sigs : list Z := [SIGTERM; SIGINT; SIGQUIT; SIGALRM; -1].

(** The loop of [initialize_signal_handler] from [sigs[i]] on. *)
Fixpoint install_handlers (e : env) (k : startup) (sigs : list Z) : prog unit :=
  match sigs with
  | [] => skip
  | sig :: rest =>
      if sig =? -1 then skip
      else
        (if sigaction_rc k sig =? -1 then
           Tinyreaper.LOGf ("Failed to install signal handler for " +++ dec sig
                            +++ " - errno: " +++ dec (sigaction_errno k sig)
                            +++ " (" +++ strerror e (sigaction_errno k sig) +++ ")")
         else skip) ;;
        install_handlers e k rest
  end.

Definition initialize_signal_handler (e : env) (k : startup) : prog unit :=
  install_handlers e k sigs.


(** [main] from [command_pid = fork();] on; [ws] are the successive returns
    of [wait] in the parent. *)
Definition fork_and_run (e : env) (k : startup) (verbose : Z)
           (child_argv : list string) (ws : list wait_result) : prog main_end :=
  let argv0 := hd "" child_argv in
  let command_pid := fork_rc k in
  if command_pid =? 0 then
    match execv_errno k with
    | None => Ret (Replaced child_argv)
    | Some errno =>
        Tinyreaper.LOGf ("Failed to exec " +++ QUOTE +++ argv0 +++ QUOTE
                         +++ " - errno: " +++ dec errno
                         +++ " (" +++ strerror e errno +++ ")") ;;
        PExit (-1)
    end
  else
    Tinyreaper.parent e verbose command_pid argv0 ws ;;
    Ret Waiting.

(** [main].  [getpgrp e] is the process group after [setpgrp()]. *)
Definition main (e : env) (k : startup) (argv : list string) (ws : list wait_result)
  : prog main_end :=
  r <- parse_arguments (tl argv) 1 0 ;;
  let verbose := fst r in
  let start_command := snd r in
  if start_command =? -1 then
    Tinyreaper.LOG "Missing command" ;;
    print_usage ;;
    PExit (-1)
  else
    make_me_a_reaper e k ;;
    initialize_signal_handler e k ;;
    let child_argv := skipn (Z.to_nat start_command) argv in
    Tinyreaper.VERBOSEf verbose
      ("tinyreaper (pid: " +++ dec (getpid e) +++ ", parent: " +++ dec (getppid k)
       +++ ", pgrp: " +++ dec (getpgrp e) +++ ")") ;;
    fork_and_run e k verbose child_argv ws.

End TinyreaperMain.

(** ** src/little-reaper.c *)

Module LittleReaperMain.

Import LittleReaper.

(** The statics as they are initialised. *)
Definition initial_options : options :=
  {| verbose := 0; fault_tolerant := 0; dont_reap := 0;
     wait_for_all_sub_processes := 0; wait_forever := 0 |}.

(** [verbose = 1;] and the like. *)
Definition set_verbose (o : options) : options :=
  {| verbose := 1; fault_tolerant := fault_tolerant o; dont_reap := dont_reap o;
     wait_for_all_sub_processes := wait_for_all_sub_processes o;
     wait_forever := wait_forever o |}.
Definition set_fault_tolerant (o : options) : options :=
  {| verbose := verbose o; fault_tolerant := 1; dont_reap := dont_reap o;
     wait_for_all_sub_processes := wait_for_all_sub_processes o;
     wait_forever := wait_forever o |}.
Definition set_wait_for_all_sub_processes (o : options) : options :=
  {| verbose := verbose o; fault_tolerant := fault_tolerant o; dont_reap := dont_reap o;
     wait_for_all_sub_processes := 1;
     wait_forever := wait_forever o |}.
Definition set_wait_forever (o : options) : options :=
  {| verbose := verbose o; fault_tolerant := fault_tolerant o; dont_reap := dont_reap o;
     wait_for_all_sub_processes := wait_for_all_sub_processes o;
     wait_forever := 1 |}.
Definition set_dont_reap (o : options) : options :=
  {| verbose := verbose o; fault_tolerant := fault_tolerant o; dont_reap := 1;
     wait_for_all_sub_processes := wait_for_all_sub_processes o;
     wait_forever := wait_forever o |}.

Definition print_usage : prog unit :=
  LOG "Usage: little-reaper [options] <command> [<command arguments> ...]" ;;
  LOG "       options:" ;;
  LOG "       -v: verbose mode" ;;
  LOG "       -f: fault tolerant mode" ;;
  LOG "       -w: Wait for all child processes (default: only wait for command)" ;;
  LOG "       -W: Wait forever, never finish" ;;
  LOG "       -r: Dont reap child processes".

(** The inner loop of the argument parser, over the letters of one option
    argument. *)
Fixpoint read_flags (letters : string) (o : options) : prog options :=
  match letters with
  | EmptyString => Ret o
  | String c rest =>
      VERBOSEf o ("read flag: " +++ chr c) ;;
      if Ascii.eqb c "v" then read_flags rest (set_verbose o)
      else if Ascii.eqb c "e" then read_flags rest (set_fault_tolerant o)
      else if Ascii.eqb c "w" then read_flags rest (set_wait_for_all_sub_processes o)
      else if Ascii.eqb c "W" then read_flags rest (set_wait_forever o)
      else if Ascii.eqb c "r" then read_flags rest (set_dont_reap o)
      else
        LOGf ("Unknown flag: " +++ chr c) ;;
        print_usage ;;
        PExit (-1)
  end.

(** The outer loop; it returns the options and [start_command]. *)
Fixpoint parse_arguments (args : list string) (i : Z) (o : options)
  : prog (options * Z) :=
  match args with
  | [] => Ret (o, -1)
  | arg :: rest =>
      if Ascii.eqb (first_char arg) "-" then
        let len := strlen arg in
        if len =? 1 then
          LOG "Missing option" ;;
          print_usage ;;
          PExit (-1)
        else
          o' <- read_flags (letters_of arg) o ;;
          parse_arguments rest (i + 1) o'
      else Ret (o, i)
  end.

Definition make_me_a_reaper (e : env) (k : startup) (o : options) : prog unit :=
  let rc := prctl_rc k in
  if rc =? -1 then
    LOGf ("Failed to set sub reaper state - errno: " +++ dec (prctl_errno k)
          +++ " (" +++ strerror e (prctl_errno k) +++ ")") ;;
    if negb (truthy (fault_tolerant o)) then PExit (-1) else skip
  else skip.

(** [main] from [pid_t command = fork();] on; [ws] are the successive
    returns of [wait] in the parent. *)
Definition fork_and_run (e : env) (k : startup) (o : options)
           (child_argv : list string) (ws : list wait_result) : prog main_end :=
  let command := fork_rc k in
  if command =? 0 then
    match execv_errno k with
    | None => Ret (Replaced child_argv)
    | Some errno =>
        LOGf ("Failed to exec " +++ QUOTE +++ hd "" child_argv +++ QUOTE
              +++ " - errno: " +++ dec errno
              +++ " (" +++ strerror e errno +++ ")") ;;
        PExit (-1)
    end
  else
    parent e o command ws ;;
    Ret Waiting.

Definition main (e : env) (k : startup) (argv : list string) (ws : list wait_result)
  : prog main_end :=
  r <- parse_arguments (tl argv) 1 initial_options ;;
  let o := fst r in
  let start_command := snd r in
  if start_command =? -1 then
    LOG "Missing command" ;;
    print_usage ;;
    PExit (-1)
  else
    make_me_a_reaper e k o ;;
    let child_argv := skipn (Z.to_nat start_command) argv in
    VERBOSEf o ("little-reaper (pid: " +++ dec (getpid e)
                +++ ", parent: " +++ dec (getppid k) +++ ")") ;;
    fork_and_run e k o child_argv ws.

(** The options once the flag letters [letters] are read, from [o]: each
    letter that occurs sets its option, the others stay. *)
Definition options_of_letters (letters : string) (o : options) : options :=
  {| verbose := if has_letter "v" letters then 1 else verbose o;
     fault_tolerant := if has_letter "e" letters then 1 else fault_tolerant o;
     dont_reap := if has_letter "r" letters then 1 else dont_reap o;
     wait_for_all_sub_processes :=
       if has_letter "w" letters then 1 else wait_for_all_sub_processes o;
     wait_forever := if has_letter "W" letters then 1 else wait_forever o |}.

End LittleReaperMain.

(** ** Reading what was written *)

(** [a % 10] in [write_num], for [int a = n]: the index into [digits] of
    the byte that [write_num n] writes last. *)
Definition last_digit_index (n : Z) : Z := Z.rem (int_of_unsigned n) 10.

(** The bytes of a trace that went to stdout, in order. *)
Fixpoint text_of (tr : list event) : string :=
  match tr with
  | [] => ""
  | EvWrite s :: tr' => s +++ text_of tr'
  | _ :: tr' => text_of tr'
  end.

(** The value of a decimal digit. *)
Definition digit_value (c : ascii) : option Z :=
  let n := Z.of_nat (nat_of_ascii c) in
  if (48 <=? n) && (n <=? 57) then Some (n - 48) else None.

(** The number a string of decimal digits denotes, read from the left with
    [acc] for the digits already read. *)
Fixpoint decimal_value_from (acc : Z) (s : string) : option Z :=
  match s with
  | EmptyString => Some acc
  | String c rest =>
      match digit_value c with
      | Some d => decimal_value_from (10 * acc + d) rest
      | None => None
      end
  end.

Definition decimal_value (s : string) : option Z :=
  match s with
  | EmptyString => None
  | _ => decimal_value_from 0 s
  end.

(** ** What programs do on every path *)

(** [emits_only Q S p]: on every path of [p], every event satisfies [Q] and
    every value stored to the flag satisfies [S]. *)
Fixpoint emits_only {A : Type} (Q : event -> Prop) (S : Z -> Prop) (p : prog A) : Prop :=
  match p with
  | Act a k =>
      match a with
      | ALoad => True
      | AStore v => S v
      | AWrite s => Q (EvWrite s)
      | AKill pid sig => Q (EvKill pid sig)
      | AAlarm secs => Q (EvAlarm secs)
      end
      /\ forall x, emits_only Q S (k x)
  | _ => True
  end.

(** [ends_while_set R E p]: as long as the flag reads as set, [p] stores
    only values that leave it set, and ends by returning a value in [R] or
    by calling [exit] with a code in [E]. *)
Fixpoint ends_while_set {A : Type} (R : A -> Prop) (E : Z -> Prop) (p : prog A) : Prop :=
  match p with
  | Ret a => R a
  | Act ALoad k => forall x, truthy x = true -> ends_while_set R E (k x)
  | Act (AStore v) k => truthy v = true /\ forall x, ends_while_set R E (k x)
  | Act _ k => forall x, ends_while_set R E (k x)
  | PExit c => E c
  | PAbort => False
  | PSleep => False
  end.

(** The events tinyreaper may produce: bytes on stdout, [SIGTERM] to its own
    process group if it leads it, and the alarm of the death clock. *)
Definition tinyreaper_event (e : env) (ev : event) : Prop :=
  is_write ev = true
  \/ (ev = EvKill 0 SIGTERM /\ getpgrp e = getpid e)
  \/ ev = EvAlarm Tinyreaper.shutdown_timeout_seconds.

(** [wait] failed with [ECHILD], as tinyreaper's loop tests it. *)
Definition leaves_loop (w : wait_result) : bool :=
  negb (0 <? w_child w) && (w_child w =? -1) && (w_errno w =? ECHILD).

(** The locals of little-reaper.c's loop after the returns [ws] of [wait],
    were the loop not left. *)
Definition locals_after (command : Z) (ws : list wait_result) (l : LittleReaper.locals)
  : LittleReaper.locals :=
  fold_left (fun l w => LittleReaper.observe_locals command w l) ws l.

(** ** Scenarios of start-up *)

(** Every call succeeds; the process is the child of [fork]. *)
Definition child_startup : startup :=
  {| getppid := 1; prctl_rc := 0; prctl_errno := 0;
     sigaction_rc := fun _ => 0; sigaction_errno := fun _ => 0;
     fork_rc := 0; execv_errno := None |}.

(** Every call succeeds; the process is the parent, the command has pid
    100. *)
Definition parent_startup : startup :=
  {| getppid := 1; prctl_rc := 0; prctl_errno := 0;
     sigaction_rc := fun _ => 0; sigaction_errno := fun _ => 0;
     fork_rc := 100; execv_errno := None |}.

(** [prctl] and every [sigaction] fail with [EINVAL]; the process is the
    child of [fork]. *)
Definition failing_startup : startup :=
  {| getppid := 1; prctl_rc := -1; prctl_errno := 22;
     sigaction_rc := fun _ => -1; sigaction_errno := fun _ => 22;
     fork_rc := 0; execv_errno := None |}.


(** * Reasoning about programs *)

Section ProgramLogic.

Lemma exec_bind {A B : Type} (p : prog A) (f : A -> prog B) (flag : Z) :
  exec (bind p f) flag =
  match exec p flag with
  | (ORet a, flag1, tr1) =>
      let '(o, flag2, tr2) := exec (f a) flag1 in (o, flag2, tr1 ++ tr2)
  | (OExit c, flag1, tr1) => (OExit c, flag1, tr1)
  | (OAbort, flag1, tr1) => (OAbort, flag1, tr1)
  | (OSleep, flag1, tr1) => (OSleep, flag1, tr1)
  end.
Proof.
  revert flag.
  induction p as [a | a k IH | c | | ]; intros flag; simpl; try reflexivity.
  - destruct (exec (f a) flag) as [[o f2] t2]. reflexivity.
  - destruct (run_action a flag) as [[x f1] ev].
    rewrite IH.
    destruct (exec (k x) f1) as [[[a' | c | | ] f2] t2]; try reflexivity.
    destruct (exec (f a') f2) as [[o f3] t3].
    now rewrite app_assoc.
Qed.

Lemma quiet_bind {A B : Type} (p : prog A) (f : A -> prog B) :
  quiet p -> (forall a, quiet (f a)) -> quiet (bind p f).
Proof.
  induction p as [a | a k IH | c | | ]; simpl; intros Hp Hf; try contradiction.
  - apply Hf.
  - destruct a; try contradiction. intros x. apply IH; auto.
Qed.

Lemma exec_quiet {A : Type} (p : prog A) (flag : Z) :
  quiet p ->
  exists a tr, exec p flag = (ORet a, flag, tr) /\ effects tr = [].
Proof.
  induction p as [a | a k IH | c | | ]; simpl; intros Hq; try contradiction.
  - exists a, []. split; reflexivity.
  - destruct a; try contradiction. simpl.
    destruct (IH 0 (Hq 0)) as (a' & tr & E & Heff).
    rewrite E. exists a', (EvWrite s :: tr). split; [reflexivity | exact Heff].
Qed.

Lemma ends_bind {A B : Type} (R' : A -> Prop) (R : B -> Prop) (E : Z -> Prop)
      (D : Prop) (p : prog A) (f : A -> prog B) :
  ends R' E D p -> (forall a, R' a -> ends R E D (f a)) -> ends R E D (bind p f).
Proof.
  induction p as [a | a k IH | c | | ]; simpl; intros Hp Hf; auto.
Qed.

Lemma ends_weaken {A : Type} (R R' : A -> Prop) (E E' : Z -> Prop) (D D' : Prop)
      (p : prog A) :
  ends R E D p ->
  (forall a, R a -> R' a) -> (forall c, E c -> E' c) -> (D -> D') ->
  ends R' E' D' p.
Proof.
  induction p as [a | a k IH | c | | ]; simpl; intros Hp HR HE HD; auto.
Qed.

Lemma quiet_ends {A : Type} (p : prog A) :
  quiet p -> ends (fun _ => True) (fun _ => False) False p.
Proof.
  induction p as [a | a k IH | c | | ]; simpl; intros Hq; auto.
  destruct a; try contradiction. intros x. apply IH, Hq.
Qed.

(** A quiet step in front of [q] changes nothing to how the run ends. *)
Lemma ends_quiet_then {A B : Type} (R : B -> Prop) (E : Z -> Prop) (D : Prop)
      (p : prog A) (f : A -> prog B) :
  quiet p -> (forall a, ends R E D (f a)) -> ends R E D (bind p f).
Proof.
  intros Hq Hf.
  apply ends_bind with (R' := fun _ => True).
  - apply ends_weaken with (R := fun _ => True) (E := fun _ => False) (D := False).
    + now apply quiet_ends.
    + auto.
    + intros c [].
    + intros [].
  - intros a _. apply Hf.
Qed.

Lemma exec_ends {A : Type} (R : A -> Prop) (E : Z -> Prop) (D : Prop)
      (p : prog A) (flag : Z) :
  ends R E D p -> ended R E D (exec p flag).
Proof.
  revert flag.
  induction p as [a | a k IH | c | | ]; simpl; intros flag Hp; auto.
  destruct (run_action a flag) as [[x f1] ev].
  specialize (IH x f1 (Hp x)).
  destruct (exec (k x) f1) as [[o f2] tr]. exact IH.
Qed.

(** The same under preemption: if every handler the schedule calls returns
    or exits with a code in [E], so does the whole run. *)
Lemma prun_ends {A : Type} (handler : Z -> Z -> prog unit)
      (R : A -> Prop) (E : Z -> Prop) (D : Prop) (sch : list slot) :
  forall (p : prog A) (flag : Z),
    (forall sig si_pid, In (Sig sig si_pid) sch ->
                        ends (fun _ => True) E D (handler sig si_pid)) ->
    ends R E D p ->
    ended R E D (prun handler sch p flag).
Proof.
  induction sch as [| s sch IH]; intros p flag Hh Hp.
  - simpl. now apply exec_ends.
  - destruct s as [sig si_pid | ]; simpl.
    + apply IH.
      * intros g q Hin. apply Hh. now right.
      * apply ends_bind with (R' := fun _ => True).
        -- apply Hh. now left.
        -- intros _ _. exact Hp.
    + assert (Hh' : forall g q, In (Sig g q) sch ->
                                ends (fun _ => True) E D (handler g q))
        by (intros g q Hin; apply Hh; now right).
      destruct p as [a | a k | c | | ].
      * apply (IH (Ret a) flag Hh'). exact Hp.
      * simpl in Hp.
        destruct (run_action a flag) as [[x f1] ev].
        specialize (IH (k x) f1 Hh' (Hp x)).
        destruct (prun handler sch (k x) f1) as [[o f2] tr]. exact IH.
      * exact Hp.
      * exact Hp.
      * exact Hp.
Qed.

(** ** The logging helpers are quiet *)

Lemma quiet_write (s : string) : quiet (write s).
Proof. simpl. auto. Qed.

Lemma quiet_WRITE_LITERAL_STRING (s : string) : quiet (WRITE_LITERAL_STRING s).
Proof. apply quiet_write. Qed.

Lemma quiet_write_num_rec (fuel : nat) : forall n, quiet (write_num_rec fuel n).
Proof.
  induction fuel as [| fuel IH]; intros n; simpl.
  - exact I.
  - apply quiet_bind.
    + destruct (9 <? n); [apply IH | exact I].
    + intros _. apply quiet_write.
Qed.

Lemma quiet_write_num (n : Z) : quiet (write_num n).
Proof. apply quiet_write_num_rec. Qed.

Lemma quiet_LOG_process_state (pid status : Z) : quiet (LOG_process_state pid status).
Proof.
  unfold LOG_process_state.
  destruct (0 <? pid); [| exact I].
  destruct (WIFEXITED status); [| destruct (WIFSIGNALED status); [| exact I]];
    repeat (apply quiet_bind;
            [first [apply quiet_WRITE_LITERAL_STRING | apply quiet_write_num] | intros _]);
    apply quiet_WRITE_LITERAL_STRING.
Qed.

End ProgramLogic.

Ltac quiet_tac :=
  repeat first
    [ exact I
    | apply quiet_write
    | apply quiet_WRITE_LITERAL_STRING
    | apply quiet_write_num
    | apply quiet_LOG_process_state
    | match goal with
      | |- quiet (if ?c then _ else _) => destruct c
      | |- quiet (bind _ _) => apply quiet_bind; [| intros ?]
      end ].

(** Conclude with a fact about how the same program ends, weakening it. *)
Ltac ends_from H :=
  apply (ends_weaken _ _ _ _ _ _ _ H);
  [ auto | try (intros ? []); auto | try (intros []); auto ].

(** * tinyreaper: the signal handler and the shutdown transition *)

Section TinyreaperFacts.

Variable e : env.
Variable verbose : Z.

Local Abbreviation LOG := Tinyreaper.LOG.
Local Abbreviation VERBOSE := (Tinyreaper.VERBOSE verbose).
Local Abbreviation start_shutdown := (Tinyreaper.start_shutdown e verbose).
Local Abbreviation handle_alarm := Tinyreaper.handle_alarm.
Local Abbreviation signal_handler := (Tinyreaper.signal_handler e verbose).
Local Abbreviation signal_line := (Tinyreaper.signal_line verbose).

Lemma quiet_LOG (msg : string) : quiet (Tinyreaper.LOG msg).
Proof. unfold Tinyreaper.LOG. quiet_tac. Qed.

Lemma quiet_LOGf (text : string) : quiet (Tinyreaper.LOGf text).
Proof. unfold Tinyreaper.LOGf. quiet_tac. Qed.

Lemma quiet_VERBOSE (msg : string) : quiet (Tinyreaper.VERBOSE verbose msg).
Proof. unfold Tinyreaper.VERBOSE, Tinyreaper.LOG. quiet_tac. Qed.

Lemma quiet_VERBOSEf (text : string) : quiet (Tinyreaper.VERBOSEf verbose text).
Proof. unfold Tinyreaper.VERBOSEf, Tinyreaper.LOGf. quiet_tac. Qed.

(** [send_signal_to_all_children] does not touch the flag; its only event is
    the [kill(0, sig)] of a process-group leader. *)
Lemma exec_send_signal_to_all_children (sig flag : Z) :
  exec (send_signal_to_all_children e sig) flag = (ORet tt, flag, broadcast e sig).
Proof.
  unfold send_signal_to_all_children, broadcast.
  destruct (getpgrp e =? getpid e); reflexivity.
Qed.

(** [start_shutdown], run without interruption. *)
Lemma exec_start_shutdown (flag : Z) :
  exec start_shutdown flag =
  if truthy flag
  then (ORet tt, flag, output_of (VERBOSE "Shutdown already in progress."))
  else (ORet tt, 1,
        output_of (LOG "Terminating children...")
        ++ broadcast e SIGTERM
        ++ output_of (VERBOSE "tick tock...")
        ++ [EvAlarm Tinyreaper.shutdown_timeout_seconds]).
Proof.
  unfold Tinyreaper.start_shutdown, Tinyreaper.VERBOSE, output_of, broadcast,
    send_signal_to_all_children.
  simpl.
  destruct (truthy flag), (truthy verbose), (getpgrp e =? getpid e); reflexivity.
Qed.

(** [handle_alarm], run without interruption. *)
Lemma exec_handle_alarm (flag : Z) :
  exec handle_alarm flag =
  if truthy flag
  then (OExit (-1), flag, output_of (LOG "Shutdown timeout. Terminating."))
  else (ORet tt, flag, []).
Proof.
  unfold Tinyreaper.handle_alarm. simpl.
  destruct (truthy flag); reflexivity.
Qed.

Lemma effects_app (tr1 tr2 : list event) :
  effects (tr1 ++ tr2) = effects tr1 ++ effects tr2.
Proof. apply filter_app. Qed.

Lemma kills_app (tr1 tr2 : list event) : kills (tr1 ++ tr2) = kills tr1 ++ kills tr2.
Proof. apply filter_app. Qed.

Lemma alarms_app (tr1 tr2 : list event) : alarms (tr1 ++ tr2) = alarms tr1 ++ alarms tr2.
Proof. apply filter_app. Qed.

Lemma effects_output_of (p : prog unit) : quiet p -> effects (output_of p) = [].
Proof.
  intros Hq. unfold output_of.
  destruct (exec_quiet p 0 Hq) as (a & tr & E & Heff).
  now rewrite E.
Qed.

Lemma exec_quiet_unit (p : prog unit) (flag : Z) :
  quiet p -> exec p flag = (ORet tt, flag, output_of p).
Proof.
  intros Hq. unfold output_of.
  revert flag.
  induction p as [a | a k IH | c | | ]; simpl in *; intros flag; try contradiction.
  - now destruct a.
  - destruct a; try contradiction. simpl.
    rewrite (IH 0 (Hq 0) flag), (IH 0 (Hq 0) 0). reflexivity.
Qed.

Lemma effects_broadcast (sig : Z) : effects (broadcast e sig) = broadcast e sig.
Proof. unfold broadcast. now destruct (getpgrp e =? getpid e). Qed.

(** The flag and the effects [start_shutdown] leaves behind, log lines
    apart. *)
Lemma start_shutdown_effects (flag : Z) :
  exists tr,
    exec start_shutdown flag = (ORet tt, (if truthy flag then flag else 1), tr)
    /\ effects tr =
       if truthy flag then []
       else broadcast e SIGTERM ++ [EvAlarm Tinyreaper.shutdown_timeout_seconds].
Proof.
  rewrite exec_start_shutdown.
  destruct (truthy flag); eexists; (split; [reflexivity |]).
  - apply effects_output_of, quiet_VERBOSE.
  - rewrite !effects_app, effects_broadcast.
    rewrite (effects_output_of _ (quiet_LOG _)).
    rewrite (effects_output_of _ (quiet_VERBOSE _)).
    reflexivity.
Qed.

Lemma quiet_signal_line (sig : Z) : quiet (signal_line sig).
Proof. unfold Tinyreaper.signal_line. quiet_tac. Qed.


(** Any other signal of the termination class: the handler calls
    [start_shutdown]. *)
Lemma exec_signal_handler_termination (sig si_pid flag : Z) :
  Tinyreaper.termination_class sig = true ->
  (sig =? SIGTERM) && (si_pid =? getpid e) = false ->
  exec (signal_handler sig si_pid) flag =
  let '(o, flag', tr) := exec start_shutdown flag in
  (o, flag', output_of (signal_line sig) ++ tr).
Proof.
  intros Hclass Hself.
  unfold Tinyreaper.signal_handler. rewrite Hself.
  unfold Tinyreaper.termination_class in Hclass. rewrite Hclass.
  rewrite exec_bind.
  change (if truthy verbose
          then WRITE_LITERAL_STRING "Signal: " ;; write_num sig ;; WRITE_LITERAL_STRING NL
          else skip) with (signal_line sig).
  rewrite (exec_quiet_unit _ flag (quiet_signal_line sig)).
  reflexivity.
Qed.

(** [SIGALRM]: the handler calls [handle_alarm]. *)
Lemma exec_signal_handler_SIGALRM (si_pid flag : Z) :
  exec (signal_handler SIGALRM si_pid) flag =
  if truthy flag
  then (OExit (-1), flag,
        output_of (signal_line SIGALRM) ++ output_of (LOG "Shutdown timeout. Terminating."))
  else (ORet tt, flag, output_of (signal_line SIGALRM) ++ []).
Proof.
  unfold Tinyreaper.signal_handler.
  change (SIGALRM =? SIGTERM) with false. simpl andb. cbv iota.
  rewrite exec_bind.
  change (if truthy verbose
          then WRITE_LITERAL_STRING "Signal: " ;; write_num SIGALRM ;; WRITE_LITERAL_STRING NL
          else skip) with (signal_line SIGALRM).
  rewrite (exec_quiet_unit _ flag (quiet_signal_line SIGALRM)).
  change (exec (if false || (SIGALRM =? SIGINT) || (SIGALRM =? SIGQUIT)
                then start_shutdown
                else if SIGALRM =? SIGALRM then handle_alarm else skip) flag)
    with (exec handle_alarm flag).
  rewrite exec_handle_alarm.
  destruct (truthy flag); reflexivity.
Qed.

(** *** How the handler and the loop end, whatever preempts them *)

Lemma ends_start_shutdown :
  ends (fun _ => True) (fun _ => False) False start_shutdown.
Proof.
  unfold Tinyreaper.start_shutdown, load, store.
  cbn [bind ends]. intros x.
  destruct (truthy x).
  - apply quiet_ends, quiet_VERBOSE.
  - cbn [bind ends]. intros _.
    apply ends_quiet_then; [apply quiet_LOG | intros _].
    apply ends_bind with (R' := fun _ => True).
    + unfold send_signal_to_all_children.
      destruct (getpgrp e =? getpid e); simpl; auto.
    + intros _ _.
      apply ends_quiet_then; [apply quiet_VERBOSE | intros _].
      simpl. auto.
Qed.

Lemma ends_handle_alarm :
  ends (fun _ => True) (fun c => c = -1) False handle_alarm.
Proof.
  unfold Tinyreaper.handle_alarm, load.
  cbn [bind ends]. intros x.
  destruct (truthy x); [| exact I].
  apply ends_quiet_then; [apply quiet_LOG | intros _].
  reflexivity.
Qed.

(** The handler returns, or exits with [-1]. *)
Lemma ends_signal_handler (sig si_pid : Z) :
  ends (fun _ => True) (fun c => c = -1) False (signal_handler sig si_pid).
Proof.
  unfold Tinyreaper.signal_handler.
  destruct ((sig =? SIGTERM) && (si_pid =? getpid e)).
  - ends_from (quiet_ends _ (quiet_VERBOSE "Ignoring SIGTERM sent by myself.")).
  - apply ends_quiet_then; [apply (quiet_signal_line sig) | intros _].
    destruct ((sig =? SIGTERM) || (sig =? SIGINT) || (sig =? SIGQUIT)).
    + ends_from ends_start_shutdown.
    + destruct (sig =? SIGALRM); [apply ends_handle_alarm | exact I].
Qed.

(** Only the handler of [SIGALRM] can exit. *)
Lemma ends_signal_handler_not_SIGALRM (sig si_pid : Z) :
  sig <> SIGALRM ->
  ends (fun _ => True) (fun _ => False) False (signal_handler sig si_pid).
Proof.
  intros Hsig.
  unfold Tinyreaper.signal_handler.
  destruct ((sig =? SIGTERM) && (si_pid =? getpid e)).
  - apply quiet_ends, quiet_VERBOSE.
  - apply ends_quiet_then; [apply (quiet_signal_line sig) | intros _].
    destruct ((sig =? SIGTERM) || (sig =? SIGINT) || (sig =? SIGQUIT)).
    + apply ends_start_shutdown.
    + destruct (Z.eqb_spec sig SIGALRM); [contradiction | exact I].
Qed.



Variable command_pid : Z.
Variable argv0 : string.

Local Abbreviation reap_iteration := (Tinyreaper.reap_iteration e verbose command_pid argv0).
Local Abbreviation reap_loop := (Tinyreaper.reap_loop e verbose command_pid argv0).
Local Abbreviation parent := (Tinyreaper.parent e verbose command_pid argv0).
Local Abbreviation next_ctl := (Tinyreaper.next_ctl command_pid).
Local Abbreviation status_at_break := (Tinyreaper.status_at_break command_pid).

Lemma ends_reap_iteration (w : wait_result) (cs : Z) :
  ends (fun c => c = next_ctl w cs) (fun _ => False) False (reap_iteration w cs).
Proof.
  unfold Tinyreaper.reap_iteration, Tinyreaper.next_ctl.
  destruct (0 <? w_child w).
  - apply ends_quiet_then; [apply quiet_LOG_process_state | intros _].
    destruct (w_child w =? command_pid); [| reflexivity].
    apply ends_quiet_then; [apply quiet_VERBOSEf | intros _].
    apply ends_bind with (R' := fun _ => True); [apply ends_start_shutdown |].
    intros _ _. reflexivity.
  - destruct ((w_child w =? -1) && (w_errno w =? ECHILD)); [| reflexivity].
    apply ends_quiet_then; [apply quiet_VERBOSE | intros _].
    reflexivity.
Qed.

Lemma ends_reap_loop (ws : list wait_result) :
  forall cs,
    ends (fun r => r = status_at_break ws cs) (fun _ => False) False (reap_loop ws cs).
Proof.
  induction ws as [| w ws IH]; intros cs; simpl.
  - reflexivity.
  - apply ends_bind with (R' := fun c => c = next_ctl w cs).
    + apply ends_reap_iteration.
    + intros c ->. destruct (next_ctl w cs) as [cs' | cs'].
      * apply IH.
      * reflexivity.
Qed.

(** The parent either is still waiting (the returns of [wait] do not reach
    the [break]) or exits with the code computed from [command_status]. *)
Lemma ends_parent (ws : list wait_result) :
  ends (fun _ => status_at_break ws 0 = None)
       (fun c => exists cs, status_at_break ws 0 = Some cs
                            /\ c = rc_of_command_status cs)
       False
       (parent ws).
Proof.
  unfold Tinyreaper.parent.
  apply ends_bind with (R' := fun r => r = status_at_break ws 0).
  - ends_from (ends_reap_loop ws 0).
  - intros r ->. destruct (status_at_break ws 0) as [cs |].
    + unfold Tinyreaper.finish.
      apply ends_quiet_then; [apply quiet_VERBOSEf | intros _].
      simpl. now exists cs.
    + reflexivity.
Qed.

(** Every run of the parent, whatever signals arrive and wherever they
    preempt it: it is still waiting, it was ended by the alarm handler with
    [-1], or it left the loop and exits with the computed code. *)
Lemma prun_parent (sch : list slot) (ws : list wait_result) (flag : Z) :
  ended (fun _ => status_at_break ws 0 = None)
        (fun c => c = -1 \/ exists cs, status_at_break ws 0 = Some cs
                                       /\ c = rc_of_command_status cs)
        False
        (prun signal_handler sch (parent ws) flag).
Proof.
  apply prun_ends.
  - intros sig si_pid _.
    apply (ends_weaken _ _ _ _ _ _ _ (ends_signal_handler sig si_pid));
      [auto | intros c Hc; now left | auto].
  - apply (ends_weaken _ _ _ _ _ _ _ (ends_parent ws));
      [auto | intros c Hc; now right | auto].
Qed.

(** The same when no [SIGALRM] arrives: the handler never ends the run. *)
Lemma prun_parent_no_alarm (sch : list slot) (ws : list wait_result) (flag : Z) :
  (forall si_pid, ~ In (Sig SIGALRM si_pid) sch) ->
  ended (fun _ => status_at_break ws 0 = None)
        (fun c => exists cs, status_at_break ws 0 = Some cs
                             /\ c = rc_of_command_status cs)
        False
        (prun signal_handler sch (parent ws) flag).
Proof.
  intros Hno.
  apply prun_ends.
  - intros sig si_pid Hin.
    assert (Hsig : sig <> SIGALRM).
    { intros ->. exact (Hno si_pid Hin). }
    ends_from (ends_signal_handler_not_SIGALRM sig si_pid Hsig).
  - apply ends_parent.
Qed.

(** *** One iteration of the loop, run without interruption *)

(** [wait] returned the command's pid: the iteration calls [start_shutdown]
    and goes round again. *)
Lemma exec_reap_iteration_command (w : wait_result) (cs flag : Z) :
  (0 <? w_child w) = true ->
  (w_child w =? command_pid) = true ->
  exists tr,
    exec (reap_iteration w cs) flag =
      (ORet (Continue (w_status w)), (if truthy flag then flag else 1), tr)
    /\ effects tr =
       if truthy flag then []
       else broadcast e SIGTERM ++ [EvAlarm Tinyreaper.shutdown_timeout_seconds].
Proof.
  intros Hpos Hcmd.
  unfold Tinyreaper.reap_iteration. rewrite Hpos, Hcmd.
  rewrite exec_bind, (exec_quiet_unit _ flag (quiet_LOG_process_state _ _)).
  rewrite exec_bind, (exec_quiet_unit _ flag (quiet_VERBOSEf _)).
  rewrite exec_bind.
  destruct (start_shutdown_effects flag) as (tr & Hexec & Heff).
  rewrite Hexec. cbn [exec].
  eexists. split; [reflexivity |].
  rewrite !effects_app, Heff.
  rewrite (effects_output_of _ (quiet_LOG_process_state _ _)).
  rewrite (effects_output_of _ (quiet_VERBOSEf _)).
  now rewrite app_nil_r.
Qed.

(** Any other return of [wait]: no signal, no alarm, the flag untouched. *)
Lemma exec_reap_iteration_other (w : wait_result) (cs flag : Z) :
  (0 <? w_child w) && (w_child w =? command_pid) = false ->
  exists tr,
    exec (reap_iteration w cs) flag = (ORet (next_ctl w cs), flag, tr)
    /\ effects tr = [].
Proof.
  intros Hother.
  unfold Tinyreaper.reap_iteration, Tinyreaper.next_ctl.
  destruct (0 <? w_child w).
  - simpl in Hother. rewrite Hother.
    rewrite exec_bind, (exec_quiet_unit _ flag (quiet_LOG_process_state _ _)).
    cbn [exec]. eexists. split; [reflexivity |].
    rewrite app_nil_r. apply effects_output_of, quiet_LOG_process_state.
  - destruct ((w_child w =? -1) && (w_errno w =? ECHILD)).
    + rewrite exec_bind, (exec_quiet_unit _ flag (quiet_VERBOSE _)).
      cbn [exec]. eexists. split; [reflexivity |].
      rewrite app_nil_r. apply effects_output_of, quiet_VERBOSE.
    + cbn [exec]. now exists [].
Qed.


(** The loop is left through [break] only when [wait] failed with
    [ECHILD]. *)
Lemma Tinyreaper_next_ctl_is_Break (w : wait_result) (cs cs' : Z) :
  next_ctl w cs = Break cs' <->
  w_child w = -1 /\ w_errno w = ECHILD /\ cs' = cs.
Proof.
  unfold Tinyreaper.next_ctl.
  destruct (Z.ltb_spec 0 (w_child w)) as [Hpos | Hneg].
  - destruct (w_child w =? command_pid); split; try discriminate; intros (H & _); lia.
  - destruct (Z.eqb_spec (w_child w) (-1)) as [Hc | Hc];
      destruct (Z.eqb_spec (w_errno w) ECHILD) as [He | He]; simpl;
      split; try discriminate; try (intros (H1 & H2 & H3); congruence).
    intros [= ->]. auto.
Qed.

(** *** Begin-shutdown requests served one after the other *)

Lemma kills_effects (tr : list event) : kills (effects tr) = kills tr.
Proof.
  unfold kills, effects.
  induction tr as [| ev tr IH]; [reflexivity |].
  destruct ev; simpl; now rewrite ?IH.
Qed.

Lemma alarms_effects (tr : list event) : alarms (effects tr) = alarms tr.
Proof.
  unfold alarms, effects.
  induction tr as [| ev tr IH]; [reflexivity |].
  destruct ev; simpl; now rewrite ?IH.
Qed.

(** One call of the handler either leaves flag and world alone (log lines
    apart), or it is the one that begins the shutdown. *)
Lemma exec_signal_handler_summary (sig si_pid flag : Z) :
  exists o flag' tr,
    exec (signal_handler sig si_pid) flag = (o, flag', tr)
    /\ ((flag' = flag /\ effects tr = [])
        \/ (truthy flag = false /\ flag' = 1 /\ o = ORet tt
            /\ effects tr =
               broadcast e SIGTERM ++ [EvAlarm Tinyreaper.shutdown_timeout_seconds])).
Proof.
  destruct ((sig =? SIGTERM) && (si_pid =? getpid e)) eqn:Hself.
  - unfold Tinyreaper.signal_handler. rewrite Hself.
    rewrite (exec_quiet_unit _ flag (quiet_VERBOSE _)).
    do 3 eexists. split; [reflexivity |]. left. split; [reflexivity |].
    apply effects_output_of, quiet_VERBOSE.
  - destruct (Tinyreaper.termination_class sig) eqn:Hclass.
    + rewrite (exec_signal_handler_termination sig si_pid flag Hclass Hself).
      destruct (start_shutdown_effects flag) as (tr & Hexec & Heff).
      rewrite Hexec.
      do 3 eexists. split; [reflexivity |].
      rewrite effects_app, (effects_output_of _ (quiet_signal_line sig)), Heff.
      destruct (truthy flag); [left | right]; auto.
    + unfold Tinyreaper.signal_handler. rewrite Hself.
      unfold Tinyreaper.termination_class in Hclass. rewrite Hclass.
      rewrite exec_bind.
      change (if truthy verbose
              then WRITE_LITERAL_STRING "Signal: " ;; write_num sig ;; WRITE_LITERAL_STRING NL
              else skip) with (signal_line sig).
      rewrite (exec_quiet_unit _ flag (quiet_signal_line sig)).
      destruct (sig =? SIGALRM).
      * rewrite exec_handle_alarm.
        destruct (truthy flag); do 3 eexists; (split; [reflexivity |]); left;
          (split; [reflexivity |]); rewrite effects_app;
          rewrite (effects_output_of _ (quiet_signal_line sig));
          rewrite ?(effects_output_of _ (quiet_LOG _)); reflexivity.
      * cbn [exec skip]. do 3 eexists. split; [reflexivity |]. left.
        split; [reflexivity |].
        rewrite app_nil_r. apply effects_output_of, quiet_signal_line.
Qed.

Lemma exec_run_trigger_summary (t : Tinyreaper.trigger) (flag : Z) :
  exists o flag' tr,
    exec (Tinyreaper.run_trigger e verbose t) flag = (o, flag', tr)
    /\ ((flag' = flag /\ effects tr = [])
        \/ (truthy flag = false /\ flag' = 1 /\ o = ORet tt
            /\ effects tr =
               broadcast e SIGTERM ++ [EvAlarm Tinyreaper.shutdown_timeout_seconds])).
Proof.
  destruct t as [sig si_pid | ]; cbn [Tinyreaper.run_trigger].
  - apply exec_signal_handler_summary.
  - destruct (start_shutdown_effects flag) as (tr & Hexec & Heff).
    rewrite Hexec. do 3 eexists. split; [reflexivity |].
    rewrite Heff. destruct (truthy flag); [left | right]; auto.
Qed.

Lemma broadcast_once (sig : Z) : (List.length (kills (broadcast e sig)) <= 1)%nat.
Proof. unfold broadcast. destruct (getpgrp e =? getpid e); simpl; lia. Qed.

Lemma alarms_broadcast (sig : Z) : alarms (broadcast e sig) = [].
Proof. unfold broadcast. now destruct (getpgrp e =? getpid e). Qed.

(** When every request is served to its end before the next one starts, the
    group is signalled at most once and the alarm armed at most once; once
    the flag is set, not at all. *)
Lemma run_triggers_at_most_once (ts : list Tinyreaper.trigger) :
  forall flag,
    let tr := snd (exec (Tinyreaper.run_triggers e verbose ts) flag) in
    (truthy flag = true -> effects tr = [])
    /\ (List.length (kills tr) <= 1)%nat
    /\ (List.length (alarms tr) <= 1)%nat.
Proof.
  induction ts as [| t ts IH]; intros flag; cbn zeta.
  - simpl. repeat split; auto.
  - cbn [Tinyreaper.run_triggers]. rewrite exec_bind.
    destruct (exec_run_trigger_summary t flag) as (o & flag' & tr1 & Hexec & Hcases).
    rewrite Hexec.
    specialize (IH flag'). cbn zeta in IH.
    destruct (exec (Tinyreaper.run_triggers e verbose ts) flag') as [[o2 f2] tr2].
    cbn [snd] in IH. destruct IH as (IHset & IHk & IHa).
    assert (Hk1 : kills tr1 = kills (effects tr1)) by now rewrite kills_effects.
    assert (Ha1 : alarms tr1 = alarms (effects tr1)) by now rewrite alarms_effects.
    destruct Hcases as [(-> & Heff) | (Hidle & -> & -> & Heff)].
    + rewrite Heff in Hk1, Ha1. simpl in Hk1, Ha1.
      assert (Hgoal : (truthy flag = true -> effects (tr1 ++ tr2) = [])
                      /\ (List.length (kills (tr1 ++ tr2)) <= 1)%nat
                      /\ (List.length (alarms (tr1 ++ tr2)) <= 1)%nat).
      { rewrite effects_app, kills_app, alarms_app, Heff, Hk1, Ha1. simpl.
        auto. }
      destruct o; cbn [snd]; try exact Hgoal.
      all: rewrite Heff, Hk1, Ha1; simpl; repeat split; auto.
    + cbn [snd].
      rewrite effects_app, kills_app, alarms_app.
      assert (Hset : truthy 1 = true) by reflexivity.
      specialize (IHset Hset).
      assert (Hk2 : kills tr2 = []) by (rewrite <- kills_effects, IHset; reflexivity).
      assert (Ha2 : alarms tr2 = []) by (rewrite <- alarms_effects, IHset; reflexivity).
      rewrite Hk2, Ha2, !app_nil_r, Hk1, Ha1, Heff.
      rewrite kills_app, alarms_app, alarms_broadcast. simpl.
      rewrite app_nil_r.
      repeat split; [congruence | apply broadcast_once | lia].
Qed.

End TinyreaperFacts.

(** * The revision with [-w] and [-t] *)

Section ReaperWTFacts.

Variable e : env.
Variable o : ReaperWT.options.
Variable command_pid : Z.
Variable argv0 : string.

Local Abbreviation reap_iteration := (ReaperWT.reap_iteration e o command_pid argv0).
Local Abbreviation reap_loop := (ReaperWT.reap_loop e o command_pid argv0).
Local Abbreviation parent := (ReaperWT.parent e o command_pid argv0).
Local Abbreviation next_ctl := (ReaperWT.next_ctl o command_pid).
Local Abbreviation status_at_break := (ReaperWT.status_at_break o command_pid).

Lemma quiet_WT_VERBOSE (msg : string) : quiet (ReaperWT.VERBOSE o msg).
Proof. unfold ReaperWT.VERBOSE, ReaperWT.LOG. quiet_tac. Qed.

Lemma quiet_WT_VERBOSEf (text : string) : quiet (ReaperWT.VERBOSEf o text).
Proof. unfold ReaperWT.VERBOSEf, ReaperWT.LOGf. quiet_tac. Qed.

(** One iteration never touches the flag and never arms the alarm; it
    signals the group only when it has reaped the command and [-t] is
    set. *)
Lemma exec_WT_reap_iteration (w : wait_result) (cs flag : Z) :
  exists tr,
    exec (reap_iteration w cs) flag = (ORet (next_ctl w cs), flag, tr)
    /\ effects tr =
       if (0 <? w_child w) && (w_child w =? command_pid)
          && truthy (ReaperWT.terminate_all_children_after_command_terminated o)
       then broadcast e SIGTERM else [].
Proof.
  unfold ReaperWT.reap_iteration, ReaperWT.next_ctl.
  destruct (0 <? w_child w); cbn [andb].
  - rewrite exec_bind, (exec_quiet_unit _ flag (quiet_LOG_process_state _ _)).
    destruct (w_child w =? command_pid); cbn [andb].
    + rewrite exec_bind, (exec_quiet_unit _ flag (quiet_WT_VERBOSEf _)).
      rewrite exec_bind.
      destruct (truthy (ReaperWT.terminate_all_children_after_command_terminated o)).
      * rewrite exec_send_signal_to_all_children.
        destruct (negb (truthy (ReaperWT.wait_for_all_children o)));
          cbn [exec]; eexists; (split; [reflexivity |]);
          rewrite !effects_app, !app_nil_r, effects_broadcast;
          rewrite (effects_output_of _ (quiet_LOG_process_state _ _));
          rewrite (effects_output_of _ (quiet_WT_VERBOSEf _)); reflexivity.
      * cbn [exec skip].
        destruct (negb (truthy (ReaperWT.wait_for_all_children o)));
          cbn [exec]; eexists; (split; [reflexivity |]);
          rewrite !effects_app, !app_nil_r;
          rewrite (effects_output_of _ (quiet_LOG_process_state _ _));
          rewrite (effects_output_of _ (quiet_WT_VERBOSEf _)); reflexivity.
    + cbn [exec]. eexists. split; [reflexivity |].
      rewrite app_nil_r. apply effects_output_of, quiet_LOG_process_state.
  - destruct ((w_child w =? -1) && (w_errno w =? ECHILD)).
    + rewrite exec_bind, (exec_quiet_unit _ flag (quiet_WT_VERBOSE _)).
      cbn [exec]. eexists. split; [reflexivity |].
      rewrite app_nil_r. apply effects_output_of, quiet_WT_VERBOSE.
    + cbn [exec]. now exists [].
Qed.

Lemma ends_WT_reap_iteration (w : wait_result) (cs : Z) :
  ends (fun c => c = next_ctl w cs) (fun _ => False) False (reap_iteration w cs).
Proof.
  unfold ReaperWT.reap_iteration, ReaperWT.next_ctl.
  destruct (0 <? w_child w).
  - apply ends_quiet_then; [apply quiet_LOG_process_state | intros _].
    destruct (w_child w =? command_pid); [| reflexivity].
    apply ends_quiet_then; [apply quiet_WT_VERBOSEf | intros _].
    apply ends_bind with (R' := fun _ => True).
    + destruct (truthy (ReaperWT.terminate_all_children_after_command_terminated o));
        [| exact I].
      unfold send_signal_to_all_children.
      destruct (getpgrp e =? getpid e); simpl; auto.
    + intros _ _.
      destruct (negb (truthy (ReaperWT.wait_for_all_children o))); reflexivity.
  - destruct ((w_child w =? -1) && (w_errno w =? ECHILD)); [| reflexivity].
    apply ends_quiet_then; [apply quiet_WT_VERBOSE | intros _].
    reflexivity.
Qed.

Lemma ends_WT_reap_loop (ws : list wait_result) :
  forall cs,
    ends (fun r => r = status_at_break ws cs) (fun _ => False) False (reap_loop ws cs).
Proof.
  induction ws as [| w ws IH]; intros cs; simpl.
  - reflexivity.
  - apply ends_bind with (R' := fun c => c = next_ctl w cs).
    + apply ends_WT_reap_iteration.
    + intros c ->. destruct (next_ctl w cs) as [cs' | cs'].
      * apply IH.
      * reflexivity.
Qed.

(** The parent is still waiting, or it left the loop and exits with the
    code computed from [command_status]. *)
Lemma exec_WT_parent (ws : list wait_result) (flag : Z) :
  ended (fun _ => status_at_break ws 0 = None)
        (fun c => exists cs, status_at_break ws 0 = Some cs
                             /\ c = rc_of_command_status cs)
        False
        (exec (parent ws) flag).
Proof.
  apply exec_ends.
  unfold ReaperWT.parent.
  apply ends_bind with (R' := fun r => r = status_at_break ws 0).
  - ends_from (ends_WT_reap_loop ws 0).
  - intros r ->. destruct (status_at_break ws 0) as [cs |].
    + unfold ReaperWT.finish.
      apply ends_quiet_then; [apply quiet_WT_VERBOSEf | intros _].
      simpl. now exists cs.
    + reflexivity.
Qed.

(** *** The handler of this revision, and every run of the parent *)

Lemma ends_WT_handle_shutdown_signal (sig : Z) :
  ends (fun _ => True) (fun _ => False) False (ReaperWT.handle_shutdown_signal e o sig).
Proof.
  unfold ReaperWT.handle_shutdown_signal, load, store.
  cbn [bind ends]. intros x.
  destruct (negb (truthy x)).
  - cbn [bind ends]. intros _.
    apply ends_quiet_then; [unfold ReaperWT.LOG; quiet_tac | intros _].
    apply ends_bind with (R' := fun _ => True).
    + unfold send_signal_to_all_children.
      destruct (getpgrp e =? getpid e); simpl; auto.
    + intros _ _.
      apply ends_quiet_then; [apply quiet_WT_VERBOSE | intros _].
      simpl. auto.
  - apply quiet_ends, quiet_WT_VERBOSE.
Qed.

Lemma ends_WT_handle_alarm :
  ends (fun _ => True) (fun c => c = -1) False ReaperWT.handle_alarm.
Proof.
  unfold ReaperWT.handle_alarm, load.
  cbn [bind ends]. intros x.
  destruct (truthy x); [| exact I].
  apply ends_quiet_then; [unfold ReaperWT.LOG; quiet_tac | intros _].
  reflexivity.
Qed.

(** The handler returns, or exits with [-1]. *)
Lemma ends_WT_signal_handler (sig si_pid : Z) :
  ends (fun _ => True) (fun c => c = -1) False (ReaperWT.signal_handler e o sig si_pid).
Proof.
  unfold ReaperWT.signal_handler.
  destruct ((sig =? SIGTERM) && (si_pid =? getpid e)).
  - ends_from (quiet_ends _ (quiet_WT_VERBOSE "Ignoring SIGTERM sent by myself.")).
  - apply ends_quiet_then; [apply quiet_WRITE_LITERAL_STRING | intros _].
    apply ends_quiet_then; [apply quiet_write_num | intros _].
    apply ends_quiet_then; [apply quiet_WRITE_LITERAL_STRING | intros _].
    destruct ((sig =? SIGTERM) || (sig =? SIGINT)).
    + ends_from (ends_WT_handle_shutdown_signal sig).
    + destruct (sig =? SIGALRM); [apply ends_WT_handle_alarm | exact I].
Qed.

(** Only the handler of [SIGALRM] can exit. *)
Lemma ends_WT_signal_handler_not_SIGALRM (sig si_pid : Z) :
  sig <> SIGALRM ->
  ends (fun _ => True) (fun _ => False) False (ReaperWT.signal_handler e o sig si_pid).
Proof.
  intros Hsig.
  unfold ReaperWT.signal_handler.
  destruct ((sig =? SIGTERM) && (si_pid =? getpid e)).
  - apply quiet_ends, quiet_WT_VERBOSE.
  - apply ends_quiet_then; [apply quiet_WRITE_LITERAL_STRING | intros _].
    apply ends_quiet_then; [apply quiet_write_num | intros _].
    apply ends_quiet_then; [apply quiet_WRITE_LITERAL_STRING | intros _].
    destruct ((sig =? SIGTERM) || (sig =? SIGINT)).
    + apply ends_WT_handle_shutdown_signal.
    + destruct (Z.eqb_spec sig SIGALRM); [contradiction | exact I].
Qed.

Lemma ends_WT_parent (ws : list wait_result) :
  ends (fun _ => status_at_break ws 0 = None)
       (fun c => exists cs, status_at_break ws 0 = Some cs
                            /\ c = rc_of_command_status cs)
       False
       (parent ws).
Proof.
  unfold ReaperWT.parent.
  apply ends_bind with (R' := fun r => r = status_at_break ws 0).
  - ends_from (ends_WT_reap_loop ws 0).
  - intros r ->. destruct (status_at_break ws 0) as [cs |].
    + unfold ReaperWT.finish.
      apply ends_quiet_then; [apply quiet_WT_VERBOSEf | intros _].
      simpl. now exists cs.
    + reflexivity.
Qed.

(** Every run of the parent, whatever signals arrive and wherever they
    preempt it: it is still waiting, it was ended by the alarm handler with
    [-1], or it left the loop and exits with the computed code. *)
Lemma prun_WT_parent (sch : list slot) (ws : list wait_result) (flag : Z) :
  ended (fun _ => status_at_break ws 0 = None)
        (fun c => c = -1 \/ exists cs, status_at_break ws 0 = Some cs
                                       /\ c = rc_of_command_status cs)
        False
        (prun (ReaperWT.signal_handler e o) sch (parent ws) flag).
Proof.
  apply prun_ends.
  - intros sig si_pid _.
    apply (ends_weaken _ _ _ _ _ _ _ (ends_WT_signal_handler sig si_pid));
      [auto | intros c Hc; now left | auto].
  - apply (ends_weaken _ _ _ _ _ _ _ (ends_WT_parent ws));
      [auto | intros c Hc; now right | auto].
Qed.

(** The same when no [SIGALRM] arrives: the handler never ends the run. *)
Lemma prun_WT_parent_no_alarm (sch : list slot) (ws : list wait_result) (flag : Z) :
  (forall si_pid, ~ In (Sig SIGALRM si_pid) sch) ->
  ended (fun _ => status_at_break ws 0 = None)
        (fun c => exists cs, status_at_break ws 0 = Some cs
                             /\ c = rc_of_command_status cs)
        False
        (prun (ReaperWT.signal_handler e o) sch (parent ws) flag).
Proof.
  intros Hno.
  apply prun_ends.
  - intros sig si_pid Hin.
    assert (Hsig : sig <> SIGALRM).
    { intros ->. exact (Hno si_pid Hin). }
    ends_from (ends_WT_signal_handler_not_SIGALRM sig si_pid Hsig).
  - apply ends_WT_parent.
Qed.

End ReaperWTFacts.

(** * src/little-reaper.c *)

(** The wait-status macros: a status is read as exited or as killed, never
    as both. *)
Lemma WIFEXITED_not_WIFSIGNALED (status : Z) :
  WIFEXITED status = true -> WIFSIGNALED status = false.
Proof.
  unfold WIFEXITED, WIFSIGNALED, WTERMSIG.
  intros H. apply Z.eqb_eq in H. rewrite H. reflexivity.
Qed.

Lemma rc_of_exited (status : Z) :
  WIFEXITED status = true ->
  rc_of_command_status status = if WEXITSTATUS status =? 0 then 0 else -1.
Proof.
  intros H. unfold rc_of_command_status.
  rewrite H, (WIFEXITED_not_WIFSIGNALED _ H).
  now destruct (WEXITSTATUS status =? 0).
Qed.

Lemma rc_of_signaled (status : Z) :
  WIFSIGNALED status = true -> rc_of_command_status status = -1.
Proof.
  intros H. unfold rc_of_command_status. rewrite H.
  now rewrite orb_true_r.
Qed.

Section LittleReaperFacts.

Variable e : env.
Variable o : LittleReaper.options.
Variable command : Z.

Local Abbreviation observe := (LittleReaper.observe e o command).
Local Abbreviation decide := (LittleReaper.decide o).
Local Abbreviation iteration := (LittleReaper.iteration e o command).
Local Abbreviation main_loop := (LittleReaper.main_loop e o command).
Local Abbreviation parent := (LittleReaper.parent e o command).
Local Abbreviation observe_locals := (LittleReaper.observe_locals command).
Local Abbreviation is_command_end := (LittleReaper.is_command_end command).
Local Abbreviation rcfps := LittleReaper.return_code_from_process_status.
Local Abbreviation command_ends_satisfy := (LittleReaper.command_ends_satisfy command).
Local Abbreviation recorded_satisfies := LittleReaper.recorded_satisfies.

Lemma quiet_LR_VERBOSE (msg : string) : quiet (LittleReaper.VERBOSE o msg).
Proof. unfold LittleReaper.VERBOSE, LittleReaper.LOG. quiet_tac. Qed.

Lemma quiet_LR_VERBOSEf (text : string) : quiet (LittleReaper.VERBOSEf o text).
Proof. unfold LittleReaper.VERBOSEf, LittleReaper.LOGf. quiet_tac. Qed.

Lemma quiet_observe_logs (c : bool) (text : string) :
  quiet (if c then LittleReaper.VERBOSEf o text else skip).
Proof. destruct c; [apply quiet_LR_VERBOSEf | exact I]. Qed.

(** [observe] only logs; what it leaves in the locals is [observe_locals]. *)
Lemma exec_observe (w : wait_result) (l : LittleReaper.locals) (flag : Z) :
  exists tr,
    exec (observe w l) flag = (ORet (observe_locals w l), flag, tr)
    /\ effects tr = [].
Proof.
  unfold LittleReaper.observe, LittleReaper.observe_locals,
    LittleReaper.is_command_end, LittleReaper.is_no_child.
  destruct (0 <? w_child w); cbn [andb negb].
  - destruct (WIFEXITED (w_status w) || WIFSIGNALED (w_status w)); cbn [andb].
    + rewrite exec_bind, (exec_quiet_unit _ flag (quiet_observe_logs _ _)).
      rewrite exec_bind, (exec_quiet_unit _ flag (quiet_observe_logs _ _)).
      destruct (w_child w =? command).
      * rewrite exec_bind, (exec_quiet_unit _ flag (quiet_LR_VERBOSE _)).
        cbn [exec]. eexists. split; [reflexivity |].
        rewrite !effects_app, !app_nil_r.
        rewrite !(effects_output_of _ (quiet_observe_logs _ _)).
        now rewrite (effects_output_of _ (quiet_LR_VERBOSE _)).
      * cbn [exec]. eexists. split; [reflexivity |].
        rewrite !effects_app, !app_nil_r.
        now rewrite !(effects_output_of _ (quiet_observe_logs _ _)).
    + cbn [exec]. now exists [].
  - destruct (w_errno w =? ECHILD).
    + rewrite exec_bind, (exec_quiet_unit _ flag (quiet_LR_VERBOSE _)).
      cbn [exec]. eexists. split; [reflexivity |].
      rewrite app_nil_r. apply effects_output_of, quiet_LR_VERBOSE.
    + rewrite exec_bind, (exec_quiet_unit _ flag (quiet_LR_VERBOSEf _)).
      cbn [exec]. eexists. split; [reflexivity |].
      rewrite app_nil_r. apply effects_output_of, quiet_LR_VERBOSEf.
Qed.


Lemma ends_observe (w : wait_result) (l : LittleReaper.locals) :
  ends (fun l' => l' = observe_locals w l) (fun _ => False) False (observe w l).
Proof.
  unfold LittleReaper.observe, LittleReaper.observe_locals,
    LittleReaper.is_command_end, LittleReaper.is_no_child.
  destruct (0 <? w_child w); cbn [andb negb].
  - destruct (WIFEXITED (w_status w) || WIFSIGNALED (w_status w)); cbn [andb];
      [| reflexivity].
    apply ends_quiet_then; [apply quiet_observe_logs | intros _].
    apply ends_quiet_then; [apply quiet_observe_logs | intros _].
    destruct (w_child w =? command); [| reflexivity].
    apply ends_quiet_then; [apply quiet_LR_VERBOSE | intros _].
    reflexivity.
  - destruct (w_errno w =? ECHILD).
    + apply ends_quiet_then; [apply quiet_LR_VERBOSE | intros _]. reflexivity.
    + apply ends_quiet_then; [apply quiet_LR_VERBOSEf | intros _]. reflexivity.
Qed.

(** [decide] goes round again with the locals it was given, or exits with
    the code of the recorded status of a command seen to terminate; it may
    also abort or sleep for ever. *)
Lemma ends_decide (l : LittleReaper.locals) :
  ends (fun l' => l' = l)
       (fun c => truthy (LittleReaper.command_terminated l) = true
                 /\ c = rcfps (LittleReaper.command_status l))
       True
       (decide l).
Proof.
  unfold LittleReaper.decide.
  destruct (truthy (LittleReaper.wait_forever o)).
  - destruct (truthy (LittleReaper.no_child_left l)); [| reflexivity].
    unfold LittleReaper.infinite_sleep.
    apply ends_quiet_then; [apply quiet_LR_VERBOSE | intros _]. exact I.
  - destruct (truthy (LittleReaper.wait_for_all_sub_processes o)).
    + destruct (truthy (LittleReaper.no_child_left l)); [| reflexivity].
      destruct (truthy (LittleReaper.command_terminated l)) eqn:Hterm.
      * simpl. auto.
      * exact I.
    + destruct (truthy (LittleReaper.command_terminated l)) eqn:Hterm.
      * simpl. auto.
      * reflexivity.
Qed.

Lemma observe_locals_recorded (P : Z -> Prop) (w : wait_result) (l : LittleReaper.locals) :
  (is_command_end w = true -> P (w_status w)) ->
  recorded_satisfies P l ->
  recorded_satisfies P (observe_locals w l).
Proof.
  unfold LittleReaper.recorded_satisfies, LittleReaper.observe_locals.
  intros Hw Hl.
  destruct (is_command_end w).
  - intros _. simpl. auto.
  - destruct (LittleReaper.is_no_child w); simpl; auto.
Qed.

Lemma ends_main_loop (P : Z -> Prop) (ws : list wait_result) :
  forall l,
    command_ends_satisfy P ws ->
    recorded_satisfies P l ->
    ends (fun _ => True) (fun c => exists st, P st /\ c = rcfps st) True (main_loop ws l).
Proof.
  induction ws as [| w ws IH]; intros l Hws Hl; cbn [LittleReaper.main_loop].
  - exact I.
  - unfold LittleReaper.iteration.
    apply ends_bind with (R' := fun l' => recorded_satisfies P l').
    + apply ends_bind with (R' := fun l' => l' = observe_locals w l).
      * ends_from (ends_observe w l).
      * intros l' ->.
        assert (Hrec : recorded_satisfies P (observe_locals w l)).
        { apply observe_locals_recorded; [| exact Hl].
          apply Hws. now left. }
        apply (ends_weaken _ _ _ _ _ _ _ (ends_decide (observe_locals w l))).
        -- now intros l' ->.
        -- intros c (Hterm & ->). eexists. split; [apply Hrec, Hterm | reflexivity].
        -- auto.
    + intros l' Hl'. apply IH; [| exact Hl'].
      intros w' Hin. apply Hws. now right.
Qed.

(** Every exit of the parent that has entered the loop carries the code of
    a status [wait] returned for the command. *)
Lemma exec_LR_parent (P : Z -> Prop) (ws : list wait_result) (flag : Z) :
  truthy (LittleReaper.dont_reap o) = false ->
  command_ends_satisfy P ws ->
  ended (fun _ => True) (fun c => exists st, P st /\ c = rcfps st) True
        (exec (parent ws) flag).
Proof.
  intros Hreap Hws.
  apply exec_ends.
  unfold LittleReaper.parent. rewrite Hreap.
  apply ends_main_loop; [exact Hws |].
  intros Hterm. discriminate Hterm.
Qed.

(** Without [-w], [-W] and [-r], the first time [wait] returns the command's
    pid with a terminal status the parent exits with the code of that
    status. *)
Lemma exec_LR_main_loop_default
      (pre post : list wait_result) (w : wait_result) :
  truthy (LittleReaper.wait_forever o) = false ->
  truthy (LittleReaper.wait_for_all_sub_processes o) = false ->
  (forall w', In w' pre -> is_command_end w' = false) ->
  is_command_end w = true ->
  forall l flag,
    truthy (LittleReaper.command_terminated l) = false ->
    fst (fst (exec (main_loop (pre ++ w :: post) l) flag))
    = OExit (rcfps (w_status w)).
Proof.
  intros HW Hw Hpre Hend.
  induction pre as [| w' pre IH]; intros l flag Hl;
    cbn [app LittleReaper.main_loop]; unfold LittleReaper.iteration;
    rewrite !exec_bind.
  - destruct (exec_observe w l flag) as (tr & -> & _).
    unfold LittleReaper.observe_locals. rewrite Hend.
    unfold LittleReaper.decide. rewrite HW, Hw.
    reflexivity.
  - destruct (exec_observe w' l flag) as (tr & -> & _).
    assert (Hl' : truthy (LittleReaper.command_terminated (observe_locals w' l)) = false).
    { unfold LittleReaper.observe_locals.
      rewrite (Hpre w' (or_introl eq_refl)).
      now destruct (LittleReaper.is_no_child w'). }
    unfold LittleReaper.decide at 1. rewrite HW, Hw, Hl'.
    cbn [exec].
    specialize (IH (fun w'' Hin => Hpre w'' (or_intror Hin))
                   (observe_locals w' l) flag Hl').
    destruct (exec (main_loop (pre ++ w :: post) (observe_locals w' l)) flag)
      as [[o2 f2] tr2].
    exact IH.
Qed.

End LittleReaperFacts.

(** * tinyreaper: what the loop records *)

Section TinyreaperRecords.

Variable command_pid : Z.

Local Abbreviation next_ctl := (Tinyreaper.next_ctl command_pid).
Local Abbreviation status_at_break := (Tinyreaper.status_at_break command_pid).
Local Abbreviation recorded_status := (Tinyreaper.recorded_status command_pid).
Local Abbreviation never_observed := (Tinyreaper.never_observed command_pid).

Lemma status_at_break_recorded (ws : list wait_result) :
  forall cs cs',
    status_at_break ws cs = Some cs' -> recorded_status ws cs = cs'.
Proof.
  induction ws as [| w ws IH]; intros cs cs'; simpl.
  - discriminate.
  - destruct (next_ctl w cs) as [cs1 | cs1].
    + apply IH.
    + now intros [= ->].
Qed.

(** A command never observed leaves [command_status] as it was. *)
Lemma never_observed_recorded (ws : list wait_result) :
  forall cs, never_observed ws -> recorded_status ws cs = cs.
Proof.
  induction ws as [| w ws IH]; intros cs Hnever; simpl.
  - reflexivity.
  - assert (Hw : next_ctl w cs = Continue cs \/ next_ctl w cs = Break cs).
    { unfold Tinyreaper.next_ctl.
      destruct (Z.ltb_spec 0 (w_child w)) as [Hpos | Hneg].
      - destruct (Z.eqb_spec (w_child w) command_pid) as [Heq | Hne].
        + exfalso. apply (Hnever w (or_introl eq_refl) Hpos Heq).
        + now left.
      - destruct ((w_child w =? -1) && (w_errno w =? ECHILD)); auto. }
    destruct Hw as [-> | ->]; [| reflexivity].
    apply IH. intros w' Hin. apply Hnever. now right.
Qed.

(** The recorded status is the status of the last reap of the command's pid
    before the loop is left. *)
Lemma recorded_status_last_reap (pre post : list wait_result) (w : wait_result) :
  (forall w', In w' pre -> ~ (w_child w' = -1 /\ w_errno w' = ECHILD)) ->
  0 < w_child w ->
  w_child w = command_pid ->
  never_observed post ->
  forall cs, recorded_status (pre ++ w :: post) cs = w_status w.
Proof.
  intros Hpre Hpos Hcmd Hpost.
  induction pre as [| w' pre IH]; intros cs; cbn [app Tinyreaper.recorded_status].
  - assert (Hw : next_ctl w cs = Continue (w_status w)).
    { unfold Tinyreaper.next_ctl.
      destruct (Z.ltb_spec 0 (w_child w)); [| lia].
      destruct (Z.eqb_spec (w_child w) command_pid); [reflexivity | contradiction]. }
    rewrite Hw. now apply never_observed_recorded.
  - destruct (next_ctl w' cs) as [cs1 | cs1] eqn:Hctl.
    + apply IH. intros w'' Hin. apply Hpre. now right.
    + exfalso. apply (Hpre w' (or_introl eq_refl)).
      apply Tinyreaper_next_ctl_is_Break in Hctl. tauto.
Qed.

End TinyreaperRecords.

(** * Exit codes and exit statuses *)

(** An exit status read by [WEXITSTATUS] passes through [exit] unchanged. *)
Lemma exit_status_WEXITSTATUS (status : Z) :
  exit_status (WEXITSTATUS status) = WEXITSTATUS status.
Proof.
  unfold exit_status, WEXITSTATUS.
  apply Z.bits_inj'. intros n Hn.
  rewrite Z.land_spec, Z.shiftr_spec by lia.
  rewrite Z.land_spec.
  change 65280 with (Z.shiftl 255 8).
  rewrite Z.shiftl_spec by lia.
  replace (n + 8 - 8) with n by lia.
  destruct (Z.testbit status (n + 8)), (Z.testbit 255 n); reflexivity.
Qed.

Lemma rcfps_exited (status : Z) :
  WIFEXITED status = true ->
  LittleReaper.return_code_from_process_status status = WEXITSTATUS status.
Proof.
  intros H. unfold LittleReaper.return_code_from_process_status.
  now rewrite (WIFEXITED_not_WIFSIGNALED _ H), H.
Qed.

Lemma rcfps_signaled (status : Z) :
  WIFSIGNALED status = true ->
  LittleReaper.return_code_from_process_status status = -1.
Proof.
  intros H. unfold LittleReaper.return_code_from_process_status.
  now rewrite H.
Qed.

(** * Runs, by what [wait] returns *)

(** A logging program, then [q]. *)
Lemma exec_quiet_then {A : Type} (p : prog unit) (q : prog A) (flag : Z) :
  quiet p ->
  exec (p ;; q) flag =
  let '(o, f, tr) := exec q flag in (o, f, output_of p ++ tr).
Proof.
  intros Hp. now rewrite exec_bind, (exec_quiet_unit p flag Hp).
Qed.

(** ** tinyreaper: where the loop is left *)

Section TinyreaperBreak.

Variable e : env.
Variable verbose : Z.
Variable command_pid : Z.
Variable argv0 : string.

(** Whether the returns of [wait] lead the loop to its [break]. *)
Lemma status_at_break_leaves (ws : list wait_result) :
  forall cs,
    Tinyreaper.status_at_break command_pid ws cs <> None
    <-> existsb leaves_loop ws = true.
Proof.
  induction ws as [| w ws IH]; intros cs; simpl.
  - split; [intros H; now contradiction H | discriminate].
  - unfold Tinyreaper.next_ctl, leaves_loop.
    destruct (0 <? w_child w); simpl.
    + destruct (w_child w =? command_pid); apply IH.
    + destruct ((w_child w =? -1) && (w_errno w =? ECHILD)); simpl.
      * split; [reflexivity | discriminate].
      * apply IH.
Qed.

(** The status at the [break]: that of the last reap of the command's pid. *)
Lemma status_at_break_last_reap (pre post more : list wait_result)
      (w z : wait_result) :
  existsb leaves_loop pre = false ->
  0 < w_child w ->
  w_child w = command_pid ->
  Tinyreaper.never_observed command_pid post ->
  existsb leaves_loop post = false ->
  leaves_loop z = true ->
  forall cs,
    Tinyreaper.status_at_break command_pid (pre ++ w :: post ++ z :: more) cs
    = Some (w_status w).
Proof.
  intros Hpre Hpos Hcmd Hpost Hpost' Hz.
  assert (Hz' : forall cs, Tinyreaper.next_ctl command_pid z cs = Break cs).
  { intros cs. unfold leaves_loop in Hz. unfold Tinyreaper.next_ctl.
    destruct (0 <? w_child z); [discriminate Hz |]. simpl in Hz. now rewrite Hz. }
  assert (Hgo : forall l cs,
             Tinyreaper.never_observed command_pid l ->
             existsb leaves_loop l = false ->
             Tinyreaper.status_at_break command_pid (l ++ z :: more) cs = Some cs).
  { induction l as [| w' l IH]; intros cs Hnever Hl; simpl.
    - now rewrite Hz'.
    - simpl in Hl. apply orb_false_iff in Hl. destruct Hl as [Hw' Hl].
      unfold Tinyreaper.next_ctl. unfold leaves_loop in Hw'.
      destruct (0 <? w_child w') eqn:Hp'.
      + assert (Hne : w_child w' <> command_pid).
        { apply Hnever; [now left | now apply Z.ltb_lt]. }
        apply Z.eqb_neq in Hne. rewrite Hne.
        apply IH; [| exact Hl]. intros x Hx. apply Hnever. now right.
      + simpl in Hw'. rewrite Hw'.
        apply IH; [| exact Hl]. intros x Hx. apply Hnever. now right. }
  induction pre as [| w' pre IH]; intros cs; simpl.
  - unfold Tinyreaper.next_ctl.
    apply Z.ltb_lt in Hpos. apply Z.eqb_eq in Hcmd. rewrite Hpos, Hcmd.
    now apply Hgo.
  - simpl in Hpre. apply orb_false_iff in Hpre. destruct Hpre as [Hw' Hpre].
    unfold Tinyreaper.next_ctl. unfold leaves_loop in Hw'.
    destruct (0 <? w_child w').
    + destruct (w_child w' =? command_pid); now apply IH.
    + simpl in Hw'. rewrite Hw'. now apply IH.
Qed.

(** Every run in which [w] is the last return of the command's pid before
    [wait] fails with [ECHILD]: the process exits, through the alarm
    handler with [-1] or past the loop with the code computed from the
    status of [w]; without a [SIGALRM], with the latter. *)
Lemma prun_parent_last_reap (pre post more : list wait_result) (w z : wait_result)
      (sch : list slot) (flag : Z) :
  existsb leaves_loop pre = false ->
  0 < w_child w ->
  w_child w = command_pid ->
  Tinyreaper.never_observed command_pid post ->
  existsb leaves_loop post = false ->
  leaves_loop z = true ->
  ended (fun _ => False)
        (fun c => c = -1 \/ c = rc_of_command_status (w_status w))
        False
        (prun (Tinyreaper.signal_handler e verbose) sch
              (Tinyreaper.parent e verbose command_pid argv0
                 (pre ++ w :: post ++ z :: more)) flag)
  /\ ((forall si_pid, ~ In (Sig SIGALRM si_pid) sch) ->
      fst (fst (prun (Tinyreaper.signal_handler e verbose) sch
                     (Tinyreaper.parent e verbose command_pid argv0
                        (pre ++ w :: post ++ z :: more)) flag))
      = OExit (rc_of_command_status (w_status w))).
Proof.
  intros Hpre Hpos Hcmd Hpost Hpost' Hz.
  pose proof (status_at_break_last_reap pre post more w z
                Hpre Hpos Hcmd Hpost Hpost' Hz 0) as Hbreak.
  split.
  - pose proof (prun_parent e verbose command_pid argv0 sch
                  (pre ++ w :: post ++ z :: more) flag) as Hend.
    unfold ended in *.
    destruct (fst (fst (prun (Tinyreaper.signal_handler e verbose) sch
                             (Tinyreaper.parent e verbose command_pid argv0
                                (pre ++ w :: post ++ z :: more)) flag)))
      as [[] | c | | ]; try contradiction.
    + congruence.
    + destruct Hend as [-> | (cs & Hcs & ->)]; [now left | right; congruence].
  - intros Hno.
    pose proof (prun_parent_no_alarm e verbose command_pid argv0 sch
                  (pre ++ w :: post ++ z :: more) flag Hno) as Hend.
    unfold ended in Hend.
    destruct (fst (fst (prun (Tinyreaper.signal_handler e verbose) sch
                             (Tinyreaper.parent e verbose command_pid argv0
                                (pre ++ w :: post ++ z :: more)) flag)))
      as [[] | c | | ]; try contradiction.
    + congruence.
    + destruct Hend as (cs & Hcs & ->). congruence.
Qed.

(** When the code computed from the status of [w] is [-1], the alarm
    handler and the end of [main] agree: every run exits with [-1]. *)
Lemma prun_parent_last_reap_failure (pre post more : list wait_result)
      (w z : wait_result) (sch : list slot) (flag : Z) :
  existsb leaves_loop pre = false ->
  0 < w_child w ->
  w_child w = command_pid ->
  Tinyreaper.never_observed command_pid post ->
  existsb leaves_loop post = false ->
  leaves_loop z = true ->
  rc_of_command_status (w_status w) = -1 ->
  fst (fst (prun (Tinyreaper.signal_handler e verbose) sch
                 (Tinyreaper.parent e verbose command_pid argv0
                    (pre ++ w :: post ++ z :: more)) flag))
  = OExit (-1).
Proof.
  intros Hpre Hpos Hcmd Hpost Hpost' Hz Hrc.
  destruct (prun_parent_last_reap pre post more w z sch flag
              Hpre Hpos Hcmd Hpost Hpost' Hz) as [Hend _].
  unfold ended in Hend.
  destruct (fst (fst (prun (Tinyreaper.signal_handler e verbose) sch
                           (Tinyreaper.parent e verbose command_pid argv0
                              (pre ++ w :: post ++ z :: more)) flag)))
    as [[] | c | | ]; try contradiction.
  destruct Hend as [-> | ->]; [reflexivity | now rewrite Hrc].
Qed.

End TinyreaperBreak.

(** ** little-reaper.c: the loop, one return of [wait] after the other *)

Section LittleReaperModes.

Variable e : env.
Variable o : LittleReaper.options.
Variable command : Z.

Local Abbreviation observe_locals := (LittleReaper.observe_locals command).
Local Abbreviation is_command_end := (LittleReaper.is_command_end command).
Local Abbreviation main_loop := (LittleReaper.main_loop e o command).
Local Abbreviation rcfps := LittleReaper.return_code_from_process_status.

Lemma exec_LR_iteration (w : wait_result) (l : LittleReaper.locals) (flag : Z) :
  exists tr0,
    effects tr0 = []
    /\ exec (LittleReaper.iteration e o command w l) flag =
       let '(r, f, tr) := exec (LittleReaper.decide o (observe_locals w l)) flag in
       (r, f, tr0 ++ tr).
Proof.
  destruct (exec_observe e o command w l flag) as (tr0 & Hobs & Heff0).
  exists tr0. split; [exact Heff0 |].
  unfold LittleReaper.iteration. now rewrite exec_bind, Hobs.
Qed.

Lemma command_end_is_no_failure (w : wait_result) :
  is_command_end w = true -> LittleReaper.is_no_child w = false.
Proof.
  unfold LittleReaper.is_command_end, LittleReaper.is_no_child.
  now destruct (0 <? w_child w).
Qed.

Lemma no_child_left_observed (w : wait_result) (l : LittleReaper.locals) :
  LittleReaper.no_child_left (observe_locals w l)
  = if LittleReaper.is_no_child w then 1 else LittleReaper.no_child_left l.
Proof.
  unfold LittleReaper.observe_locals.
  destruct (is_command_end w) eqn:Hend.
  - now rewrite (command_end_is_no_failure w Hend).
  - now destruct (LittleReaper.is_no_child w).
Qed.

Lemma command_terminated_observed (w : wait_result) (l : LittleReaper.locals) :
  LittleReaper.command_terminated (observe_locals w l)
  = if is_command_end w then 1 else LittleReaper.command_terminated l.
Proof.
  unfold LittleReaper.observe_locals.
  destruct (is_command_end w); [reflexivity |].
  now destruct (LittleReaper.is_no_child w).
Qed.

Lemma command_terminated_after (ws : list wait_result) :
  forall l,
    LittleReaper.command_terminated (locals_after command ws l)
    = if existsb is_command_end ws then 1 else LittleReaper.command_terminated l.
Proof.
  unfold locals_after.
  induction ws as [| w ws IH]; intros l; cbn [fold_left existsb]; [reflexivity |].
  rewrite IH, command_terminated_observed.
  now destruct (is_command_end w), (existsb is_command_end ws).
Qed.

Lemma no_child_left_after (ws : list wait_result) :
  forall l,
    LittleReaper.no_child_left (locals_after command ws l)
    = if existsb LittleReaper.is_no_child ws then 1 else LittleReaper.no_child_left l.
Proof.
  unfold locals_after.
  induction ws as [| w ws IH]; intros l; cbn [fold_left existsb]; [reflexivity |].
  rewrite IH, no_child_left_observed.
  now destruct (LittleReaper.is_no_child w), (existsb LittleReaper.is_no_child ws).
Qed.

(** As long as [decide] goes round, the loop consumes the returns of
    [wait] and only logs. *)
Lemma exec_LR_main_loop_round (ws : list wait_result) :
  forall l flag,
    (forall pre w post,
        ws = pre ++ w :: post ->
        exec (LittleReaper.decide o (locals_after command (pre ++ [w]) l)) flag
        = (ORet (locals_after command (pre ++ [w]) l), flag, [])) ->
    fst (exec (main_loop ws l) flag) = (ORet (locals_after command ws l), flag).
Proof.
  induction ws as [| w ws IH]; intros l flag Hround; [reflexivity |].
  cbn [LittleReaper.main_loop]. rewrite exec_bind.
  destruct (exec_LR_iteration w l flag) as (tr0 & _ & Hiter).
  rewrite Hiter.
  pose proof (Hround [] w ws eq_refl) as Hfirst.
  unfold locals_after in Hfirst. cbn [app fold_left] in Hfirst.
  rewrite Hfirst. cbn [app].
  specialize (IH (observe_locals w l) flag).
  assert (Hrest : fst (exec (main_loop ws (observe_locals w l)) flag)
                  = (ORet (locals_after command ws (observe_locals w l)), flag)).
  { apply IH. intros pre w' post ->.
    apply (Hround (w :: pre) w' post). reflexivity. }
  destruct (exec (main_loop ws (observe_locals w l)) flag) as [[r f] tr].
  cbn [fst] in *. exact Hrest.
Qed.

(** The loop up to a return [w] of [wait] at which [decide] leaves. *)
Lemma exec_LR_main_loop_leaves (pre post : list wait_result) (w : wait_result)
      (out : outcome LittleReaper.locals) (tr : list event) :
  forall l flag,
    (forall pre' w' post',
        pre = pre' ++ w' :: post' ->
        exec (LittleReaper.decide o (locals_after command (pre' ++ [w']) l)) flag
        = (ORet (locals_after command (pre' ++ [w']) l), flag, [])) ->
    exec (LittleReaper.decide o (locals_after command (pre ++ [w]) l)) flag
    = (out, flag, tr) ->
    (forall l', out <> ORet l') ->
    fst (fst (exec (main_loop (pre ++ w :: post) l) flag)) = out.
Proof.
  induction pre as [| w0 pre IH]; intros l flag Hround Hleave Hout.
  - cbn [app LittleReaper.main_loop]. rewrite exec_bind.
    destruct (exec_LR_iteration w l flag) as (tr0 & _ & Hiter).
    rewrite Hiter. cbn [app locals_after fold_left] in Hleave.
    unfold locals_after in Hleave. cbn [fold_left] in Hleave. rewrite Hleave.
    destruct out as [l' | c | | ]; [now contradiction (Hout l') | | | ]; reflexivity.
  - cbn [app LittleReaper.main_loop]. rewrite exec_bind.
    destruct (exec_LR_iteration w0 l flag) as (tr0 & _ & Hiter).
    rewrite Hiter.
    pose proof (Hround [] w0 pre eq_refl) as Hfirst.
    unfold locals_after in Hfirst. cbn [app fold_left] in Hfirst.
    rewrite Hfirst. cbn [app].
    specialize (IH (observe_locals w0 l) flag).
    assert (Hrest : fst (fst (exec (main_loop (pre ++ w :: post) (observe_locals w0 l))
                                   flag)) = out).
    { apply IH.
      - intros pre' w' post' ->. apply (Hround (w0 :: pre') w' post'). reflexivity.
      - exact Hleave.
      - exact Hout. }
    destruct (exec (main_loop (pre ++ w :: post) (observe_locals w0 l)) flag)
      as [[r f] tr'].
    cbn [fst] in *. exact Hrest.
Qed.

Lemma existsb_prefix {A : Type} (f : A -> bool) (pre post : list A) (a : A) :
  existsb f (pre ++ a :: post) = false ->
  existsb f (pre ++ [a]) = false.
Proof.
  rewrite !existsb_app. cbn [existsb].
  destruct (existsb f pre), (f a); cbn; auto.
Qed.

Lemma existsb_first {A : Type} (f : A -> bool) (l : list A) :
  existsb f l = true ->
  exists pre a post, l = pre ++ a :: post /\ existsb f pre = false /\ f a = true.
Proof.
  induction l as [| x l IH]; cbn [existsb]; [discriminate |].
  destruct (f x) eqn:Hx.
  - intros _. now exists [], x, l.
  - intros Hl. destruct (IH Hl) as (pre & a & post & -> & Hpre & Ha).
    exists (x :: pre), a, post. cbn [existsb app]. rewrite Hx. auto.
Qed.

Lemma locals_after_app (ws1 ws2 : list wait_result) (l : LittleReaper.locals) :
  locals_after command (ws1 ++ ws2) l
  = locals_after command ws2 (locals_after command ws1 l).
Proof. unfold locals_after. apply fold_left_app. Qed.

Lemma command_status_after_none (ws : list wait_result) :
  forall l,
    existsb is_command_end ws = false ->
    LittleReaper.command_status (locals_after command ws l)
    = LittleReaper.command_status l.
Proof.
  unfold locals_after.
  induction ws as [| w ws IH]; intros l Hnone; cbn [fold_left]; [reflexivity |].
  cbn [existsb] in Hnone. apply orb_false_iff in Hnone. destruct Hnone as [Hw Hws].
  rewrite (IH _ Hws). unfold LittleReaper.observe_locals. rewrite Hw.
  now destruct (LittleReaper.is_no_child w).
Qed.

Lemma command_status_after_last_end (pre mid : list wait_result) (c : wait_result)
      (l : LittleReaper.locals) :
  is_command_end c = true ->
  existsb is_command_end mid = false ->
  LittleReaper.command_status (locals_after command (pre ++ c :: mid) l) = w_status c.
Proof.
  intros Hc Hmid.
  rewrite locals_after_app.
  change (locals_after command (c :: mid) (locals_after command pre l))
    with (locals_after command mid (observe_locals c (locals_after command pre l))).
  rewrite (command_status_after_none mid _ Hmid).
  unfold LittleReaper.observe_locals. now rewrite Hc.
Qed.

Lemma failure_is_no_command_end (w : wait_result) :
  LittleReaper.is_no_child w = true -> is_command_end w = false.
Proof.
  unfold LittleReaper.is_command_end, LittleReaper.is_no_child.
  now destruct (0 <? w_child w).
Qed.

(** [decide] when [wait_forever] is set. *)
Lemma exec_decide_wait_forever (l : LittleReaper.locals) (flag : Z) :
  truthy (LittleReaper.wait_forever o) = true ->
  exec (LittleReaper.decide o l) flag =
  if truthy (LittleReaper.no_child_left l)
  then (OSleep, flag, output_of (LittleReaper.VERBOSE o "sleeping forever..."))
  else (ORet l, flag, []).
Proof.
  intros HW. unfold LittleReaper.decide. rewrite HW.
  destruct (truthy (LittleReaper.no_child_left l)); [| reflexivity].
  unfold LittleReaper.infinite_sleep.
  rewrite (exec_quiet_then _ _ _ (quiet_LR_VERBOSE o _)). cbn [exec].
  now rewrite app_nil_r.
Qed.

(** [decide] when [wait_for_all_sub_processes] is set and [wait_forever] is
    not. *)
Lemma exec_decide_wait_for_all (l : LittleReaper.locals) (flag : Z) :
  truthy (LittleReaper.wait_forever o) = false ->
  truthy (LittleReaper.wait_for_all_sub_processes o) = true ->
  exec (LittleReaper.decide o l) flag =
  if truthy (LittleReaper.no_child_left l)
  then (if truthy (LittleReaper.command_terminated l)
        then OExit (rcfps (LittleReaper.command_status l))
        else OAbort, flag, [])
  else (ORet l, flag, []).
Proof.
  intros HW Hw. unfold LittleReaper.decide. rewrite HW, Hw.
  destruct (truthy (LittleReaper.no_child_left l)); [| reflexivity].
  now destruct (truthy (LittleReaper.command_terminated l)).
Qed.

(** [decide] when neither is set. *)
Lemma exec_decide_default (l : LittleReaper.locals) (flag : Z) :
  truthy (LittleReaper.wait_forever o) = false ->
  truthy (LittleReaper.wait_for_all_sub_processes o) = false ->
  exec (LittleReaper.decide o l) flag =
  if truthy (LittleReaper.command_terminated l)
  then (OExit (rcfps (LittleReaper.command_status l)), flag, [])
  else (ORet l, flag, []).
Proof.
  intros HW Hw. unfold LittleReaper.decide. rewrite HW, Hw.
  now destruct (truthy (LittleReaper.command_terminated l)).
Qed.

(** A return of [wait] with the command's pid and a terminal status. *)
Lemma is_command_end_of (w : wait_result) :
  0 < w_child w ->
  w_child w = command ->
  WIFEXITED (w_status w) = true \/ WIFSIGNALED (w_status w) = true ->
  is_command_end w = true.
Proof.
  intros Hpos Hcmd Hterm.
  unfold LittleReaper.is_command_end.
  apply Z.ltb_lt in Hpos. apply Z.eqb_eq in Hcmd. rewrite Hpos, Hcmd.
  destruct Hterm as [-> | ->]; [reflexivity | now rewrite orb_true_r].
Qed.

(** The parent without [-r], [-w] and [-W]: it exits the first time [wait]
    returns the command's pid with a terminal status, with the code of that
    status. *)
Lemma exec_LR_parent_default (pre post : list wait_result) (w : wait_result)
      (flag : Z) :
  truthy (LittleReaper.dont_reap o) = false ->
  truthy (LittleReaper.wait_forever o) = false ->
  truthy (LittleReaper.wait_for_all_sub_processes o) = false ->
  (forall w', In w' pre -> is_command_end w' = false) ->
  is_command_end w = true ->
  fst (fst (exec (LittleReaper.parent e o command (pre ++ w :: post)) flag))
  = OExit (rcfps (w_status w)).
Proof.
  intros Hreap HW Hw Hpre Hend.
  unfold LittleReaper.parent. rewrite Hreap.
  now apply (exec_LR_main_loop_default e o command pre post w HW Hw Hpre Hend).
Qed.

(** The parent with [-w], without [-r] and [-W]: it exits the first time
    [wait] fails with [ECHILD], with the code of the status that the last
    return of the command's pid with a terminal status carried. *)
Lemma exec_LR_parent_wait_for_all (pre mid post : list wait_result)
      (c w : wait_result) (flag : Z) :
  truthy (LittleReaper.dont_reap o) = false ->
  truthy (LittleReaper.wait_forever o) = false ->
  truthy (LittleReaper.wait_for_all_sub_processes o) = true ->
  existsb LittleReaper.is_no_child (pre ++ c :: mid) = false ->
  is_command_end c = true ->
  existsb is_command_end mid = false ->
  LittleReaper.is_no_child w = true ->
  fst (fst (exec (LittleReaper.parent e o command
                    ((pre ++ c :: mid) ++ w :: post)) flag))
  = OExit (rcfps (w_status c)).
Proof.
  intros Hreap HW Hw Hnone Hc Hmid Hleave.
  unfold LittleReaper.parent. rewrite Hreap.
  rewrite (exec_LR_main_loop_leaves (pre ++ c :: mid) post w
             (OExit (rcfps (w_status c))) []).
  - reflexivity.
  - intros pre' w' post' Heq.
    rewrite exec_decide_wait_for_all by assumption.
    rewrite no_child_left_after.
    rewrite Heq in Hnone.
    now rewrite (existsb_prefix _ _ _ _ Hnone).
  - rewrite exec_decide_wait_for_all by assumption.
    rewrite no_child_left_after, existsb_app. cbn [existsb].
    rewrite Hleave, orb_true_r.
    change (truthy 1) with true. cbv iota.
    rewrite command_terminated_after.
    rewrite !existsb_app. cbn [existsb]. rewrite Hc, orb_true_r. cbn [orb].
    change (truthy 1) with true. cbv iota.
    rewrite locals_after_app.
    rewrite command_status_after_none
      by (cbn [existsb]; now rewrite (failure_is_no_command_end w Hleave)).
    now rewrite command_status_after_last_end by assumption.
  - discriminate.
Qed.

End LittleReaperModes.

(** * The claims *)

(** ** C1 *)

(** C1, as stated, fails: the command exits with status 3.  tinyreaper
    exits with [-1], status 255, and so does the revision with [-w] and
    [-t] run with neither option (which signals nobody and leaves the loop
    at once). *)
Lemma C1_exit_status_3_is_not_propagated :
  WIFEXITED (W_EXITCODE 3) = true
  /\ WEXITSTATUS (W_EXITCODE 3) = 3
  /\ fst (fst (exec (Tinyreaper.parent init_env 0 100 "/bin/cmd"
                       [reaped 100 (W_EXITCODE 3); wait_failed ECHILD]) 0))
     = OExit (-1)
  /\ ~ exits_with_status
        (exec (Tinyreaper.parent init_env 0 100 "/bin/cmd"
                 [reaped 100 (W_EXITCODE 3); wait_failed ECHILD]) 0) 3
  /\ exec (ReaperWT.parent init_env no_policy 100 "/bin/cmd"
                           [reaped 100 (W_EXITCODE 3)]) 0
     = (OExit (-1), 0,
        [EvWrite ("child " +++ NUL); EvWrite "1"; EvWrite "0"; EvWrite "0";
         EvWrite (" exited with " +++ NUL); EvWrite "3"; EvWrite (NL +++ NUL)])
  /\ ~ exits_with_status
        (exec (ReaperWT.parent init_env no_policy 100 "/bin/cmd"
                 [reaped 100 (W_EXITCODE 3)]) 0) 3
  /\ exit_status (-1) = 255.
Proof.
  assert (Hno : forall r : outcome unit * Z * list event,
             fst (fst r) = OExit (-1) -> ~ exits_with_status r 3).
  { intros r Hr (c & Hc & Hst). rewrite Hr in Hc. injection Hc as <-.
    discriminate Hst. }
  repeat split; try reflexivity; apply Hno; reflexivity.
Qed.

(** C1, amended.  The exit code follows what [wait] reports of the command.
    tinyreaper: if the last return of the command's pid before [wait] fails
    with [ECHILD] carries a normal exit with status N, then, once [wait]
    has failed with [ECHILD] and unless a [SIGALRM] arrives first, the
    process exits with 0 if N = 0 and with [-1] (status 255) for every
    other N, whatever other signals are delivered to its handler.
    src/little-reaper.c run without [-w], [-W] and [-r] exits with N
    itself, the first time [wait] returns the command's pid with a terminal
    status. *)
Theorem C1_exit_code_when_the_command_exits :
  (forall (e : env) (verbose command_pid : Z) (argv0 : string)
          (pre post more : list wait_result) (w z : wait_result)
          (sch : list slot) (flag : Z),
      existsb leaves_loop pre = false ->
      0 < w_child w ->
      w_child w = command_pid ->
      WIFEXITED (w_status w) = true ->
      Tinyreaper.never_observed command_pid post ->
      existsb leaves_loop post = false ->
      leaves_loop z = true ->
      (forall si_pid, ~ In (Sig SIGALRM si_pid) sch) ->
      fst (fst (prun (Tinyreaper.signal_handler e verbose) sch
                     (Tinyreaper.parent e verbose command_pid argv0
                        (pre ++ w :: post ++ z :: more)) flag))
      = OExit (if WEXITSTATUS (w_status w) =? 0 then 0 else -1))
  /\ (forall (e : env) (o : LittleReaper.options) (command : Z)
             (pre post : list wait_result) (w : wait_result) (flag : Z),
         truthy (LittleReaper.dont_reap o) = false ->
         truthy (LittleReaper.wait_forever o) = false ->
         truthy (LittleReaper.wait_for_all_sub_processes o) = false ->
         (forall w', In w' pre -> LittleReaper.is_command_end command w' = false) ->
         0 < w_child w ->
         w_child w = command ->
         WIFEXITED (w_status w) = true ->
         fst (fst (exec (LittleReaper.parent e o command (pre ++ w :: post)) flag))
         = OExit (WEXITSTATUS (w_status w))
         /\ exits_with_status
              (exec (LittleReaper.parent e o command (pre ++ w :: post)) flag)
              (WEXITSTATUS (w_status w)))
  /\ exit_status (-1) = 255.
Proof.
  split; [| split].
  - intros e verbose command_pid argv0 pre post more w z sch flag
           Hpre Hpos Hcmd Hexited Hpost Hpost' Hz Hno.
    destruct (prun_parent_last_reap e verbose command_pid argv0 pre post more w z
                sch flag Hpre Hpos Hcmd Hpost Hpost' Hz) as [_ Hexit].
    rewrite (Hexit Hno). now rewrite rc_of_exited.
  - intros e o command pre post w flag Hreap HW Hw Hpre Hpos Hcmd Hexited.
    assert (Hexit : fst (fst (exec (LittleReaper.parent e o command (pre ++ w :: post))
                                   flag))
                    = OExit (WEXITSTATUS (w_status w))).
    { rewrite (exec_LR_parent_default e o command pre post w flag Hreap HW Hw Hpre)
        by (apply is_command_end_of; auto).
      now rewrite rcfps_exited. }
    split; [exact Hexit |].
    exists (WEXITSTATUS (w_status w)).
    split; [exact Hexit | apply exit_status_WEXITSTATUS].
  - reflexivity.
Qed.

(** C1 at work: an orphan is reaped, the command exits with status 3,
    [wait] fails with [ECHILD]; a [SIGINT] arrives on the way. *)
Lemma C1_witness :
  fst (fst (prun (Tinyreaper.signal_handler init_env 0) [Sig SIGINT 77]
                 (Tinyreaper.parent init_env 0 100 "/bin/cmd"
                    ([reaped 101 (W_EXITCODE 0)]
                       ++ reaped 100 (W_EXITCODE 3)
                       :: [] ++ wait_failed ECHILD :: [])) 0))
  = OExit (if WEXITSTATUS (w_status (reaped 100 (W_EXITCODE 3))) =? 0 then 0 else -1)
  /\ (fst (fst (exec (LittleReaper.parent init_env default_options 100
                        ([reaped 101 (W_EXITCODE 0)]
                           ++ reaped 100 (W_EXITCODE 3) :: [])) 0))
      = OExit 3
      /\ exits_with_status
           (exec (LittleReaper.parent init_env default_options 100
                    ([reaped 101 (W_EXITCODE 0)]
                       ++ reaped 100 (W_EXITCODE 3) :: [])) 0)
           (WEXITSTATUS (w_status (reaped 100 (W_EXITCODE 3))))).
Proof.
  split.
  - apply (proj1 C1_exit_code_when_the_command_exits
             init_env 0 100 "/bin/cmd"
             [reaped 101 (W_EXITCODE 0)] [] []
             (reaped 100 (W_EXITCODE 3)) (wait_failed ECHILD)
             [Sig SIGINT 77] 0).
    + reflexivity.
    + simpl. lia.
    + reflexivity.
    + reflexivity.
    + intros x [].
    + reflexivity.
    + reflexivity.
    + intros si_pid [Heq | []]. discriminate Heq.
  - apply (proj1 (proj2 C1_exit_code_when_the_command_exits)
             init_env default_options 100
             [reaped 101 (W_EXITCODE 0)] [] (reaped 100 (W_EXITCODE 3)) 0);
      try reflexivity.
    intros w' [<- | []]. reflexivity.
Defined.

(** ** C2 *)

(** C2, as stated, fails on tinyreaper: [wait] returns the command's pid
    (the command has exited with 0) and nothing else yet.  The group has
    been sent [SIGTERM], the alarm is armed, and the process has not exited:
    it is in the loop, blocked in the next [wait]. *)
Lemma C2_command_exit_starts_shutdown_and_keeps_waiting :
  exec (Tinyreaper.parent init_env 0 100 "/bin/cmd" [reaped 100 (W_EXITCODE 0)]) 0
  = (ORet tt, 1,
     [EvWrite ("child " +++ NUL); EvWrite "1"; EvWrite "0"; EvWrite "0";
      EvWrite (" exited with " +++ NUL); EvWrite "0"; EvWrite (NL +++ NUL);
      EvWrite ("tinyreaper: Terminating children..." +++ NL +++ NUL);
      EvKill 0 SIGTERM;
      EvAlarm 5])
  /\ ~ leaves_at_command_exit
       (exec (Tinyreaper.parent init_env 0 100 "/bin/cmd" [reaped 100 (W_EXITCODE 0)]) 0).
Proof.
  split.
  - reflexivity.
  - intros (Heff & _). discriminate Heff.
Qed.

(** C2, amended.  tinyreaper has no policy options: whenever the loop reaps
    the command's pid it calls [start_shutdown] (which, unless a shutdown is
    in progress already, sets the flag, broadcasts [SIGTERM] to the group
    and arms the alarm of 5 seconds) and goes round again; its loop is left
    only when [wait] fails with [ECHILD].  In the revision with [-w] and
    [-t], reaping the command never arms the alarm or touches the flag:
    with [-t] the group is sent [SIGTERM], without [-w] the loop is left at
    once; with neither, it is left without signalling anybody. *)
Theorem C2_what_the_loop_does_at_command_exit :
  (forall (e : env) (verbose command_pid : Z) (argv0 : string)
          (w : wait_result) (cs flag : Z),
      0 < w_child w ->
      w_child w = command_pid ->
      exists tr,
        exec (Tinyreaper.reap_iteration e verbose command_pid argv0 w cs) flag
        = (ORet (Continue (w_status w)), (if truthy flag then flag else 1), tr)
        /\ effects tr
           = if truthy flag then [] else broadcast e SIGTERM ++ [EvAlarm 5])
  /\ (forall (e : env) (verbose command_pid : Z) (argv0 : string)
             (w : wait_result) (cs : Z),
         ends (fun c => c = Tinyreaper.next_ctl command_pid w cs
                        /\ forall cs', c = Break cs' ->
                                       w_child w = -1 /\ w_errno w = ECHILD)
              (fun _ => False) False
              (Tinyreaper.reap_iteration e verbose command_pid argv0 w cs))
  /\ (forall (e : env) (o : ReaperWT.options) (command_pid : Z) (argv0 : string)
             (w : wait_result) (cs flag : Z),
         0 < w_child w ->
         w_child w = command_pid ->
         exists tr,
           exec (ReaperWT.reap_iteration e o command_pid argv0 w cs) flag
           = (ORet (if truthy (ReaperWT.wait_for_all_children o)
                    then Continue (w_status w) else Break (w_status w)),
              flag, tr)
           /\ effects tr
              = if truthy (ReaperWT.terminate_all_children_after_command_terminated o)
                then broadcast e SIGTERM else []).
Proof.
  split; [| split].
  - intros e verbose command_pid argv0 w cs flag Hpos Hcmd.
    apply exec_reap_iteration_command.
    + now apply Z.ltb_lt.
    + now apply Z.eqb_eq.
  - intros e verbose command_pid argv0 w cs.
    apply (ends_weaken _ _ _ _ _ _ _
             (ends_reap_iteration e verbose command_pid argv0 w cs)); auto.
    intros c ->. split; [reflexivity |].
    intros cs' Hbreak.
    apply Tinyreaper_next_ctl_is_Break in Hbreak. tauto.
  - intros e o command_pid argv0 w cs flag Hpos Hcmd.
    destruct (exec_WT_reap_iteration e o command_pid argv0 w cs flag)
      as (tr & Hexec & Heff).
    exists tr.
    apply Z.ltb_lt in Hpos. apply Z.eqb_eq in Hcmd.
    unfold ReaperWT.next_ctl in Hexec.
    rewrite Hpos, Hcmd in Hexec, Heff. cbn [andb] in Heff.
    split; [| exact Heff].
    rewrite Hexec.
    now destruct (truthy (ReaperWT.wait_for_all_children o)).
Qed.

(** C2 at work: tinyreaper reaps the command while idle; the revision with
    options reaps it with neither [-w] nor [-t]. *)
Lemma C2_witness :
  (exists tr,
      exec (Tinyreaper.reap_iteration init_env 0 100 "/bin/cmd"
                                      (reaped 100 (W_EXITCODE 0)) 0) 0
      = (ORet (Continue (W_EXITCODE 0)), 1, tr)
      /\ effects tr = [EvKill 0 SIGTERM; EvAlarm 5])
  /\ (exists tr,
         exec (ReaperWT.reap_iteration
                 init_env
                 no_policy
                 100 "/bin/cmd" (reaped 100 (W_EXITCODE 0)) 0) 0
         = (ORet (Break (W_EXITCODE 0)), 0, tr)
         /\ effects tr = []).
Proof.
  split.
  - apply (proj1 C2_what_the_loop_does_at_command_exit
             init_env 0 100 "/bin/cmd" (reaped 100 (W_EXITCODE 0)) 0 0);
      [simpl; lia | reflexivity].
  - apply (proj2 (proj2 C2_what_the_loop_does_at_command_exit)
             init_env no_policy
             100 "/bin/cmd" (reaped 100 (W_EXITCODE 0)) 0 0);
      [simpl; lia | reflexivity].
Defined.

(** ** C3 *)




(** ** C4 *)

(** The part of C4 that holds: a shutdown request made while
    [shutdown_in_progress] is set changes nothing, signals nobody and arms
    no alarm. *)
Lemma start_shutdown_in_progress_is_noop (e : env) (verbose flag : Z) :
  truthy flag = true ->
  exists tr,
    exec (Tinyreaper.start_shutdown e verbose) flag = (ORet tt, flag, tr)
    /\ effects tr = [].
Proof.
  intros Hset.
  destruct (start_shutdown_effects e verbose flag) as (tr & Hexec & Heff).
  rewrite Hset in Hexec, Heff. now exists tr.
Qed.

(** [start_shutdown] from after its test of the flag, the test having read
    0: whatever the flag holds by now, the shutdown is begun. *)
Lemma exec_start_shutdown_after_test (e : env) (verbose flag : Z) :
  exec (store 1 ;;
        Tinyreaper.LOG "Terminating children..." ;;
        send_signal_to_all_children e SIGTERM ;;
        Tinyreaper.VERBOSE verbose "tick tock..." ;;
        alarm Tinyreaper.shutdown_timeout_seconds) flag
  = (ORet tt, 1,
     output_of (Tinyreaper.LOG "Terminating children...")
     ++ broadcast e SIGTERM
     ++ output_of (Tinyreaper.VERBOSE verbose "tick tock...")
     ++ [EvAlarm Tinyreaper.shutdown_timeout_seconds]).
Proof.
  unfold Tinyreaper.VERBOSE, output_of, broadcast, send_signal_to_all_children.
  simpl.
  destruct (truthy verbose), (getpgrp e =? getpid e); reflexivity.
Qed.

(** C4, where the code departs from it.  [start_shutdown] tests the flag and
    sets it in two separate steps.  Let the loop call [start_shutdown], read
    0 from the flag, and let a [SIGINT] arrive before the loop has stored 1:
    the handler reads 0 as well, begins the shutdown (broadcast, alarm) and
    returns; the loop then carries on from after its test and begins the
    shutdown a second time.  The group is signalled twice and the alarm
    armed twice in one run.  (The same signal one atomic step earlier, before
    the test, or one step later, after the store, is harmless.) *)
Theorem C4_preempted_start_shutdown_begins_twice :
  (forall (e : env) (verbose si_pid : Z),
      effects (snd (prun (Tinyreaper.signal_handler e verbose)
                         [Run; Sig SIGINT si_pid]
                         (Tinyreaper.start_shutdown e verbose) 0))
      = (broadcast e SIGTERM ++ [EvAlarm 5]) ++ (broadcast e SIGTERM ++ [EvAlarm 5]))
  /\ (let run :=
        prun (Tinyreaper.signal_handler init_env 0)
             [Run; Run; Run; Run; Run; Run; Run; Run; Sig SIGINT 77]
             (Tinyreaper.parent init_env 0 100 "/bin/cmd"
                                [reaped 100 (W_EXITCODE 0); wait_failed ECHILD])
             0 in
      fst (fst run) = OExit 0
      /\ effects (snd run)
         = [EvKill 0 SIGTERM; EvAlarm 5; EvKill 0 SIGTERM; EvAlarm 5])
  /\ (let parent :=
        Tinyreaper.parent init_env 0 100 "/bin/cmd"
                          [reaped 100 (W_EXITCODE 0); wait_failed ECHILD] in
      effects (snd (prun (Tinyreaper.signal_handler init_env 0)
                         [Run; Run; Run; Run; Run; Run; Run; Sig SIGINT 77]
                         parent 0))
      = [EvKill 0 SIGTERM; EvAlarm 5]
      /\ effects (snd (prun (Tinyreaper.signal_handler init_env 0)
                            [Run; Run; Run; Run; Run; Run; Run; Run; Run; Sig SIGINT 77]
                            parent 0))
         = [EvKill 0 SIGTERM; EvAlarm 5]).
Proof.
  split; [| split].
  - intros e verbose si_pid.
    cbn [prun Tinyreaper.start_shutdown load bind run_action app].
    rewrite exec_bind.
    rewrite (exec_signal_handler_termination e verbose SIGINT si_pid 0
               eq_refl eq_refl).
    destruct (start_shutdown_effects e verbose 0) as (tr1 & Hexec1 & Heff1).
    rewrite Hexec1.
    change (truthy 0) with false in *. cbv iota in *.
    assert (Hexec2 : exists tr2,
               exec (store 1 ;;
                     Tinyreaper.LOG "Terminating children..." ;;
                     send_signal_to_all_children e SIGTERM ;;
                     Tinyreaper.VERBOSE verbose "tick tock..." ;;
                     alarm Tinyreaper.shutdown_timeout_seconds) 1 = (ORet tt, 1, tr2)
               /\ effects tr2 = broadcast e SIGTERM ++ [EvAlarm 5]).
    { eexists. split; [apply exec_start_shutdown_after_test |].
      rewrite !effects_app, effects_broadcast.
      rewrite (effects_output_of _ (quiet_LOG _)).
      rewrite (effects_output_of _ (quiet_VERBOSE verbose _)).
      reflexivity. }
    destruct Hexec2 as (tr2 & Hexec2 & Heff2).
    cbv zeta beta.
    destruct (exec (store 1 ;;
                    Tinyreaper.LOG "Terminating children..." ;;
                    send_signal_to_all_children e SIGTERM ;;
                    Tinyreaper.VERBOSE verbose "tick tock..." ;;
                    alarm Tinyreaper.shutdown_timeout_seconds) 1)
      as [[o2 f2] tr2'].
    assert (Htr : tr2' = tr2) by congruence.
    subst tr2'. cbn [snd].
    rewrite !effects_app, (effects_output_of _ (quiet_signal_line verbose SIGINT)).
    rewrite Heff1, Heff2.
    reflexivity.
  - cbv zeta. split; reflexivity.
  - cbv zeta. split; reflexivity.
Qed.

(** ** C5 *)

(** C5.  On [SIGALRM] the handler exits at once with [-1] (status 255) if
    [shutdown_in_progress] is set, and returns without any effect if it is
    not; and no other signal makes the handler exit, whatever the flag holds
    and wherever the handler is preempted: the exit of [handle_alarm] is
    reached only from a shutdown in progress and only through [SIGALRM]. *)
Theorem C5_alarm_ends_a_shutdown_in_progress_only :
  forall (e : env) (verbose : Z),
    (forall si_pid flag,
        exists tr,
          exec (Tinyreaper.signal_handler e verbose SIGALRM si_pid) flag
          = ((if truthy flag then OExit (-1) else ORet tt), flag, tr)
          /\ effects tr = [])
    /\ exit_status (-1) = 255
    /\ (forall sig si_pid,
           sig <> SIGALRM ->
           ends (fun _ => True) (fun _ => False) False
                (Tinyreaper.signal_handler e verbose sig si_pid))
    /\ (forall sig si_pid flag c,
           fst (fst (exec (Tinyreaper.signal_handler e verbose sig si_pid) flag)) = OExit c ->
           sig = SIGALRM /\ truthy flag = true /\ c = -1).
Proof.
  intros e verbose. split; [| split; [| split]].
  - intros si_pid flag.
    rewrite exec_signal_handler_SIGALRM.
    destruct (truthy flag); eexists; (split; [reflexivity |]);
      rewrite effects_app, (effects_output_of _ (quiet_signal_line verbose SIGALRM)).
    + apply effects_output_of, quiet_LOG.
    + reflexivity.
  - reflexivity.
  - intros sig si_pid Hsig. now apply ends_signal_handler_not_SIGALRM.
  - intros sig si_pid flag c Hexit.
    destruct (Z.eq_dec sig SIGALRM) as [-> | Hsig].
    + rewrite exec_signal_handler_SIGALRM in Hexit.
      destruct (truthy flag); cbn [fst] in Hexit; [| discriminate Hexit].
      injection Hexit as <-. auto.
    + pose proof (exec_ends _ _ _ _ flag
                    (ends_signal_handler_not_SIGALRM e verbose sig si_pid Hsig)) as Hend.
      unfold ended in Hend. rewrite Hexit in Hend. contradiction.
Qed.

(** C5 at work: the alarm arrives during a shutdown in progress. *)
Lemma C5_witness :
  fst (fst (exec (Tinyreaper.signal_handler init_env 0 SIGALRM 0) 1)) = OExit (-1)
  /\ (SIGALRM = SIGALRM /\ truthy 1 = true /\ -1 = -1).
Proof.
  split.
  - reflexivity.
  - apply (proj2 (proj2 (proj2 (C5_alarm_ends_a_shutdown_in_progress_only init_env 0)))
             SIGALRM 0 1 (-1)).
    reflexivity.
Defined.

(** ** C6 *)

(** What the code does in general when the command's status was never
    observed: if the loop is left ([wait] has failed with [ECHILD]) without
    [wait] ever having returned the command's pid, [command_status] still
    holds its initial 0, which reads as a normal exit with code 0; unless
    the alarm handler ends the process first, it exits with status 0. *)
Lemma unobserved_command_status_reads_as_success
      (e : env) (verbose command_pid : Z) (argv0 : string)
      (ws : list wait_result) (sch : list slot) (flag : Z) :
  Tinyreaper.never_observed command_pid ws ->
  Tinyreaper.status_at_break command_pid ws 0 <> None ->
  (forall si_pid, ~ In (Sig SIGALRM si_pid) sch) ->
  Tinyreaper.recorded_status command_pid ws 0 = 0
  /\ fst (fst (prun (Tinyreaper.signal_handler e verbose) sch
                    (Tinyreaper.parent e verbose command_pid argv0 ws) flag))
     = OExit 0.
Proof.
  intros Hnever Hleft Hno.
  pose proof (never_observed_recorded command_pid ws 0 Hnever) as Hrec.
  split; [exact Hrec |].
  pose proof (prun_parent_no_alarm e verbose command_pid argv0 sch ws flag Hno) as Hend.
  unfold ended in Hend.
  destruct (fst (fst (prun (Tinyreaper.signal_handler e verbose) sch
                           (Tinyreaper.parent e verbose command_pid argv0 ws) flag)))
    as [[] | c | | ].
  - contradiction.
  - destruct Hend as (cs & Hcs & ->).
    apply status_at_break_recorded in Hcs.
    rewrite Hrec in Hcs. subst cs. reflexivity.
  - contradiction.
  - contradiction.
Qed.

(** C6, where the code departs from it.  [fork] fails: it returns [-1],
    which becomes [command_pid] and sends [main] down the parent branch.
    The first [wait] fails with [ECHILD], the loop is left with
    [command_status] still 0, and the process exits with status 0, although
    the command was never observed (it never ran). *)
Theorem C6_unobserved_command_exits_with_0 :
  exec (Tinyreaper.parent init_env 0 (-1) "/bin/cmd" [wait_failed ECHILD]) 0
  = (OExit 0, 0, [])
  /\ exit_status 0 = 0
  /\ Tinyreaper.never_observed (-1) [wait_failed ECHILD]
  /\ exec (Tinyreaper.parent init_env 1 (-1) "/bin/cmd" [wait_failed ECHILD]) 0
     = (OExit 0, 0,
        [EvWrite ("tinyreaper: all child processes terminated." +++ NL +++ NUL);
         EvWrite ("tinyreaper: " +++ NUL);
         EvWrite ("Returning 0" +++ NL)]).
Proof.
  split; [reflexivity | split; [reflexivity | split; [| reflexivity]]].
  intros w [<- | []] Hpos. simpl in Hpos. lia.
Qed.

(** ** C7 *)

(** C7, as stated, fails.  On src/little-reaper.c run with [-r]: the
    command is killed by [SIGKILL], but the parent never calls [wait]: it
    exits with 0 right after [fork], as the option asks.  On tinyreaper: a
    later return of the command's pid overwrites the status of the kill;
    the command is killed by [SIGKILL], its pid is given to a descendant of
    an adopted orphan that exits with 0, [wait] fails with [ECHILD], and
    tinyreaper exits with 0. *)
Lemma C7_killed_command_and_exit_status_0 :
  WIFSIGNALED (W_KILLED 9) = true
  /\ exec (LittleReaper.parent init_env
             (LittleReaperMain.options_of_letters "r" default_options) 100
             [reaped 100 (W_KILLED 9)]) 0
     = (OExit 0, 0, [])
  /\ exits_with_status
       (exec (LittleReaper.parent init_env
                (LittleReaperMain.options_of_letters "r" default_options) 100
                [reaped 100 (W_KILLED 9)]) 0) 0
  /\ exits_with_status
       (exec (Tinyreaper.parent init_env 0 100 "/bin/cmd"
                [reaped 100 (W_KILLED 9); reaped 100 (W_EXITCODE 0);
                 wait_failed ECHILD]) 0) 0.
Proof.
  split; [reflexivity | split; [reflexivity | split]];
    exists 0; split; reflexivity.
Qed.

(** C7, amended.  The exit code follows what [wait] reports of the command.
    tinyreaper: if the last return of the command's pid before [wait] fails
    with [ECHILD] says the command was killed by a signal, the process
    exits with [-1], which the outside world sees as status 255, never 0:
    in every run, whatever signals are delivered to its handler and
    wherever they preempt the loop.  src/little-reaper.c exits with [-1]
    too when run without [-r] and [-W]: without [-w] the first time [wait]
    returns the command's pid with a terminal status, if that status is a
    kill; with [-w] the first time [wait] fails with [ECHILD], if the last
    return of the command's pid before that is a kill.  Run with [-r] (and
    without [-W]) it exits with 0 whatever becomes of the command. *)
Theorem C7_command_killed_by_signal_exits_with_failure :
  (forall (e : env) (verbose command_pid : Z) (argv0 : string)
          (pre post more : list wait_result) (w z : wait_result)
          (sch : list slot) (flag : Z),
      existsb leaves_loop pre = false ->
      0 < w_child w ->
      w_child w = command_pid ->
      WIFSIGNALED (w_status w) = true ->
      Tinyreaper.never_observed command_pid post ->
      existsb leaves_loop post = false ->
      leaves_loop z = true ->
      fst (fst (prun (Tinyreaper.signal_handler e verbose) sch
                     (Tinyreaper.parent e verbose command_pid argv0
                        (pre ++ w :: post ++ z :: more)) flag))
      = OExit (-1))
  /\ (forall (e : env) (o : LittleReaper.options) (command : Z)
             (pre post : list wait_result) (w : wait_result) (flag : Z),
         truthy (LittleReaper.dont_reap o) = false ->
         truthy (LittleReaper.wait_forever o) = false ->
         truthy (LittleReaper.wait_for_all_sub_processes o) = false ->
         (forall w', In w' pre -> LittleReaper.is_command_end command w' = false) ->
         0 < w_child w ->
         w_child w = command ->
         WIFSIGNALED (w_status w) = true ->
         fst (fst (exec (LittleReaper.parent e o command (pre ++ w :: post)) flag))
         = OExit (-1))
  /\ (forall (e : env) (o : LittleReaper.options) (command : Z)
             (pre mid post : list wait_result) (c w : wait_result) (flag : Z),
         truthy (LittleReaper.dont_reap o) = false ->
         truthy (LittleReaper.wait_forever o) = false ->
         truthy (LittleReaper.wait_for_all_sub_processes o) = true ->
         existsb LittleReaper.is_no_child (pre ++ c :: mid) = false ->
         0 < w_child c ->
         w_child c = command ->
         WIFSIGNALED (w_status c) = true ->
         existsb (LittleReaper.is_command_end command) mid = false ->
         LittleReaper.is_no_child w = true ->
         fst (fst (exec (LittleReaper.parent e o command
                           ((pre ++ c :: mid) ++ w :: post)) flag))
         = OExit (-1))
  /\ (forall (e : env) (o : LittleReaper.options) (command : Z)
             (ws : list wait_result) (flag : Z),
         truthy (LittleReaper.dont_reap o) = true ->
         truthy (LittleReaper.wait_forever o) = false ->
         exec (LittleReaper.parent e o command ws) flag = (OExit 0, flag, []))
  /\ exit_status (-1) = 255
  /\ exit_status (-1) <> 0.
Proof.
  split; [| split; [| split; [| split; [| split]]]].
  - intros e verbose command_pid argv0 pre post more w z sch flag
           Hpre Hpos Hcmd Hkilled Hpost Hpost' Hz.
    apply prun_parent_last_reap_failure; try assumption.
    now apply rc_of_signaled.
  - intros e o command pre post w flag Hreap HW Hw Hpre Hpos Hcmd Hkilled.
    rewrite (exec_LR_parent_default e o command pre post w flag Hreap HW Hw Hpre)
      by (apply is_command_end_of; auto).
    now rewrite rcfps_signaled.
  - intros e o command pre mid post c w flag Hreap HW Hw Hnone Hpos Hcmd Hkilled
           Hmid Hleave.
    rewrite (exec_LR_parent_wait_for_all e o command pre mid post c w flag
               Hreap HW Hw Hnone)
      by (try assumption; apply is_command_end_of; auto).
    now rewrite rcfps_signaled.
  - intros e o command ws flag Hr HW.
    unfold LittleReaper.parent. now rewrite Hr, HW.
  - reflexivity.
  - discriminate.
Qed.

(** C7 at work: the command is killed by [SIGKILL] while an orphan lives on;
    a [SIGTERM] from outside arrives during the run; the orphan is reaped,
    then [wait] fails with [ECHILD]. *)
Lemma C7_witness :
  fst (fst (prun (Tinyreaper.signal_handler init_env 0) [Run; Run; Sig SIGTERM 77]
                 (Tinyreaper.parent init_env 0 100 "/bin/cmd"
                    ([] ++ reaped 100 (W_KILLED 9)
                        :: [reaped 101 (W_EXITCODE 0)]
                        ++ wait_failed ECHILD :: [])) 0))
  = OExit (-1)
  /\ fst (fst (exec (LittleReaper.parent init_env default_options 100
                       ([] ++ reaped 100 (W_KILLED 9) :: [])) 0))
     = OExit (-1)
  /\ fst (fst (exec (LittleReaper.parent init_env
                       (LittleReaperMain.options_of_letters "w" default_options) 100
                       (([] ++ reaped 100 (W_KILLED 9) :: [reaped 101 (W_EXITCODE 0)])
                          ++ wait_failed ECHILD :: [])) 0))
     = OExit (-1)
  /\ exec (LittleReaper.parent init_env
             (LittleReaperMain.options_of_letters "r" default_options) 100
             [reaped 100 (W_KILLED 9)]) 0
     = (OExit 0, 0, []).
Proof.
  split; [| split; [| split]].
  - apply (proj1 C7_command_killed_by_signal_exits_with_failure
             init_env 0 100 "/bin/cmd"
             [] [reaped 101 (W_EXITCODE 0)] []
             (reaped 100 (W_KILLED 9)) (wait_failed ECHILD)
             [Run; Run; Sig SIGTERM 77] 0).
    + reflexivity.
    + simpl. lia.
    + reflexivity.
    + reflexivity.
    + intros x [<- | []] _. simpl. lia.
    + reflexivity.
    + reflexivity.
  - apply (proj1 (proj2 C7_command_killed_by_signal_exits_with_failure)
             init_env default_options 100 [] [] (reaped 100 (W_KILLED 9)) 0);
      try reflexivity.
    intros w' [].
  - apply (proj1 (proj2 (proj2 C7_command_killed_by_signal_exits_with_failure))
             init_env (LittleReaperMain.options_of_letters "w" default_options) 100
             [] [reaped 101 (W_EXITCODE 0)] []
             (reaped 100 (W_KILLED 9)) (wait_failed ECHILD) 0);
      reflexivity.
  - apply (proj1 (proj2 (proj2 (proj2 C7_command_killed_by_signal_exits_with_failure)))
             init_env (LittleReaperMain.options_of_letters "r" default_options) 100
             [reaped 100 (W_KILLED 9)] 0);
      reflexivity.
Defined.

(** ** C8 *)






(** ** C9 *)

(** A reaper that does not lead its process group begins its shutdown
    without signalling anybody; the alarm is armed all the same. *)
Example start_shutdown_of_a_follower :
  exec (Tinyreaper.start_shutdown follower_env 0) 0
  = (ORet tt, 1,
     [EvWrite ("tinyreaper: Terminating children..." +++ NL +++ NUL); EvAlarm 5]).
Proof. reflexivity. Qed.

(** C9.  [send_signal_to_all_children] sends the signal to the whole process
    group ([kill(0, sig)]) exactly when [getpgrp() == getpid()]; when the
    check fails nothing is sent.  The same holds for the broadcast that
    [start_shutdown] makes through it. *)
Theorem C9_broadcast_only_by_group_leader :
  forall (e : env) (verbose sig flag : Z),
    exec (send_signal_to_all_children e sig) flag
    = (ORet tt, flag, if getpgrp e =? getpid e then [EvKill 0 sig] else [])
    /\ kills (snd (exec (Tinyreaper.start_shutdown e verbose) flag))
       = if truthy flag then []
         else if getpgrp e =? getpid e then [EvKill 0 SIGTERM] else [].
Proof.
  intros e verbose sig flag. split.
  - rewrite exec_send_signal_to_all_children. reflexivity.
  - destruct (start_shutdown_effects e verbose flag) as (tr & Hexec & Heff).
    rewrite Hexec. cbn [snd].
    rewrite <- kills_effects, Heff.
    destruct (truthy flag); [reflexivity |].
    unfold broadcast. now destruct (getpgrp e =? getpid e).
Qed.

(** ** C10 *)

(** C10.  Whichever signal of the termination class the handler receives
    (a [SIGTERM] of the process's own apart) while no shutdown is in
    progress: the flag becomes 1 whatever the signal was, the group is sent
    [SIGTERM] (by a leader; nothing otherwise) and no other signal, and the
    alarm is armed with [shutdown_timeout_seconds], which is 5. *)
Theorem C10_shutdown_broadcasts_SIGTERM_and_arms_5_seconds :
  forall (e : env) (verbose sig si_pid flag : Z),
    Tinyreaper.termination_class sig = true ->
    (sig =? SIGTERM) && (si_pid =? getpid e) = false ->
    truthy flag = false ->
    exists tr,
      exec (Tinyreaper.signal_handler e verbose sig si_pid) flag = (ORet tt, 1, tr)
      /\ effects tr = broadcast e SIGTERM ++ [EvAlarm 5]
      /\ kills tr = (if getpgrp e =? getpid e then [EvKill 0 SIGTERM] else [])
      /\ alarms tr = [EvAlarm 5]
      /\ Tinyreaper.shutdown_timeout_seconds = 5.
Proof.
  intros e verbose sig si_pid flag Hclass Hself Hidle.
  rewrite (exec_signal_handler_termination e verbose sig si_pid flag Hclass Hself).
  destruct (start_shutdown_effects e verbose flag) as (tr & Hexec & Heff).
  rewrite Hexec, Hidle in *.
  eexists. split; [reflexivity |].
  assert (Hall : effects (output_of (Tinyreaper.signal_line verbose sig) ++ tr)
                 = broadcast e SIGTERM ++ [EvAlarm 5]).
  { rewrite effects_app, (effects_output_of _ (quiet_signal_line verbose sig)).
    exact Heff. }
  split; [exact Hall |].
  rewrite <- kills_effects, <- alarms_effects, Hall.
  unfold broadcast. destruct (getpgrp e =? getpid e); repeat split.
Qed.

(** C10 at work: [SIGQUIT] from another process, the reaper leading its
    group. *)
Lemma C10_witness :
  exists tr,
    exec (Tinyreaper.signal_handler init_env 1 SIGQUIT 77) 0 = (ORet tt, 1, tr)
    /\ effects tr = broadcast init_env SIGTERM ++ [EvAlarm 5]
    /\ kills tr = [EvKill 0 SIGTERM]
    /\ alarms tr = [EvAlarm 5]
    /\ Tinyreaper.shutdown_timeout_seconds = 5.
Proof.
  apply (C10_shutdown_broadcasts_SIGTERM_and_arms_5_seconds init_env 1 SIGQUIT 77 0);
    reflexivity.
Defined.

(** * Further properties of the code *)

(** ** Every path of a program *)

Section EveryPath.

Context {A : Type} (Q : event -> Prop) (S : Z -> Prop).

Lemma emits_only_bind {B : Type} (p : prog A) (f : A -> prog B) :
  emits_only Q S p -> (forall a, emits_only Q S (f a)) -> emits_only Q S (bind p f).
Proof.
  induction p as [a | a k IH | c | | ]; simpl; intros Hp Hf; auto.
  destruct Hp as [Ha Hk]. split; [exact Ha | intros x; apply IH; auto].
Qed.

Lemma quiet_emits_only (p : prog A) :
  (forall s, Q (EvWrite s)) -> quiet p -> emits_only Q S p.
Proof.
  intros HQ.
  induction p as [a | a k IH | c | | ]; simpl; intros Hp; auto.
  destruct a; try contradiction. split; [apply HQ | intros x; apply IH, Hp].
Qed.

Lemma exec_emits_only (p : prog A) :
  forall flag,
    emits_only Q S p ->
    Forall Q (snd (exec p flag))
    /\ (snd (fst (exec p flag)) = flag \/ S (snd (fst (exec p flag)))).
Proof.
  induction p as [a | a k IH | c | | ]; intros flag Hp; simpl; auto.
  destruct Hp as [Ha Hk].
  destruct a as [| v | s | pid sig | secs]; simpl;
    match goal with
    | |- context [exec (k ?x) ?f] =>
        specialize (IH x f (Hk x)); destruct (exec (k x) f) as [[o f2] tr]
    end; simpl in *; destruct IH as [Htr Hflag].
  - auto.
  - split; [exact Htr |]. right. destruct Hflag as [-> | H]; auto.
  - split; [constructor; auto | exact Hflag].
  - split; [constructor; auto | exact Hflag].
  - split; [constructor; auto | exact Hflag].
Qed.

Lemma prun_emits_only (handler : Z -> Z -> prog unit) (sch : list slot) :
  forall (p : prog A) (flag : Z),
    (forall sig si_pid, In (Sig sig si_pid) sch ->
                        emits_only Q S (handler sig si_pid)) ->
    emits_only Q S p ->
    Forall Q (snd (prun handler sch p flag))
    /\ (snd (fst (prun handler sch p flag)) = flag
        \/ S (snd (fst (prun handler sch p flag)))).
Proof.
  induction sch as [| s sch IH]; intros p flag Hh Hp.
  - simpl. now apply exec_emits_only.
  - assert (Hh' : forall g q, In (Sig g q) sch -> emits_only Q S (handler g q))
      by (intros g q Hin; apply Hh; now right).
    specialize (fun p flag => IH p flag Hh').
    destruct s as [sig si_pid | ]; simpl.
    + apply IH.
      revert Hp. generalize (Hh sig si_pid (or_introl eq_refl)).
      generalize (handler sig si_pid). intros h.
      induction h as [a | a k IHh | c | | ]; simpl; intros Hq Hp; auto.
      destruct Hq as [Ha Hk]. split; [exact Ha | intros x; apply IHh; auto].
    + destruct p as [a | a k | c | | ].
      * apply (IH (Ret a) flag). exact I.
      * destruct Hp as [Ha Hk].
        destruct a as [| v | s | pid sig | secs]; simpl;
          match goal with
          | |- context [prun handler sch (k ?x) ?f] =>
              specialize (IH (k x) f (Hk x));
              destruct (prun handler sch (k x) f) as [[o f2] tr]
          end; simpl in *; destruct IH as [Htr Hflag].
        -- auto.
        -- split; [exact Htr |]. right. destruct Hflag as [-> | H]; auto.
        -- split; [constructor; auto | exact Hflag].
        -- split; [constructor; auto | exact Hflag].
        -- split; [constructor; auto | exact Hflag].
      * simpl. auto.
      * simpl. auto.
      * simpl. auto.
Qed.

End EveryPath.

Lemma emits_only_weaken {A : Type} (Q Q' : event -> Prop) (S S' : Z -> Prop)
      (p : prog A) :
  emits_only Q S p ->
  (forall ev, Q ev -> Q' ev) -> (forall v, S v -> S' v) ->
  emits_only Q' S' p.
Proof.
  intros Hp HQ HS.
  induction p as [a | a k IH | c | | ]; simpl in *; auto.
  destruct Hp as [Ha Hk]. split; [| intros x; apply IH, Hk].
  destruct a; auto.
Qed.

Lemma emits_only_quiet_then {A B : Type} (Q : event -> Prop) (S : Z -> Prop)
      (p : prog A) (f : A -> prog B) :
  (forall s, Q (EvWrite s)) ->
  quiet p -> (forall a, emits_only Q S (f a)) -> emits_only Q S (bind p f).
Proof.
  intros HQ Hp Hf. apply emits_only_bind; [now apply quiet_emits_only | exact Hf].
Qed.

(** A trace of writes has no effect on other processes or the timer. *)
Lemma effects_of_writes (tr : list event) :
  Forall (fun ev => is_write ev = true) tr -> effects tr = [].
Proof.
  induction 1 as [| ev tr Hev _ IH]; [reflexivity |].
  unfold effects in *. simpl. now rewrite Hev.
Qed.

(** ** While the flag is set *)

Lemma ends_while_set_bind {A B : Type} (R' : A -> Prop) (R : B -> Prop)
      (E : Z -> Prop) (p : prog A) (f : A -> prog B) :
  ends_while_set R' E p ->
  (forall a, R' a -> ends_while_set R E (f a)) ->
  ends_while_set R E (bind p f).
Proof.
  induction p as [a | a k IH | c | | ]; simpl; intros Hp Hf; auto.
  destruct a; simpl in *.
  - intros x Hx. apply IH; auto.
  - destruct Hp as [Hv Hk]. split; [exact Hv | intros x; apply IH; auto].
  - intros x. apply IH; auto.
  - intros x. apply IH; auto.
  - intros x. apply IH; auto.
Qed.

Lemma ends_to_while_set {A : Type} (R : A -> Prop) (E : Z -> Prop)
      (Q : event -> Prop) (p : prog A) :
  ends R E False p ->
  emits_only Q (fun v => truthy v = true) p ->
  ends_while_set R E p.
Proof.
  induction p as [a | a k IH | c | | ]; simpl; intros Hp Hq; auto.
  destruct Hq as [Ha Hk].
  destruct a; simpl in *; auto.
Qed.

Lemma exec_ends_while_set {A : Type} (R : A -> Prop) (E : Z -> Prop) (p : prog A) :
  forall flag,
    truthy flag = true ->
    ends_while_set R E p ->
    ended R E False (exec p flag).
Proof.
  induction p as [a | a k IH | c | | ]; intros flag Hflag Hp; simpl; auto.
  destruct a as [| v | s | pid sig | secs]; simpl in *.
  - specialize (IH flag flag Hflag (Hp flag Hflag)).
    destruct (exec (k flag) flag) as [[o f2] tr]. exact IH.
  - destruct Hp as [Hv Hk]. specialize (IH 0 v Hv (Hk 0)).
    destruct (exec (k 0) v) as [[o f2] tr]. exact IH.
  - specialize (IH 0 flag Hflag (Hp 0)).
    destruct (exec (k 0) flag) as [[o f2] tr]. exact IH.
  - specialize (IH 0 flag Hflag (Hp 0)).
    destruct (exec (k 0) flag) as [[o f2] tr]. exact IH.
  - specialize (IH 0 flag Hflag (Hp 0)).
    destruct (exec (k 0) flag) as [[o f2] tr]. exact IH.
Qed.

Lemma prun_ends_while_set {A : Type} (handler : Z -> Z -> prog unit)
      (R : A -> Prop) (E : Z -> Prop) (sch : list slot) :
  (forall sig si_pid, ends_while_set (fun _ => True) E (handler sig si_pid)) ->
  forall (p : prog A) (flag : Z),
    truthy flag = true ->
    ends_while_set R E p ->
    ended R E False (prun handler sch p flag).
Proof.
  intros Hh.
  induction sch as [| s sch IH]; intros p flag Hflag Hp.
  - simpl. now apply exec_ends_while_set.
  - destruct s as [sig si_pid | ]; simpl.
    + apply IH; [exact Hflag |].
      apply ends_while_set_bind with (R' := fun _ => True); [apply Hh | auto].
    + destruct p as [a | a k | c | | ].
      * apply (IH (Ret a) flag Hflag). exact Hp.
      * destruct a as [| v | s | pid sig | secs]; simpl in *.
        -- specialize (IH (k flag) flag Hflag (Hp flag Hflag)).
           destruct (prun handler sch (k flag) flag) as [[o f2] tr]. exact IH.
        -- destruct Hp as [Hv Hk]. specialize (IH (k 0) v Hv (Hk 0)).
           destruct (prun handler sch (k 0) v) as [[o f2] tr]. exact IH.
        -- specialize (IH (k 0) flag Hflag (Hp 0)).
           destruct (prun handler sch (k 0) flag) as [[o f2] tr]. exact IH.
        -- specialize (IH (k 0) flag Hflag (Hp 0)).
           destruct (prun handler sch (k 0) flag) as [[o f2] tr]. exact IH.
        -- specialize (IH (k 0) flag Hflag (Hp 0)).
           destruct (prun handler sch (k 0) flag) as [[o f2] tr]. exact IH.
      * exact Hp.
      * exact Hp.
      * exact Hp.
Qed.

(** ** tinyreaper: what a run can do *)

Section TinyreaperRuns.

Variable e : env.
Variable verbose : Z.
Variable command_pid : Z.
Variable argv0 : string.

Local Abbreviation signal_handler := (Tinyreaper.signal_handler e verbose).
Local Abbreviation parent := (Tinyreaper.parent e verbose command_pid argv0).
Local Abbreviation allowed := (tinyreaper_event e).
Local Abbreviation sets := (fun v : Z => v = 1).

Lemma allowed_write (s : string) : allowed (EvWrite s).
Proof. now left. Qed.

Lemma emits_start_shutdown :
  emits_only allowed sets (Tinyreaper.start_shutdown e verbose).
Proof.
  unfold Tinyreaper.start_shutdown, load, store.
  cbn [bind emits_only]. split; [exact I | intros x].
  destruct (truthy x).
  - apply quiet_emits_only; [apply allowed_write | apply quiet_VERBOSE].
  - cbn [bind emits_only]. split; [reflexivity | intros _].
    apply emits_only_quiet_then; [apply allowed_write | apply quiet_LOG | intros _].
    apply emits_only_bind.
    + unfold send_signal_to_all_children.
      destruct (getpgrp e =? getpid e) eqn:Hlead; simpl; auto.
      split; [| auto]. right. left. split; [reflexivity | now apply Z.eqb_eq].
    + intros _.
      apply emits_only_quiet_then; [apply allowed_write | apply quiet_VERBOSE | intros _].
      simpl. split; [| auto]. right. now right.
Qed.

Lemma emits_handle_alarm : emits_only allowed sets Tinyreaper.handle_alarm.
Proof.
  unfold Tinyreaper.handle_alarm, load.
  cbn [bind emits_only]. split; [exact I | intros x].
  destruct (truthy x); [| exact I].
  apply emits_only_quiet_then; [apply allowed_write | apply quiet_LOG | intros _].
  exact I.
Qed.

Lemma emits_signal_handler (sig si_pid : Z) :
  emits_only allowed sets (signal_handler sig si_pid).
Proof.
  unfold Tinyreaper.signal_handler.
  destruct ((sig =? SIGTERM) && (si_pid =? getpid e)).
  - apply quiet_emits_only; [apply allowed_write | apply quiet_VERBOSE].
  - apply emits_only_quiet_then;
      [apply allowed_write | apply (quiet_signal_line verbose sig) | intros _].
    destruct ((sig =? SIGTERM) || (sig =? SIGINT) || (sig =? SIGQUIT)).
    + apply emits_start_shutdown.
    + destruct (sig =? SIGALRM); [apply emits_handle_alarm | exact I].
Qed.

Lemma emits_reap_iteration (w : wait_result) (cs : Z) :
  emits_only allowed sets (Tinyreaper.reap_iteration e verbose command_pid argv0 w cs).
Proof.
  unfold Tinyreaper.reap_iteration.
  destruct (0 <? w_child w).
  - apply emits_only_quiet_then;
      [apply allowed_write | apply quiet_LOG_process_state | intros _].
    destruct (w_child w =? command_pid); [| exact I].
    apply emits_only_quiet_then; [apply allowed_write | apply quiet_VERBOSEf | intros _].
    apply emits_only_bind; [apply emits_start_shutdown | intros _; exact I].
  - destruct ((w_child w =? -1) && (w_errno w =? ECHILD)); [| exact I].
    apply emits_only_quiet_then; [apply allowed_write | apply quiet_VERBOSE | intros _].
    exact I.
Qed.

Lemma emits_reap_loop (ws : list wait_result) :
  forall cs,
    emits_only allowed sets (Tinyreaper.reap_loop e verbose command_pid argv0 ws cs).
Proof.
  induction ws as [| w ws IH]; intros cs; [exact I |].
  cbn [Tinyreaper.reap_loop].
  apply emits_only_bind; [apply emits_reap_iteration |].
  intros [cs' | cs']; [apply IH | exact I].
Qed.

Lemma emits_parent (ws : list wait_result) : emits_only allowed sets (parent ws).
Proof.
  unfold Tinyreaper.parent.
  apply emits_only_bind; [apply emits_reap_loop |].
  intros [cs |]; [| exact I].
  unfold Tinyreaper.finish.
  apply emits_only_quiet_then; [apply allowed_write | apply quiet_VERBOSEf | intros _].
  exact I.
Qed.

Lemma ends_while_set_signal_handler (sig si_pid : Z) :
  ends_while_set (fun _ => True) (fun c => c = -1) (signal_handler sig si_pid).
Proof.
  apply ends_to_while_set with (Q := allowed).
  - apply ends_signal_handler.
  - apply (emits_only_weaken _ _ _ _ _ (emits_signal_handler sig si_pid)); auto.
    intros v ->. reflexivity.
Qed.

Lemma ends_while_set_quiet_then {A B : Type} (R : B -> Prop) (E : Z -> Prop)
      (p : prog A) (f : A -> prog B) :
  quiet p -> (forall a, ends_while_set R E (f a)) -> ends_while_set R E (bind p f).
Proof.
  induction p as [a | a k IH | c | | ]; simpl; intros Hp Hf; try contradiction; auto.
  destruct a; try contradiction. intros x. apply IH; auto.
Qed.

(** Under a set flag the handler of [SIGALRM] does not return. *)
Lemma SIGALRM_handler_exits_while_set (si_pid : Z) :
  ends_while_set (fun _ => False) (fun c => c = -1) (signal_handler SIGALRM si_pid).
Proof.
  unfold Tinyreaper.signal_handler.
  replace ((SIGALRM =? SIGTERM) && (si_pid =? getpid e)) with false by reflexivity.
  apply ends_while_set_quiet_then; [apply (quiet_signal_line verbose SIGALRM) | intros _].
  replace ((SIGALRM =? SIGTERM) || (SIGALRM =? SIGINT) || (SIGALRM =? SIGQUIT))
    with false by reflexivity.
  replace (SIGALRM =? SIGALRM) with true by reflexivity.
  unfold Tinyreaper.handle_alarm, load. cbn [bind ends_while_set].
  intros x ->.
  apply ends_while_set_quiet_then; [apply quiet_LOG | intros _].
  reflexivity.
Qed.

End TinyreaperRuns.

(** ** tinyreaper: properties of every run *)

(** X1.  Whatever signals are delivered to the handler and wherever they
    preempt the loop, tinyreaper's parent never aborts and never sleeps for
    ever: it is still waiting, or it has called [exit], and then with 0 or
    with [-1]; its own parent sees status 0 or 255 and nothing else.  No
    exit code of the command is passed on. *)
Theorem tinyreaper_exits_with_0_or_255_only
        (e : env) (verbose command_pid : Z) (argv0 : string)
        (ws : list wait_result) (sch : list slot) (flag : Z) :
  ended (fun _ => True)
        (fun c => (c = 0 \/ c = -1) /\ (exit_status c = 0 \/ exit_status c = 255))
        False
        (prun (Tinyreaper.signal_handler e verbose) sch
              (Tinyreaper.parent e verbose command_pid argv0 ws) flag).
Proof.
  pose proof (prun_parent e verbose command_pid argv0 sch ws flag) as Hend.
  unfold ended in *.
  destruct (fst (fst (prun (Tinyreaper.signal_handler e verbose) sch
                           (Tinyreaper.parent e verbose command_pid argv0 ws) flag)))
    as [[] | c | | ]; auto.
  destruct Hend as [-> | (cs & _ & ->)].
  - split; [now right | now right].
  - unfold rc_of_command_status.
    destruct ((WIFEXITED cs && negb (WEXITSTATUS cs =? 0)) || WIFSIGNALED cs).
    + split; now right.
    + split; now left.
Qed.

(** X2.  The loop is left, and the process exits, exactly when [wait] fails
    with [ECHILD]: if some return of [wait] is that failure, every run ends
    in [exit], whatever signals are delivered to the handler; if none is,
    and no [SIGALRM] arrives, every run ends blocked in [wait]. *)
Theorem tinyreaper_exits_once_wait_reports_no_child
        (e : env) (verbose command_pid : Z) (argv0 : string)
        (ws : list wait_result) (sch : list slot) (flag : Z) :
  (existsb leaves_loop ws = true ->
   exists c, fst (fst (prun (Tinyreaper.signal_handler e verbose) sch
                            (Tinyreaper.parent e verbose command_pid argv0 ws) flag))
             = OExit c)
  /\ (existsb leaves_loop ws = false ->
      (forall si_pid, ~ In (Sig SIGALRM si_pid) sch) ->
      fst (fst (prun (Tinyreaper.signal_handler e verbose) sch
                     (Tinyreaper.parent e verbose command_pid argv0 ws) flag))
      = ORet tt).
Proof.
  split.
  - intros Hleave.
    apply (status_at_break_leaves command_pid ws 0) in Hleave.
    pose proof (prun_parent e verbose command_pid argv0 sch ws flag) as Hend.
    unfold ended in Hend.
    destruct (fst (fst (prun (Tinyreaper.signal_handler e verbose) sch
                             (Tinyreaper.parent e verbose command_pid argv0 ws) flag)))
      as [[] | c | | ]; try contradiction.
    now exists c.
  - intros Hstay Hno.
    assert (Hnone : Tinyreaper.status_at_break command_pid ws 0 = None).
    { destruct (Tinyreaper.status_at_break command_pid ws 0) as [cs |] eqn:Hcs;
        [| reflexivity].
      assert (Hne : Tinyreaper.status_at_break command_pid ws 0 <> None)
        by (rewrite Hcs; discriminate).
      apply status_at_break_leaves in Hne. congruence. }
    pose proof (prun_parent_no_alarm e verbose command_pid argv0 sch ws flag Hno) as Hend.
    unfold ended in Hend.
    destruct (fst (fst (prun (Tinyreaper.signal_handler e verbose) sch
                             (Tinyreaper.parent e verbose command_pid argv0 ws) flag)))
      as [[] | c | | ]; try contradiction.
    + reflexivity.
    + destruct Hend as (cs & Hcs & _). congruence.
Qed.

(** X3.  In every run, whatever signals are delivered to the handler and
    wherever they preempt the loop, the only signal tinyreaper ever sends
    is [SIGTERM], to pid 0 (its own process group), and only if it leads
    that group; the only alarm it ever arms is that of 5 seconds.  It never
    signals a single process and never sends [SIGKILL]. *)
Theorem tinyreaper_only_sends_SIGTERM_to_its_group
        (e : env) (verbose command_pid : Z) (argv0 : string)
        (ws : list wait_result) (sch : list slot) (flag : Z) :
  let tr := snd (prun (Tinyreaper.signal_handler e verbose) sch
                      (Tinyreaper.parent e verbose command_pid argv0 ws) flag) in
  (forall pid sig, In (EvKill pid sig) tr ->
                   pid = 0 /\ sig = SIGTERM /\ getpgrp e = getpid e)
  /\ (forall secs, In (EvAlarm secs) tr -> secs = 5).
Proof.
  intros tr.
  assert (Htr : Forall (tinyreaper_event e) tr).
  { apply (prun_emits_only (tinyreaper_event e) (fun v => v = 1)).
    - intros sig si_pid _. apply emits_signal_handler.
    - apply emits_parent. }
  rewrite Forall_forall in Htr.
  split.
  - intros pid sig Hin.
    destruct (Htr _ Hin) as [Hw | [[Heq Hlead] | Heq]]; try discriminate.
    injection Heq as -> ->. auto.
  - intros secs Hin.
    destruct (Htr _ Hin) as [Hw | [[Heq Hlead] | Heq]]; try discriminate.
    now injection Heq as ->.
Qed.

(** X4.  [shutdown_in_progress] is only ever set: in every run, whatever
    signals are delivered to the handler and wherever they preempt the
    loop, the flag ends as it began or as 1; once set it is never cleared,
    there is no way back from a shutdown in progress. *)
Theorem shutdown_in_progress_is_never_cleared
        (e : env) (verbose command_pid : Z) (argv0 : string)
        (ws : list wait_result) (sch : list slot) (flag : Z) :
  let flag' := snd (fst (prun (Tinyreaper.signal_handler e verbose) sch
                              (Tinyreaper.parent e verbose command_pid argv0 ws) flag)) in
  (flag' = flag \/ flag' = 1)
  /\ (truthy flag = true -> truthy flag' = true).
Proof.
  intros flag'.
  assert (H : flag' = flag \/ flag' = 1).
  { apply (prun_emits_only (tinyreaper_event e) (fun v => v = 1)).
    - intros sig si_pid _. apply emits_signal_handler.
    - apply emits_parent. }
  split; [exact H |].
  intros Hset. destruct H as [-> | ->]; [exact Hset | reflexivity].
Qed.

(** X5.  The death clock cannot be outrun: when [SIGALRM] is delivered
    while a shutdown is in progress, the process ends with [exit(-1)],
    whatever it was doing ([p]: the loop at any point, or a handler), and
    whatever signals are delivered after it and preempt the handler. *)
Theorem SIGALRM_during_shutdown_ends_the_process
        {A : Type} (e : env) (verbose si_pid : Z)
        (sch : list slot) (p : prog A) (flag : Z) :
  truthy flag = true ->
  fst (fst (prun (Tinyreaper.signal_handler e verbose) (Sig SIGALRM si_pid :: sch) p flag))
  = OExit (-1).
Proof.
  intros Hset.
  cbn [prun].
  assert (Hend : ended (fun _ : A => False) (fun c => c = -1) False
                       (prun (Tinyreaper.signal_handler e verbose) sch
                             (Tinyreaper.signal_handler e verbose SIGALRM si_pid ;; p) flag)).
  { apply prun_ends_while_set.
    - intros sig q. apply ends_while_set_signal_handler.
    - exact Hset.
    - apply ends_while_set_bind with (R' := fun _ => False).
      + apply SIGALRM_handler_exits_while_set.
      + intros _ []. }
  unfold ended in Hend.
  destruct (fst (fst (prun (Tinyreaper.signal_handler e verbose) sch
                           (Tinyreaper.signal_handler e verbose SIGALRM si_pid ;; p) flag)))
    as [a | c | | ]; try contradiction.
  now subst c.
Qed.

(** X5 at work: the command was reaped and the shutdown begun; the alarm
    arrives while the loop is reaping an orphan, and a [SIGINT] preempts
    the alarm's handler. *)
Lemma SIGALRM_during_shutdown_witness :
  fst (fst (prun (Tinyreaper.signal_handler init_env 1)
                 (Sig SIGALRM 0 :: [Run; Sig SIGINT 77; Run])
                 (Tinyreaper.parent init_env 1 100 "/bin/cmd"
                    [reaped 101 (W_EXITCODE 0); wait_failed ECHILD]) 1))
  = OExit (-1).
Proof.
  apply (SIGALRM_during_shutdown_ends_the_process init_env 1 0
           [Run; Sig SIGINT 77; Run]
           (Tinyreaper.parent init_env 1 100 "/bin/cmd"
              [reaped 101 (W_EXITCODE 0); wait_failed ECHILD]) 1).
  reflexivity.
Defined.

(** The handler of a signal that is neither of the termination class nor a
    [SIGTERM] of the process's own only writes to stdout (and may exit). *)
Lemma signal_handler_only_writes (e : env) (verbose sig si_pid : Z) :
  Tinyreaper.termination_class sig = false \/ (sig = SIGTERM /\ si_pid = getpid e) ->
  emits_only (fun ev => is_write ev = true) (fun _ => False)
             (Tinyreaper.signal_handler e verbose sig si_pid).
Proof.
  intros Hsig. unfold Tinyreaper.signal_handler.
  destruct ((sig =? SIGTERM) && (si_pid =? getpid e)) eqn:Hown.
  - apply quiet_emits_only; [reflexivity | apply quiet_VERBOSE].
  - destruct Hsig as [Hclass | [-> ->]].
    + apply emits_only_quiet_then;
        [reflexivity | apply (quiet_signal_line verbose sig) | intros _].
      unfold Tinyreaper.termination_class in Hclass. rewrite Hclass.
      destruct (sig =? SIGALRM); [| exact I].
      unfold Tinyreaper.handle_alarm, load. cbn [bind emits_only].
      split; [exact I | intros x].
      destruct (truthy x); [| exact I].
      apply emits_only_quiet_then; [reflexivity | apply quiet_LOG | intros _].
      exact I.
    + rewrite !Z.eqb_refl in Hown. discriminate Hown.
Qed.

(** As long as [wait] does not return the command's pid, the loop only
    writes to stdout. *)
Lemma parent_only_writes (e : env) (verbose command_pid : Z) (argv0 : string)
      (ws : list wait_result) :
  Tinyreaper.never_observed command_pid ws ->
  emits_only (fun ev => is_write ev = true) (fun _ => False)
             (Tinyreaper.parent e verbose command_pid argv0 ws).
Proof.
  intros Hnever.
  unfold Tinyreaper.parent.
  apply emits_only_bind.
  - generalize 0 as cs.
    induction ws as [| w ws IH]; intros cs; [exact I |].
    cbn [Tinyreaper.reap_loop].
    apply emits_only_bind.
    + unfold Tinyreaper.reap_iteration.
      destruct (0 <? w_child w) eqn:Hpos.
      * apply emits_only_quiet_then;
          [reflexivity | apply quiet_LOG_process_state | intros _].
        assert (Hne : w_child w <> command_pid).
        { apply Hnever; [now left | now apply Z.ltb_lt]. }
        apply Z.eqb_neq in Hne. rewrite Hne. exact I.
      * destruct ((w_child w =? -1) && (w_errno w =? ECHILD)); [| exact I].
        apply emits_only_quiet_then; [reflexivity | apply quiet_VERBOSE | intros _].
        exact I.
    + intros [cs' | cs']; [| exact I].
      apply IH. intros x Hx. apply Hnever. now right.
  - intros [cs |]; [| exact I].
    unfold Tinyreaper.finish.
    apply emits_only_quiet_then; [reflexivity | apply quiet_VERBOSEf | intros _].
    exact I.
Qed.

(** X6.  A shutdown never begins by itself.  As long as [wait] does not
    return the command's pid and the only signals delivered are [SIGALRM]
    and the [SIGTERM] the process sends to itself, a run of tinyreaper,
    whatever else it reaps and however [wait] fails, signals nobody, arms
    no alarm and leaves [shutdown_in_progress] as it was. *)
Theorem shutdown_begins_only_on_command_exit_or_termination_signal
        (e : env) (verbose command_pid : Z) (argv0 : string)
        (ws : list wait_result) (sch : list slot) (flag : Z) :
  Tinyreaper.never_observed command_pid ws ->
  (forall sig si_pid,
      In (Sig sig si_pid) sch ->
      sig = SIGALRM \/ (sig = SIGTERM /\ si_pid = getpid e)) ->
  effects (snd (prun (Tinyreaper.signal_handler e verbose) sch
                     (Tinyreaper.parent e verbose command_pid argv0 ws) flag)) = []
  /\ snd (fst (prun (Tinyreaper.signal_handler e verbose) sch
                    (Tinyreaper.parent e verbose command_pid argv0 ws) flag)) = flag.
Proof.
  intros Hnever Hsch.
  destruct (prun_emits_only (fun ev => is_write ev = true) (fun _ => False)
              (Tinyreaper.signal_handler e verbose) sch
              (Tinyreaper.parent e verbose command_pid argv0 ws) flag)
    as [Htr Hflag].
  - intros sig si_pid Hin. apply signal_handler_only_writes.
    destruct (Hsch sig si_pid Hin) as [-> | Hown]; [now left | now right].
  - now apply parent_only_writes.
  - split; [now apply effects_of_writes |].
    destruct Hflag as [H | []]. exact H.
Qed.

(** X6 at work: two orphans are reaped, [wait] is interrupted once, a
    [SIGALRM] arrives twice, and so does the process's own [SIGTERM]. *)
Lemma shutdown_begins_only_witness :
  effects (snd (prun (Tinyreaper.signal_handler init_env 1)
                     [Sig SIGALRM 0; Run; Sig SIGALRM 0; Run; Run; Sig SIGTERM 1]
                     (Tinyreaper.parent init_env 1 100 "/bin/cmd"
                        [reaped 101 (W_EXITCODE 0); wait_failed EINTR;
                         reaped 102 (W_KILLED 9)]) 0)) = []
  /\ snd (fst (prun (Tinyreaper.signal_handler init_env 1)
                    [Sig SIGALRM 0; Run; Sig SIGALRM 0; Run; Run; Sig SIGTERM 1]
                    (Tinyreaper.parent init_env 1 100 "/bin/cmd"
                       [reaped 101 (W_EXITCODE 0); wait_failed EINTR;
                        reaped 102 (W_KILLED 9)]) 0)) = 0.
Proof.
  apply (shutdown_begins_only_on_command_exit_or_termination_signal
           init_env 1 100 "/bin/cmd"
           [reaped 101 (W_EXITCODE 0); wait_failed EINTR; reaped 102 (W_KILLED 9)]
           [Sig SIGALRM 0; Run; Sig SIGALRM 0; Run; Run; Sig SIGTERM 1] 0).
  - intros w [<- | [<- | [<- | []]]] Hpos; simpl in *; lia.
  - intros sig si_pid [H | [H | [H | [H | [H | [H | []]]]]]];
      try discriminate H; injection H as <- <-.
    + now left.
    + now left.
    + right. split; reflexivity.
Defined.

(** X7.  The exit code is computed from the status of the last return of
    the command's pid by [wait] before [wait] fails with [ECHILD]: later
    returns of that pid overwrite [command_status].  If the last such return
    is [w], and no [SIGALRM] arrives, tinyreaper exits with
    [rc_of_command_status (w_status w)]; what [wait] would return after the
    [ECHILD] plays no part. *)
Theorem tinyreaper_exit_code_comes_from_the_last_reap_of_the_command
        (e : env) (verbose command_pid : Z) (argv0 : string)
        (pre post more : list wait_result) (w z : wait_result)
        (sch : list slot) (flag : Z) :
  existsb leaves_loop pre = false ->
  0 < w_child w ->
  w_child w = command_pid ->
  Tinyreaper.never_observed command_pid post ->
  existsb leaves_loop post = false ->
  leaves_loop z = true ->
  (forall si_pid, ~ In (Sig SIGALRM si_pid) sch) ->
  fst (fst (prun (Tinyreaper.signal_handler e verbose) sch
                 (Tinyreaper.parent e verbose command_pid argv0
                    (pre ++ w :: post ++ z :: more)) flag))
  = OExit (rc_of_command_status (w_status w)).
Proof.
  intros Hpre Hpos Hcmd Hpost Hpost' Hz Hno.
  pose proof (status_at_break_last_reap command_pid pre post more w z
                Hpre Hpos Hcmd Hpost Hpost' Hz 0) as Hbreak.
  pose proof (prun_parent_no_alarm e verbose command_pid argv0 sch
                (pre ++ w :: post ++ z :: more) flag Hno) as Hend.
  unfold ended in Hend.
  destruct (fst (fst (prun (Tinyreaper.signal_handler e verbose) sch
                           (Tinyreaper.parent e verbose command_pid argv0
                              (pre ++ w :: post ++ z :: more)) flag)))
    as [[] | c | | ]; try contradiction.
  - congruence.
  - destruct Hend as (cs & Hcs & ->). congruence.
Qed.

(** X7 at work: the command exits with 0; its pid is reused by a descendant
    of an adopted orphan, which is killed; an orphan is reaped; [wait]
    fails with [ECHILD].  tinyreaper exits with [-1]. *)
Lemma tinyreaper_exit_code_last_reap_witness :
  fst (fst (prun (Tinyreaper.signal_handler init_env 0) [Run; Sig SIGINT 77]
                 (Tinyreaper.parent init_env 0 100 "/bin/cmd"
                    ([reaped 100 (W_EXITCODE 0)]
                       ++ reaped 100 (W_KILLED 9)
                       :: [reaped 101 (W_EXITCODE 0)]
                       ++ wait_failed ECHILD :: [reaped 102 0])) 0))
  = OExit (rc_of_command_status (w_status (reaped 100 (W_KILLED 9)))).
Proof.
  apply (tinyreaper_exit_code_comes_from_the_last_reap_of_the_command
           init_env 0 100 "/bin/cmd"
           [reaped 100 (W_EXITCODE 0)] [reaped 101 (W_EXITCODE 0)] [reaped 102 0]
           (reaped 100 (W_KILLED 9)) (wait_failed ECHILD) [Run; Sig SIGINT 77] 0).
  - reflexivity.
  - simpl. lia.
  - reflexivity.
  - intros x [<- | []] _. simpl. lia.
  - reflexivity.
  - reflexivity.
  - intros si_pid [H | [H | []]]; discriminate H.
Defined.

(** ** What [write_num] and [LOG_process_state] write *)

Lemma append_assoc (s1 s2 s3 : string) : (s1 +++ s2) +++ s3 = s1 +++ s2 +++ s3.
Proof. induction s1 as [| c s1 IH]; simpl; [reflexivity | now rewrite IH]. Qed.

Lemma text_of_app (tr1 tr2 : list event) :
  text_of (tr1 ++ tr2) = text_of tr1 +++ text_of tr2.
Proof.
  induction tr1 as [| ev tr1 IH]; simpl; [reflexivity |].
  destruct ev; simpl; rewrite IH; [now rewrite append_assoc | reflexivity | reflexivity].
Qed.

(** What a program writes after a logging program has written. *)
Lemma output_of_quiet_then (p q : prog unit) :
  quiet p -> output_of (p ;; q) = output_of p ++ output_of q.
Proof.
  intros Hp.
  change (output_of (p ;; q)) with (snd (exec (p ;; q) 0)).
  change (output_of q) with (snd (exec q 0)).
  rewrite exec_bind, (exec_quiet_unit p 0 Hp).
  destruct (exec q 0) as [[o f] tr]. reflexivity.
Qed.

Lemma decimal_value_from_app (s1 s2 : string) :
  forall acc,
    decimal_value_from acc (s1 +++ s2) =
    match decimal_value_from acc s1 with
    | Some a => decimal_value_from a s2
    | None => None
    end.
Proof.
  induction s1 as [| c s1 IH]; intros acc; simpl; [reflexivity |].
  destruct (digit_value c); [apply IH | reflexivity].
Qed.

(** The bytes of the literal ["0123456789"]. *)
Lemma digit_at_digit (d : Z) :
  0 <= d <= 9 ->
  exists c, digit_at d = String c ""
            /\ digit_value c = Some d
            /\ (0 < d -> c <> "0"%char).
Proof.
  intros Hd.
  assert (Hcases : d = 0 \/ d = 1 \/ d = 2 \/ d = 3 \/ d = 4
                   \/ d = 5 \/ d = 6 \/ d = 7 \/ d = 8 \/ d = 9) by lia.
  repeat (destruct Hcases as [-> | Hcases]); try subst d;
    eexists; (split; [reflexivity | split; [reflexivity |]]);
    first [ lia | discriminate ].
Qed.

Lemma write_num_rec_S (fuel : nat) (n : Z) :
  write_num_rec (S fuel) n =
  ((if 9 <? n then write_num_rec fuel (n / 10) else skip) ;;
   write (digit_at (Z.rem (int_of_unsigned n) 10))).
Proof. reflexivity. Qed.

(** The digits [write_num] writes, most significant first: read back, they
    give [n]; and there is no leading zero. *)
Lemma write_num_rec_digits (fuel : nat) :
  forall n,
    0 <= n < 10 ^ Z.of_nat (S fuel) ->
    n < 2147483648 ->
    exists s k,
      text_of (output_of (write_num_rec (S fuel) n)) = s
      /\ s <> ""
      /\ 0 <= k
      /\ (forall acc, decimal_value_from acc s = Some (acc * 10 ^ k + n))
      /\ (0 < n -> first_char s <> "0"%char).
Proof.
  assert (Hlast : forall n, 0 <= n < 2147483648 ->
                            Z.rem (int_of_unsigned n) 10 = n mod 10).
  { intros n Hn. unfold int_of_unsigned.
    replace (n <? 2147483648) with true by (symmetry; apply Z.ltb_lt; lia).
    apply Z.rem_mod_nonneg; lia. }
  induction fuel as [| fuel IH]; intros n [Hn0 Hn] Hint.
  - change (10 ^ Z.of_nat 1) with 10 in Hn.
    cbn [write_num_rec].
    replace (9 <? n) with false by (symmetry; apply Z.ltb_ge; lia).
    rewrite Hlast by lia. rewrite Z.mod_small by lia.
    destruct (digit_at_digit n) as (c & Hc & Hv & Hnz); [lia |].
    exists (String c ""), 1. rewrite Hc.
    split; [reflexivity | split; [discriminate | split; [lia | split]]].
    + intros acc. cbn [decimal_value_from]. rewrite Hv. f_equal. change (10 ^ 1) with 10. lia.
    + exact Hnz.
  - rewrite write_num_rec_S.
    destruct (digit_at_digit (n mod 10)) as (c & Hc & Hv & Hnz);
      [pose proof (Z.mod_pos_bound n 10 ltac:(lia)); lia |].
    rewrite Hlast by (split; assumption). rewrite Hc.
    destruct (9 <? n) eqn:Hbig.
    + apply Z.ltb_lt in Hbig.
      assert (Hpow : 10 ^ Z.of_nat (S (S fuel)) = 10 * 10 ^ Z.of_nat (S fuel)).
      { rewrite (Nat2Z.inj_succ (S fuel)). apply Z.pow_succ_r. lia. }
      destruct (IH (n / 10)) as (s & k & Hs & Hne & Hk & Hval & Hlead).
      * split; [apply Z.div_pos; lia |].
        apply Z.div_lt_upper_bound; [lia |]. rewrite <- Hpow. exact Hn.
      * apply Z.div_lt_upper_bound; lia.
      * exists (s +++ String c ""), (k + 1).
        rewrite output_of_quiet_then by apply quiet_write_num_rec.
        rewrite text_of_app, Hs.
        split; [reflexivity | split; [| split; [lia | split]]].
        -- destruct s; [now contradiction Hne | discriminate].
        -- intros acc. rewrite decimal_value_from_app, Hval. cbn [decimal_value_from]. rewrite Hv.
           f_equal. rewrite Z.pow_add_r by lia. change (10 ^ 1) with 10.
           pose proof (Z.div_mod n 10 ltac:(lia)). lia.
        -- intros _. destruct s; [now contradiction Hne |]. simpl.
           apply Hlead. apply Z.div_str_pos. lia.
    + apply Z.ltb_ge in Hbig.
      rewrite Z.mod_small in * by lia.
      exists (String c ""), 1.
      split; [reflexivity | split; [discriminate | split; [lia | split]]].
      * intros acc. cbn [decimal_value_from]. rewrite Hv. f_equal. change (10 ^ 1) with 10. lia.
      * exact Hnz.
Qed.

Lemma write_num_digits (n : Z) :
  0 <= n < 2147483648 ->
  exists s,
    text_of (output_of (write_num n)) = s
    /\ decimal_value s = Some n
    /\ (0 < n -> first_char s <> "0"%char).
Proof.
  intros Hn.
  destruct (write_num_rec_digits 9 n) as (s & k & Hs & Hne & Hk & Hval & Hlead).
  - change (10 ^ Z.of_nat 10) with 10000000000. lia.
  - lia.
  - exists s. split; [exact Hs | split; [| exact Hlead]].
    unfold decimal_value. destruct s; [now contradiction Hne |].
    rewrite Hval. reflexivity.
Qed.

(** X8.  [write_num] writes the decimal representation of its argument:
    for every [n] an [int] can hold without wrapping ([0 <= n < 2^31]), the
    bytes written, read back as a decimal number, give [n], and for
    [n > 0] the first byte is not a zero. *)
Theorem write_num_writes_the_decimal_digits (n : Z) :
  0 <= n < 2147483648 ->
  decimal_value (text_of (output_of (write_num n))) = Some n
  /\ (0 < n -> first_char (text_of (output_of (write_num n))) <> "0"%char).
Proof.
  intros Hn.
  destruct (write_num_digits n Hn) as (s & Hs & Hval & Hlead).
  rewrite Hs. split; assumption.
Qed.

(** X8 at work: the largest pid of a 64-bit Linux. *)
Lemma write_num_witness :
  decimal_value (text_of (output_of (write_num 4194304))) = Some 4194304
  /\ (0 < 4194304 ->
      first_char (text_of (output_of (write_num 4194304))) <> "0"%char).
Proof.
  apply (write_num_writes_the_decimal_digits 4194304). lia.
Defined.

(** The byte [write_num] writes last is read at [digits + a % 10]. *)
Lemma write_num_rec_last_index (fuel : nat) (n : Z) :
  write_num_rec (S fuel) n
  = ((if 9 <? n then write_num_rec fuel (n / 10) else skip) ;;
     write (digit_at (last_digit_index n))).
Proof. reflexivity. Qed.



Lemma WEXITSTATUS_range (status : Z) : 0 <= WEXITSTATUS status < 256.
Proof.
  unfold WEXITSTATUS.
  rewrite Z.shiftr_land.
  change (Z.shiftr 65280 8) with (Z.ones 8).
  rewrite Z.land_ones by lia.
  change (2 ^ 8) with 256. apply Z.mod_pos_bound. lia.
Qed.

Lemma WTERMSIG_range (status : Z) : 0 <= WTERMSIG status < 128.
Proof.
  unfold WTERMSIG.
  change 127 with (Z.ones 7).
  rewrite Z.land_ones by lia.
  change (2 ^ 7) with 128. apply Z.mod_pos_bound. lia.
Qed.

(** The line of [LOG_process_state], [verb] being [" exited with "] or
    [" terminated with "]. *)
Lemma process_state_line (pid code : Z) (verb : string) :
  0 <= pid < 2147483648 ->
  0 <= code < 2147483648 ->
  exists p c,
    text_of (output_of (WRITE_LITERAL_STRING "child " ;;
                        write_num pid ;;
                        WRITE_LITERAL_STRING verb ;;
                        write_num code ;;
                        WRITE_LITERAL_STRING NL))
    = ("child " +++ NUL) +++ p +++ (verb +++ NUL) +++ c +++ (NL +++ NUL)
    /\ decimal_value p = Some pid
    /\ decimal_value c = Some code.
Proof.
  intros Hpid Hcode.
  destruct (write_num_digits pid Hpid) as (p & Hp & Hpv & _).
  destruct (write_num_digits code Hcode) as (c & Hc & Hcv & _).
  exists p, c. split; [| split; assumption].
  rewrite output_of_quiet_then by apply quiet_WRITE_LITERAL_STRING.
  rewrite output_of_quiet_then by apply quiet_write_num.
  rewrite output_of_quiet_then by apply quiet_WRITE_LITERAL_STRING.
  rewrite output_of_quiet_then by apply quiet_write_num.
  rewrite !text_of_app, Hp, Hc.
  unfold WRITE_LITERAL_STRING, write, output_of. cbn [exec run_action snd app text_of].
  assert (Hnil : forall s, s +++ "" = s)
    by (induction s as [| a s IH]; simpl; [reflexivity | now rewrite IH]).
  now rewrite !Hnil.
Qed.

(** X10.  [LOG_process_state] writes nothing for a pid that is not
    positive and for a status that is neither an exit nor a termination by
    signal (a stopped or continued child).  For a child that exited it
    writes one line, ["child <pid> exited with <code>"], and for a child
    killed by a signal ["child <pid> terminated with <signal>"]: the numbers
    in it read back as the pid and as [WEXITSTATUS] or [WTERMSIG] of the
    status.  Each of the three literals of the line is written with its
    terminating NUL. *)
Theorem LOG_process_state_writes_pid_and_code (pid status : Z) :
  (pid <= 0 \/ (WIFEXITED status = false /\ WIFSIGNALED status = false) ->
   output_of (LOG_process_state pid status) = [])
  /\ (0 < pid < 2147483648 ->
      WIFEXITED status = true ->
      exists p c,
        text_of (output_of (LOG_process_state pid status))
        = ("child " +++ NUL) +++ p +++ (" exited with " +++ NUL) +++ c +++ (NL +++ NUL)
        /\ decimal_value p = Some pid
        /\ decimal_value c = Some (WEXITSTATUS status))
  /\ (0 < pid < 2147483648 ->
      WIFSIGNALED status = true ->
      exists p c,
        text_of (output_of (LOG_process_state pid status))
        = ("child " +++ NUL) +++ p +++ (" terminated with " +++ NUL) +++ c +++ (NL +++ NUL)
        /\ decimal_value p = Some pid
        /\ decimal_value c = Some (WTERMSIG status)).
Proof.
  split; [| split].
  - intros [Hpid | [Hexited Hsignaled]]; unfold LOG_process_state.
    + replace (0 <? pid) with false by (symmetry; apply Z.ltb_ge; lia). reflexivity.
    + rewrite Hexited, Hsignaled. now destruct (0 <? pid).
  - intros Hpid Hexited. unfold LOG_process_state.
    replace (0 <? pid) with true by (symmetry; apply Z.ltb_lt; lia).
    rewrite Hexited.
    apply process_state_line; [lia |].
    pose proof (WEXITSTATUS_range status). lia.
  - intros Hpid Hsignaled. unfold LOG_process_state.
    replace (0 <? pid) with true by (symmetry; apply Z.ltb_lt; lia).
    destruct (WIFEXITED status) eqn:Hexited.
    + apply WIFEXITED_not_WIFSIGNALED in Hexited. congruence.
    + rewrite Hsignaled.
      apply process_state_line; [lia |].
      pose proof (WTERMSIG_range status). lia.
Qed.

(** ** Reading the command line *)

Lemma exec_returning {A : Type} (p : prog A) (a0 : A) :
  quiet p ->
  ends (fun a => a = a0) (fun _ => False) False p ->
  forall flag, exists tr, exec p flag = (ORet a0, flag, tr) /\ effects tr = [].
Proof.
  intros Hq He flag.
  destruct (exec_quiet p flag Hq) as (a & tr & Hexec & Heff).
  pose proof (exec_ends _ _ _ p flag He) as Hend.
  unfold ended in Hend. rewrite Hexec in Hend. cbn [fst] in Hend. subst a.
  now exists tr.
Qed.

Lemma has_letter_app (c : ascii) (s1 s2 : string) :
  has_letter c (s1 +++ s2) = has_letter c s1 || has_letter c s2.
Proof.
  induction s1 as [| c' s1 IH]; simpl; [reflexivity |].
  now rewrite IH, orb_assoc.
Qed.

Lemma length_append (s1 s2 : string) :
  String.length (s1 +++ s2) = (String.length s1 + String.length s2)%nat.
Proof. induction s1 as [| c s1 IH]; simpl; [reflexivity | now rewrite IH]. Qed.

Lemma skipn_length_app {A : Type} (l1 l2 : list A) :
  skipn (List.length l1) (l1 ++ l2) = l2.
Proof. induction l1 as [| a l1 IH]; simpl; [reflexivity | exact IH]. Qed.

(** What an option argument is made of. *)
Lemma is_option_parts (known : ascii -> bool) (arg : string) :
  is_option known arg = true ->
  Ascii.eqb (first_char arg) "-" = true
  /\ (strlen arg =? 1) = false
  /\ only_letters known (letters_of arg) = true.
Proof.
  unfold is_option. intros H.
  apply andb_true_iff in H. destruct H as [H Hletters].
  apply andb_true_iff in H. destruct H as [Hdash Hlen].
  apply negb_true_iff in Hlen. auto.
Qed.

Section TinyreaperCommandLine.

Import TinyreaperMain.

Lemma quiet_TM_print_usage : quiet print_usage.
Proof. unfold print_usage, printf. quiet_tac. Qed.

(** The flag letters [v] are read to the end of the argument. *)
Lemma TM_read_flags_returns (letters : string) :
  only_letters tinyreaper_flag letters = true ->
  forall verbose,
    quiet (read_flags letters verbose)
    /\ ends (fun v' => v' = if has_letter "v" letters then 1 else verbose)
            (fun _ => False) False (read_flags letters verbose).
Proof.
  induction letters as [| c letters IH]; intros Hok verbose.
  - split; [exact I | reflexivity].
  - cbn [only_letters] in Hok. apply andb_true_iff in Hok. destruct Hok as [Hc Hok].
    unfold tinyreaper_flag in Hc.
    cbn [read_flags has_letter]. rewrite Hc. cbn [orb].
    destruct (IH Hok 1) as [Hq He].
    split.
    + apply quiet_bind; [apply quiet_VERBOSEf | intros _; exact Hq].
    + apply ends_quiet_then; [apply quiet_VERBOSEf | intros _].
      apply (ends_weaken _ _ _ _ _ _ _ He); auto.
      intros v' ->. now destruct (has_letter "v" letters).
Qed.

(** The option arguments are read one after the other; parsing goes on
    with what follows them. *)
Lemma TM_exec_parse_options (opts : list string) :
  forallb (is_option tinyreaper_flag) opts = true ->
  forall (args : list string) (i verbose flag : Z),
  exists tr0,
    effects tr0 = []
    /\ exec (parse_arguments (opts ++ args) i verbose) flag =
       let '(o, f, tr) :=
         exec (parse_arguments args (i + Z.of_nat (List.length opts))
                 (if has_letter "v" (letters_of_all opts) then 1 else verbose)) flag in
       (o, f, tr0 ++ tr).
Proof.
  induction opts as [| arg opts IH]; intros Hopts args i verbose flag.
  - exists []. split; [reflexivity |].
    cbn [app List.length letters_of_all has_letter Z.of_nat].
    replace (i + 0) with i by lia.
    now destruct (exec (parse_arguments args i verbose) flag) as [[o f] tr].
  - cbn [forallb] in Hopts. apply andb_true_iff in Hopts.
    destruct Hopts as [Harg Hopts].
    destruct (is_option_parts _ _ Harg) as (Hdash & Hlen & Hletters).
    destruct (TM_read_flags_returns _ Hletters verbose) as [Hq He].
    destruct (exec_returning _ _ Hq He flag) as (tr1 & Hexec1 & Heff1).
    destruct (IH Hopts args (i + 1)
                 (if has_letter "v" (letters_of arg) then 1 else verbose) flag)
      as (tr2 & Heff2 & Hexec2).
    exists (tr1 ++ tr2). split; [now rewrite effects_app, Heff1, Heff2 |].
    cbn [app parse_arguments]. rewrite Hdash. cbv zeta. rewrite Hlen.
    rewrite exec_bind, Hexec1, Hexec2.
    cbn [List.length letters_of_all]. rewrite has_letter_app.
    replace (i + 1 + Z.of_nat (List.length opts))
      with (i + Z.of_nat (S (List.length opts))) by lia.
    replace (if has_letter "v" (letters_of_all opts)
             then 1
             else if has_letter "v" (letters_of arg) then 1 else verbose)
      with (if has_letter "v" (letters_of arg) || has_letter "v" (letters_of_all opts)
            then 1 else verbose)
      by (destruct (has_letter "v" (letters_of arg)),
                   (has_letter "v" (letters_of_all opts)); reflexivity).
    destruct (exec (parse_arguments args (i + Z.of_nat (S (List.length opts)))
                      (if has_letter "v" (letters_of arg)
                          || has_letter "v" (letters_of_all opts)
                       then 1 else verbose)) flag) as [[o f] tr].
    now rewrite app_assoc.
Qed.

Lemma quiet_TM_make_me_a_reaper (e : env) (k : startup) : quiet (make_me_a_reaper e k).
Proof.
  unfold make_me_a_reaper. cbv zeta.
  destruct (prctl_rc k =? -1); [| exact I].
  apply quiet_bind; [apply quiet_LOGf | intros _; apply quiet_LOG].
Qed.

Lemma quiet_TM_initialize_signal_handler (e : env) (k : startup) :
  quiet (initialize_signal_handler e k).
Proof.
  unfold initialize_signal_handler.
  induction sigs as [| sig l IH]; cbn [install_handlers]; [exact I |].
  destruct (sig =? -1); [exact I |].
  apply quiet_bind; [| intros _; exact IH].
  destruct (sigaction_rc k sig =? -1); [apply quiet_LOGf | exact I].
Qed.

(** For a command line of options [-v] and a command, [main] gets as far
    as [fork], whatever [prctl] and [sigaction] return. *)
Lemma TM_exec_main_to_fork (e : env) (k : startup) (prog : string)
      (opts : list string) (cmd : string) (rest : list string)
      (ws : list wait_result) (flag : Z) :
  forallb (is_option tinyreaper_flag) opts = true ->
  Ascii.eqb (first_char cmd) "-" = false ->
  exists tr0,
    effects tr0 = []
    /\ exec (main e k (prog :: opts ++ cmd :: rest) ws) flag =
       let '(o, f, tr) :=
         exec (fork_and_run e k (int_of_bool (has_letter "v" (letters_of_all opts)))
                 (cmd :: rest) ws) flag in
       (o, f, tr0 ++ tr).
Proof.
  intros Hopts Hcmd.
  destruct (TM_exec_parse_options opts Hopts (cmd :: rest) 1 0 flag)
    as (tr0 & Heff0 & Hparse).
  set (verbose := int_of_bool (has_letter "v" (letters_of_all opts))).
  exists (tr0
          ++ output_of (make_me_a_reaper e k)
          ++ output_of (initialize_signal_handler e k)
          ++ output_of (Tinyreaper.VERBOSEf verbose
                          ("tinyreaper (pid: " +++ dec (getpid e) +++ ", parent: "
                           +++ dec (getppid k) +++ ", pgrp: " +++ dec (getpgrp e)
                           +++ ")"))).
  split.
  - rewrite !effects_app, Heff0.
    rewrite (effects_output_of _ (quiet_TM_make_me_a_reaper e k)).
    rewrite (effects_output_of _ (quiet_TM_initialize_signal_handler e k)).
    now rewrite (effects_output_of _ (quiet_VERBOSEf verbose _)).
  - unfold main. cbn [tl]. rewrite exec_bind, Hparse.
    cbn [parse_arguments]. rewrite Hcmd. cbn [exec fst snd].
    replace (1 + Z.of_nat (List.length opts) =? -1) with false
      by (symmetry; apply Z.eqb_neq; lia).
    replace (Z.to_nat (1 + Z.of_nat (List.length opts)))
      with (S (List.length opts)) by lia.
    cbn [skipn]. rewrite skipn_length_app.
    rewrite (exec_quiet_then _ _ _ (quiet_TM_make_me_a_reaper e k)).
    rewrite (exec_quiet_then _ _ _ (quiet_TM_initialize_signal_handler e k)).
    change (if has_letter "v" (letters_of_all opts) then 1 else 0) with verbose.
    rewrite (exec_quiet_then _ _ _ (quiet_VERBOSEf verbose _)).
    destruct (exec (fork_and_run e k verbose (cmd :: rest) ws) flag) as [[o f] tr].
    now rewrite app_nil_r, <- !app_assoc.
Qed.

End TinyreaperCommandLine.

(** The first letter that is not [v] ends the parse. *)
Lemma TM_exec_read_flags_stops (pre : string) (c : ascii) (post : string) :
  only_letters tinyreaper_flag pre = true ->
  tinyreaper_flag c = false ->
  forall verbose flag,
  exists tr0,
    effects tr0 = []
    /\ exec (TinyreaperMain.read_flags (pre +++ String c post) verbose) flag =
       (OExit (if Ascii.eqb c "V" || Ascii.eqb c "h" then 0 else -1), flag,
        tr0 ++ output_of (if Ascii.eqb c "V"
                          then Tinyreaper.LOG ("version: " +++ TinyreaperMain.VERSION)
                          else if Ascii.eqb c "h"
                               then TinyreaperMain.print_usage
                               else Tinyreaper.LOGf ("Unknown flag: " +++ chr c) ;;
                                    TinyreaperMain.print_usage)).
Proof.
  intros Hpre Hc.
  unfold tinyreaper_flag in Hc.
  induction pre as [| c' pre IH]; intros verbose flag.
  - exists (output_of (Tinyreaper.VERBOSEf verbose ("read flag: " +++ chr c))).
    split; [apply effects_output_of, quiet_VERBOSEf |].
    cbn [String.append TinyreaperMain.read_flags].
    rewrite (exec_quiet_then _ _ _ (quiet_VERBOSEf verbose _)), Hc.
    destruct (Ascii.eqb c "V"); [| destruct (Ascii.eqb c "h")]; cbn [orb].
    + rewrite (exec_quiet_then _ _ _ (quiet_LOG _)). cbn [exec].
      now rewrite app_nil_r.
    + rewrite (exec_quiet_then _ _ _ quiet_TM_print_usage). cbn [exec].
      now rewrite app_nil_r.
    + rewrite (exec_quiet_then _ _ _ (quiet_LOGf _)).
      rewrite (exec_quiet_then _ _ _ quiet_TM_print_usage). cbn [exec].
      rewrite (output_of_quiet_then _ _ (quiet_LOGf _)).
      now rewrite app_nil_r.
  - cbn [only_letters] in Hpre. apply andb_true_iff in Hpre.
    destruct Hpre as [Hc' Hpre]. unfold tinyreaper_flag in Hc'.
    destruct (IH Hpre 1 flag) as (tr1 & Heff1 & Hexec1).
    exists (output_of (Tinyreaper.VERBOSEf verbose ("read flag: " +++ chr c')) ++ tr1).
    split.
    + rewrite effects_app, Heff1.
      now rewrite (effects_output_of _ (quiet_VERBOSEf verbose _)).
    + cbn [String.append TinyreaperMain.read_flags].
      rewrite (exec_quiet_then _ _ _ (quiet_VERBOSEf verbose _)), Hc', Hexec1.
      now rewrite app_assoc.
Qed.

(** ** tinyreaper: from the command line to the command *)

(** X11.  tinyreaper takes every leading argument that starts with a dash
    as options and the first argument that does not as the command: for
    a command line of [-v] options followed by a command and its arguments,
    the child of [fork] calls [execv] with exactly the command and its
    arguments, in order, the options stripped; what follows the command is
    never read as an option.  Nothing that fails on the way (registering as
    subreaper, installing a handler) stops it: until then it only writes to
    stdout. *)
Theorem tinyreaper_hands_the_command_line_to_execv
        (e : env) (k : startup) (prog : string) (opts : list string)
        (cmd : string) (rest : list string) (ws : list wait_result) (flag : Z) :
  forallb (is_option tinyreaper_flag) opts = true ->
  Ascii.eqb (first_char cmd) "-" = false ->
  fork_rc k = 0 ->
  execv_errno k = None ->
  exists tr,
    exec (TinyreaperMain.main e k (prog :: opts ++ cmd :: rest) ws) flag
    = (ORet (Replaced (cmd :: rest)), flag, tr)
    /\ effects tr = [].
Proof.
  intros Hopts Hcmd Hfork Hexecv.
  destruct (TM_exec_main_to_fork e k prog opts cmd rest ws flag Hopts Hcmd)
    as (tr0 & Heff0 & Hmain).
  exists tr0. split; [| exact Heff0].
  rewrite Hmain. unfold TinyreaperMain.fork_and_run. cbv zeta.
  rewrite Hfork, Hexecv. cbn [Z.eqb exec].
  now rewrite app_nil_r.
Qed.

(** X11 at work: [prctl] and every [sigaction] fail; the command's own
    option [-l] stays with the command. *)
Lemma tinyreaper_hands_the_command_line_witness :
  exists tr,
    exec (TinyreaperMain.main init_env failing_startup
            ("tinyreaper" :: ["-v"; "-vv"] ++ "/bin/ls" :: ["-l"; "/tmp"]) []) 0
    = (ORet (Replaced ("/bin/ls" :: ["-l"; "/tmp"])), 0, tr)
    /\ effects tr = [].
Proof.
  apply (tinyreaper_hands_the_command_line_to_execv
           init_env failing_startup "tinyreaper" ["-v"; "-vv"] "/bin/ls" ["-l"; "/tmp"]
           [] 0); reflexivity.
Defined.

(** X12.  In the parent, [main] runs the reap loop with [verbose] set if
    and only if some option [-v] was given, with what [fork] returned as the
    command's pid (also when that is [-1]), and with the command's name for
    the log; before the loop it only writes to stdout. *)
Theorem tinyreaper_main_runs_the_loop_in_the_parent
        (e : env) (k : startup) (prog : string) (opts : list string)
        (cmd : string) (rest : list string) (ws : list wait_result) (flag : Z) :
  forallb (is_option tinyreaper_flag) opts = true ->
  Ascii.eqb (first_char cmd) "-" = false ->
  fork_rc k <> 0 ->
  exists tr0,
    effects tr0 = []
    /\ exec (TinyreaperMain.main e k (prog :: opts ++ cmd :: rest) ws) flag =
       let '(o, f, tr) :=
         exec (Tinyreaper.parent e (int_of_bool (negb (List.length opts =? 0)%nat))
                 (fork_rc k) cmd ws) flag in
       (match o with
        | ORet _ => ORet Waiting
        | OExit c => OExit c
        | OAbort => OAbort
        | OSleep => OSleep
        end, f, tr0 ++ tr).
Proof.
  intros Hopts Hcmd Hfork.
  destruct (TM_exec_main_to_fork e k prog opts cmd rest ws flag Hopts Hcmd)
    as (tr0 & Heff0 & Hmain).
  exists tr0. split; [exact Heff0 |].
  rewrite Hmain. unfold TinyreaperMain.fork_and_run. cbv zeta.
  apply Z.eqb_neq in Hfork. rewrite Hfork. cbn [hd].
  assert (Hv : has_letter "v" (letters_of_all opts)
               = negb (List.length opts =? 0)%nat).
  { destruct opts as [| arg opts']; [reflexivity |].
    cbn [forallb] in Hopts. apply andb_true_iff in Hopts. destruct Hopts as [Harg _].
    destruct (is_option_parts _ _ Harg) as (Hdash & Hlen & Hletters).
    cbn [letters_of_all List.length Nat.eqb negb]. rewrite has_letter_app.
    destruct arg as [| d letters]; [discriminate Hdash |].
    destruct letters as [| c letters]; [discriminate Hlen |].
    cbn [letters_of only_letters] in Hletters.
    apply andb_true_iff in Hletters. destruct Hletters as [Hc _].
    unfold tinyreaper_flag in Hc.
    cbn [letters_of has_letter]. now rewrite Hc. }
  rewrite Hv, exec_bind.
  destruct (exec (Tinyreaper.parent e (int_of_bool (negb (List.length opts =? 0)%nat))
                    (fork_rc k) cmd ws) flag) as [[[[] | c | | ] f] tr];
    cbn [exec]; now rewrite ?app_nil_r.
Qed.

(** X12 at work: no option; the command exits with 3 and leaves no
    orphan. *)
Lemma tinyreaper_main_runs_the_loop_witness :
  exists tr0,
    effects tr0 = []
    /\ exec (TinyreaperMain.main init_env parent_startup
               ("tinyreaper" :: [] ++ "/bin/cmd" :: [])
               [reaped 100 (W_EXITCODE 3); wait_failed ECHILD]) 0 =
       let '(o, f, tr) :=
         exec (Tinyreaper.parent init_env
                 (int_of_bool (negb (List.length (@nil string) =? 0)%nat))
                 (fork_rc parent_startup) "/bin/cmd"
                 [reaped 100 (W_EXITCODE 3); wait_failed ECHILD]) 0 in
       (match o with
        | ORet _ => ORet Waiting
        | OExit c => OExit c
        | OAbort => OAbort
        | OSleep => OSleep
        end, f, tr0 ++ tr).
Proof.
  apply (tinyreaper_main_runs_the_loop_in_the_parent
           init_env parent_startup "tinyreaper" [] "/bin/cmd" []
           [reaped 100 (W_EXITCODE 3); wait_failed ECHILD] 0);
    [reflexivity | reflexivity | discriminate].
Defined.

(** X13.  In an option argument the first letter that is not [v] ends
    tinyreaper before anything is started, whatever follows on the command
    line: [V] writes the version and exits with 0, [h] writes the usage and
    exits with 0, every other letter writes ["Unknown flag"] and the usage
    and exits with [-1]. *)
Theorem tinyreaper_first_letter_other_than_v_ends_it
        (e : env) (k : startup) (prog : string) (opts : list string)
        (pre : string) (c : ascii) (post : string) (more : list string)
        (ws : list wait_result) (flag : Z) :
  forallb (is_option tinyreaper_flag) opts = true ->
  only_letters tinyreaper_flag pre = true ->
  tinyreaper_flag c = false ->
  exists tr0,
    effects tr0 = []
    /\ exec (TinyreaperMain.main e k
               (prog :: opts ++ String "-" (pre +++ String c post) :: more) ws) flag =
       (OExit (if Ascii.eqb c "V" || Ascii.eqb c "h" then 0 else -1), flag,
        tr0 ++ output_of (if Ascii.eqb c "V"
                          then Tinyreaper.LOG ("version: " +++ TinyreaperMain.VERSION)
                          else if Ascii.eqb c "h"
                               then TinyreaperMain.print_usage
                               else Tinyreaper.LOGf ("Unknown flag: " +++ chr c) ;;
                                    TinyreaperMain.print_usage)).
Proof.
  intros Hopts Hpre Hc.
  destruct (TM_exec_parse_options opts Hopts
              (String "-" (pre +++ String c post) :: more) 1 0 flag)
    as (tr0 & Heff0 & Hparse).
  destruct (TM_exec_read_flags_stops pre c post Hpre Hc
              (if has_letter "v" (letters_of_all opts) then 1 else 0) flag)
    as (tr1 & Heff1 & Hflags).
  exists (tr0 ++ tr1). split; [now rewrite effects_app, Heff0, Heff1 |].
  unfold TinyreaperMain.main. cbn [tl]. rewrite exec_bind, Hparse.
  cbn [TinyreaperMain.parse_arguments first_char letters_of].
  replace (Ascii.eqb "-" "-") with true by reflexivity. cbv zeta.
  replace (strlen (String "-" (pre +++ String c post)) =? 1) with false.
  - rewrite exec_bind, Hflags. now rewrite app_assoc.
  - symmetry. apply Z.eqb_neq. unfold strlen. cbn [String.length].
    rewrite length_append. cbn [String.length]. lia.
Qed.

(** X13 at work: [-vq]. *)
Lemma tinyreaper_first_letter_witness :
  exists tr0,
    effects tr0 = []
    /\ exec (TinyreaperMain.main init_env parent_startup
               ("tinyreaper" :: ["-v"] ++ String "-" ("v" +++ String "q" "") :: ["/bin/ls"])
               []) 0 =
       (OExit (if Ascii.eqb "q" "V" || Ascii.eqb "q" "h" then 0 else -1), 0,
        tr0 ++ output_of (if Ascii.eqb "q" "V"
                          then Tinyreaper.LOG ("version: " +++ TinyreaperMain.VERSION)
                          else if Ascii.eqb "q" "h"
                               then TinyreaperMain.print_usage
                               else Tinyreaper.LOGf ("Unknown flag: " +++ chr "q") ;;
                                    TinyreaperMain.print_usage)).
Proof.
  apply (tinyreaper_first_letter_other_than_v_ends_it
           init_env parent_startup "tinyreaper" ["-v"] "v" "q" "" ["/bin/ls"] [] 0);
    reflexivity.
Defined.

(** X14.  Without a command tinyreaper starts nothing: if every argument
    is an option [-v], or there is no argument at all, it writes
    ["Missing command"] and the usage and exits with [-1]; an argument that
    is a dash alone makes it write ["Missing option"] and the usage and
    exit with [-1], whatever follows. *)
Theorem tinyreaper_needs_a_command
        (e : env) (k : startup) (prog : string) (opts more : list string)
        (ws : list wait_result) (flag : Z) :
  forallb (is_option tinyreaper_flag) opts = true ->
  (exists tr0,
      effects tr0 = []
      /\ exec (TinyreaperMain.main e k (prog :: opts) ws) flag =
         (OExit (-1), flag,
          tr0 ++ output_of (Tinyreaper.LOG "Missing command" ;;
                            TinyreaperMain.print_usage)))
  /\ (exists tr0,
         effects tr0 = []
         /\ exec (TinyreaperMain.main e k (prog :: opts ++ "-" :: more) ws) flag =
            (OExit (-1), flag,
             tr0 ++ output_of (Tinyreaper.LOG "Missing option" ;;
                               TinyreaperMain.print_usage)))
  /\ exec (TinyreaperMain.main e k [] ws) flag =
     (OExit (-1), flag,
      output_of (Tinyreaper.LOG "Missing command" ;; TinyreaperMain.print_usage)).
Proof.
  intros Hopts.
  assert (Hsay : forall (A : Type) msg,
             exec (Tinyreaper.LOG msg ;; TinyreaperMain.print_usage ;; PExit (-1)) flag
             = (OExit (-1) : outcome A, flag,
                output_of (Tinyreaper.LOG msg ;; TinyreaperMain.print_usage))).
  { intros A msg.
    rewrite (exec_quiet_then _ _ _ (quiet_LOG _)).
    rewrite (exec_quiet_then _ _ _ quiet_TM_print_usage). cbn [exec].
    rewrite (output_of_quiet_then _ _ (quiet_LOG _)).
    now rewrite app_nil_r. }
  split; [| split].
  - destruct (TM_exec_parse_options opts Hopts [] 1 0 flag) as (tr0 & Heff0 & Hparse).
    rewrite app_nil_r in Hparse.
    exists tr0. split; [exact Heff0 |].
    unfold TinyreaperMain.main. cbn [tl]. rewrite exec_bind, Hparse.
    cbn [TinyreaperMain.parse_arguments exec fst snd].
    change (-1 =? -1) with true. cbv iota.
    rewrite Hsay. now rewrite app_nil_r.
  - destruct (TM_exec_parse_options opts Hopts ("-" :: more) 1 0 flag)
      as (tr0 & Heff0 & Hparse).
    exists tr0. split; [exact Heff0 |].
    unfold TinyreaperMain.main. cbn [tl]. rewrite exec_bind, Hparse.
    cbn [TinyreaperMain.parse_arguments first_char].
    replace (Ascii.eqb "-" "-") with true by reflexivity. cbv zeta.
    replace (strlen "-" =? 1) with true by reflexivity. cbv iota.
    now rewrite Hsay.
  - unfold TinyreaperMain.main.
    cbn [tl TinyreaperMain.parse_arguments bind fst snd].
    change (-1 =? -1) with true. cbv iota.
    apply Hsay.
Qed.

(** X14 at work: [tinyreaper -v -vv]. *)
Lemma tinyreaper_needs_a_command_witness :
  (exists tr0,
      effects tr0 = []
      /\ exec (TinyreaperMain.main init_env parent_startup
                 ("tinyreaper" :: ["-v"; "-vv"]) []) 0 =
         (OExit (-1), 0,
          tr0 ++ output_of (Tinyreaper.LOG "Missing command" ;;
                            TinyreaperMain.print_usage)))
  /\ (exists tr0,
         effects tr0 = []
         /\ exec (TinyreaperMain.main init_env parent_startup
                    ("tinyreaper" :: ["-v"; "-vv"] ++ "-" :: ["/bin/ls"]) []) 0 =
            (OExit (-1), 0,
             tr0 ++ output_of (Tinyreaper.LOG "Missing option" ;;
                               TinyreaperMain.print_usage)))
  /\ exec (TinyreaperMain.main init_env parent_startup [] []) 0 =
     (OExit (-1), 0,
      output_of (Tinyreaper.LOG "Missing command" ;; TinyreaperMain.print_usage)).
Proof.
  apply (tinyreaper_needs_a_command init_env parent_startup "tinyreaper"
           ["-v"; "-vv"] ["/bin/ls"] [] 0).
  reflexivity.
Defined.

(** ** little-reaper.c: from the command line to the command *)

Section LittleReaperCommandLine.

Import LittleReaperMain.

Lemma quiet_LR_LOG (msg : string) : quiet (LittleReaper.LOG msg).
Proof. apply quiet_write. Qed.

Lemma quiet_LR_LOGf (text : string) : quiet (LittleReaper.LOGf text).
Proof. apply quiet_write. Qed.

Lemma quiet_LRM_print_usage : quiet print_usage.
Proof.
  unfold print_usage.
  repeat (apply quiet_bind; [apply quiet_LR_LOG | intros _]).
  apply quiet_LR_LOG.
Qed.

(** One more letter read. *)
Lemma options_of_letters_cons (c : ascii) (rest : string) (o : LittleReaper.options) :
  options_of_letters (String c rest) o =
  options_of_letters rest
    (if Ascii.eqb c "v" then set_verbose o
     else if Ascii.eqb c "e" then set_fault_tolerant o
     else if Ascii.eqb c "w" then set_wait_for_all_sub_processes o
     else if Ascii.eqb c "W" then set_wait_forever o
     else if Ascii.eqb c "r" then set_dont_reap o
     else o).
Proof.
  unfold options_of_letters. cbn [has_letter].
  destruct (Ascii.eqb c "v") eqn:Hv.
  { apply Ascii.eqb_eq in Hv. subst c. cbn.
    destruct (has_letter "v" rest); reflexivity. }
  destruct (Ascii.eqb c "e") eqn:He.
  { apply Ascii.eqb_eq in He. subst c. cbn.
    destruct (has_letter "e" rest); reflexivity. }
  destruct (Ascii.eqb c "w") eqn:Hw.
  { apply Ascii.eqb_eq in Hw. subst c. cbn.
    destruct (has_letter "w" rest); reflexivity. }
  destruct (Ascii.eqb c "W") eqn:HW.
  { apply Ascii.eqb_eq in HW. subst c. cbn.
    destruct (has_letter "W" rest); reflexivity. }
  destruct (Ascii.eqb c "r") eqn:Hr.
  { apply Ascii.eqb_eq in Hr. subst c. cbn.
    destruct (has_letter "r" rest); reflexivity. }
  reflexivity.
Qed.

Lemma options_of_letters_nil (o : LittleReaper.options) : options_of_letters "" o = o.
Proof. now destruct o. Qed.

Lemma options_of_letters_app (s1 s2 : string) :
  forall o,
    options_of_letters (s1 +++ s2) o = options_of_letters s2 (options_of_letters s1 o).
Proof.
  induction s1 as [| c s1 IH]; intros o.
  - now rewrite options_of_letters_nil.
  - cbn [String.append]. now rewrite !options_of_letters_cons, IH.
Qed.

(** The known flag letters are read to the end of the argument. *)
Lemma LRM_read_flags_returns (letters : string) :
  only_letters little_reaper_flag letters = true ->
  forall o,
    quiet (read_flags letters o)
    /\ ends (fun o' => o' = options_of_letters letters o)
            (fun _ => False) False (read_flags letters o).
Proof.
  induction letters as [| c letters IH]; intros Hok o.
  - split; [exact I |]. cbn [read_flags ends]. now rewrite options_of_letters_nil.
  - cbn [only_letters] in Hok. apply andb_true_iff in Hok. destruct Hok as [Hc Hok].
    unfold little_reaper_flag in Hc.
    rewrite options_of_letters_cons. cbn [read_flags].
    split.
    + apply quiet_bind; [apply quiet_LR_VERBOSEf | intros _].
      destruct (Ascii.eqb c "v"); [apply IH, Hok |].
      destruct (Ascii.eqb c "e"); [apply IH, Hok |].
      destruct (Ascii.eqb c "w"); [apply IH, Hok |].
      destruct (Ascii.eqb c "W"); [apply IH, Hok |].
      destruct (Ascii.eqb c "r"); [apply IH, Hok | discriminate Hc].
    + apply ends_quiet_then; [apply quiet_LR_VERBOSEf | intros _].
      destruct (Ascii.eqb c "v"); [apply IH, Hok |].
      destruct (Ascii.eqb c "e"); [apply IH, Hok |].
      destruct (Ascii.eqb c "w"); [apply IH, Hok |].
      destruct (Ascii.eqb c "W"); [apply IH, Hok |].
      destruct (Ascii.eqb c "r"); [apply IH, Hok | discriminate Hc].
Qed.

Lemma LRM_exec_parse_options (opts : list string) :
  forallb (is_option little_reaper_flag) opts = true ->
  forall (args : list string) (i : Z) (o : LittleReaper.options) (flag : Z),
  exists tr0,
    effects tr0 = []
    /\ exec (parse_arguments (opts ++ args) i o) flag =
       let '(r, f, tr) :=
         exec (parse_arguments args (i + Z.of_nat (List.length opts))
                 (options_of_letters (letters_of_all opts) o)) flag in
       (r, f, tr0 ++ tr).
Proof.
  induction opts as [| arg opts IH]; intros Hopts args i o flag.
  - exists []. split; [reflexivity |].
    cbn [app List.length letters_of_all Z.of_nat].
    rewrite options_of_letters_nil.
    replace (i + 0) with i by lia.
    now destruct (exec (parse_arguments args i o) flag) as [[r f] tr].
  - cbn [forallb] in Hopts. apply andb_true_iff in Hopts.
    destruct Hopts as [Harg Hopts].
    destruct (is_option_parts _ _ Harg) as (Hdash & Hlen & Hletters).
    destruct (LRM_read_flags_returns _ Hletters o) as [Hq He].
    destruct (exec_returning _ _ Hq He flag) as (tr1 & Hexec1 & Heff1).
    destruct (IH Hopts args (i + 1) (options_of_letters (letters_of arg) o) flag)
      as (tr2 & Heff2 & Hexec2).
    exists (tr1 ++ tr2). split; [now rewrite effects_app, Heff1, Heff2 |].
    cbn [app parse_arguments]. rewrite Hdash. cbv zeta. rewrite Hlen.
    rewrite exec_bind, Hexec1, Hexec2.
    cbn [List.length letters_of_all]. rewrite options_of_letters_app.
    replace (i + 1 + Z.of_nat (List.length opts))
      with (i + Z.of_nat (S (List.length opts))) by lia.
    destruct (exec (parse_arguments args (i + Z.of_nat (S (List.length opts)))
                      (options_of_letters (letters_of_all opts)
                         (options_of_letters (letters_of arg) o))) flag)
      as [[r f] tr].
    now rewrite app_assoc.
Qed.


(** For a command line of options and a command, [main] gets as far as
    [make_me_a_reaper]. *)
Lemma LRM_exec_main_to_prctl (e : env) (k : startup) (prog : string)
      (opts : list string) (cmd : string) (rest : list string)
      (ws : list wait_result) (flag : Z) :
  forallb (is_option little_reaper_flag) opts = true ->
  Ascii.eqb (first_char cmd) "-" = false ->
  let o := options_of_letters (letters_of_all opts) initial_options in
  exists tr0,
    effects tr0 = []
    /\ exec (main e k (prog :: opts ++ cmd :: rest) ws) flag =
       let '(r, f, tr) :=
         exec (make_me_a_reaper e k o ;;
               LittleReaper.VERBOSEf o
                 ("little-reaper (pid: " +++ dec (getpid e)
                  +++ ", parent: " +++ dec (getppid k) +++ ")") ;;
               fork_and_run e k o (cmd :: rest) ws) flag in
       (r, f, tr0 ++ tr).
Proof.
  intros Hopts Hcmd o.
  destruct (LRM_exec_parse_options opts Hopts (cmd :: rest) 1 initial_options flag)
    as (tr0 & Heff0 & Hparse).
  exists tr0. split; [exact Heff0 |].
  unfold main. cbn [tl]. rewrite exec_bind, Hparse.
  cbn [parse_arguments]. rewrite Hcmd. cbn [exec fst snd].
  replace (1 + Z.of_nat (List.length opts) =? -1) with false
    by (symmetry; apply Z.eqb_neq; lia).
  replace (Z.to_nat (1 + Z.of_nat (List.length opts)))
    with (S (List.length opts)) by lia.
  cbn [skipn]. rewrite skipn_length_app.
  fold o.
  destruct (exec (make_me_a_reaper e k o ;;
                  LittleReaper.VERBOSEf o
                    ("little-reaper (pid: " +++ dec (getpid e)
                     +++ ", parent: " +++ dec (getppid k) +++ ")") ;;
                  fork_and_run e k o (cmd :: rest) ws) flag) as [[r f] tr].
  now rewrite app_nil_r.
Qed.

(** If [prctl] succeeds or the option [-e] was given, [main] gets as far as
    [fork]. *)
Lemma LRM_exec_main_to_fork (e : env) (k : startup) (prog : string)
      (opts : list string) (cmd : string) (rest : list string)
      (ws : list wait_result) (flag : Z) :
  forallb (is_option little_reaper_flag) opts = true ->
  Ascii.eqb (first_char cmd) "-" = false ->
  prctl_rc k <> -1 \/ has_letter "e" (letters_of_all opts) = true ->
  let o := options_of_letters (letters_of_all opts) initial_options in
  exists tr0,
    effects tr0 = []
    /\ exec (main e k (prog :: opts ++ cmd :: rest) ws) flag =
       let '(r, f, tr) := exec (fork_and_run e k o (cmd :: rest) ws) flag in
       (r, f, tr0 ++ tr).
Proof.
  intros Hopts Hcmd Hprctl o.
  destruct (LRM_exec_main_to_prctl e k prog opts cmd rest ws flag Hopts Hcmd)
    as (tr0 & Heff0 & Hmain).
  fold o in Hmain.
  assert (Hq : quiet (make_me_a_reaper e k o)).
  { unfold make_me_a_reaper. cbv zeta.
    destruct (prctl_rc k =? -1) eqn:Hrc; [| exact I].
    apply quiet_bind; [apply quiet_LR_LOGf | intros _].
    destruct Hprctl as [Hne | He]; [apply Z.eqb_eq in Hrc; contradiction |].
    unfold o, options_of_letters. cbn [LittleReaper.fault_tolerant].
    rewrite He. exact I. }
  exists (tr0 ++ output_of (make_me_a_reaper e k o)
              ++ output_of (LittleReaper.VERBOSEf o
                              ("little-reaper (pid: " +++ dec (getpid e)
                               +++ ", parent: " +++ dec (getppid k) +++ ")"))).
  split.
  - rewrite !effects_app, Heff0, (effects_output_of _ Hq).
    now rewrite (effects_output_of _ (quiet_LR_VERBOSEf o _)).
  - rewrite Hmain.
    rewrite (exec_quiet_then _ _ _ Hq).
    rewrite (exec_quiet_then _ _ _ (quiet_LR_VERBOSEf o _)).
    destruct (exec (fork_and_run e k o (cmd :: rest) ws) flag) as [[r f] tr].
    now rewrite <- !app_assoc.
Qed.

End LittleReaperCommandLine.

(** X15.  little-reaper.c takes every leading argument that starts with a
    dash as options and the first argument that does not as the command:
    for a command line of options made of the letters [v], [e], [w], [W]
    and [r] followed by a command and its arguments, the child of [fork]
    calls [execv] with exactly the command and its arguments, provided that
    [prctl] succeeded or the letter [e] was given.  Until then the process
    only writes to stdout. *)
Theorem little_reaper_hands_the_command_line_to_execv
        (e : env) (k : startup) (prog : string) (opts : list string)
        (cmd : string) (rest : list string) (ws : list wait_result) (flag : Z) :
  forallb (is_option little_reaper_flag) opts = true ->
  Ascii.eqb (first_char cmd) "-" = false ->
  prctl_rc k <> -1 \/ has_letter "e" (letters_of_all opts) = true ->
  fork_rc k = 0 ->
  execv_errno k = None ->
  exists tr,
    exec (LittleReaperMain.main e k (prog :: opts ++ cmd :: rest) ws) flag
    = (ORet (Replaced (cmd :: rest)), flag, tr)
    /\ effects tr = [].
Proof.
  intros Hopts Hcmd Hprctl Hfork Hexecv.
  destruct (LRM_exec_main_to_fork e k prog opts cmd rest ws flag Hopts Hcmd Hprctl)
    as (tr0 & Heff0 & Hmain).
  exists tr0. split; [| exact Heff0].
  rewrite Hmain. unfold LittleReaperMain.fork_and_run. cbv zeta.
  rewrite Hfork, Hexecv. cbn [Z.eqb exec].
  now rewrite app_nil_r.
Qed.

(** X15 at work: [prctl] fails, [-e] is given among other letters. *)
Lemma little_reaper_hands_the_command_line_witness :
  exists tr,
    exec (LittleReaperMain.main init_env failing_startup
            ("little-reaper" :: ["-v"; "-we"] ++ "/bin/ls" :: ["-l"; "/tmp"]) []) 0
    = (ORet (Replaced ("/bin/ls" :: ["-l"; "/tmp"])), 0, tr)
    /\ effects tr = [].
Proof.
  apply (little_reaper_hands_the_command_line_to_execv
           init_env failing_startup "little-reaper" ["-v"; "-we"] "/bin/ls"
           ["-l"; "/tmp"] [] 0);
    try reflexivity.
  now right.
Defined.

(** X16.  Without the letter [e], little-reaper.c does not start the
    command when it cannot register as subreaper: if [prctl] returns [-1],
    [main] writes the failure and exits with [-1] before [fork], whatever
    else the command line holds. *)
Theorem little_reaper_gives_up_without_subreaper
        (e : env) (k : startup) (prog : string) (opts : list string)
        (cmd : string) (rest : list string) (ws : list wait_result) (flag : Z) :
  forallb (is_option little_reaper_flag) opts = true ->
  Ascii.eqb (first_char cmd) "-" = false ->
  prctl_rc k = -1 ->
  has_letter "e" (letters_of_all opts) = false ->
  exists tr0,
    effects tr0 = []
    /\ exec (LittleReaperMain.main e k (prog :: opts ++ cmd :: rest) ws) flag =
       (OExit (-1), flag,
        tr0 ++ output_of (LittleReaper.LOGf
                            ("Failed to set sub reaper state - errno: "
                             +++ dec (prctl_errno k)
                             +++ " (" +++ strerror e (prctl_errno k) +++ ")"))).
Proof.
  intros Hopts Hcmd Hrc He.
  destruct (LRM_exec_main_to_prctl e k prog opts cmd rest ws flag Hopts Hcmd)
    as (tr0 & Heff0 & Hmain).
  exists tr0. split; [exact Heff0 |].
  rewrite Hmain. unfold LittleReaperMain.make_me_a_reaper. cbv zeta.
  rewrite Hrc. change (-1 =? -1) with true. cbv iota.
  unfold LittleReaperMain.options_of_letters at 1.
  cbn [LittleReaper.fault_tolerant]. rewrite He.
  change (negb (truthy (LittleReaper.fault_tolerant LittleReaperMain.initial_options)))
    with true. cbv iota.
  rewrite exec_bind, exec_bind.
  rewrite (exec_quiet_unit _ flag (quiet_LR_LOGf _)).
  cbn [exec]. now rewrite app_nil_r.
Qed.

(** X16 at work: [little-reaper -vw /bin/ls], [prctl] fails. *)
Lemma little_reaper_gives_up_witness :
  exists tr0,
    effects tr0 = []
    /\ exec (LittleReaperMain.main init_env failing_startup
               ("little-reaper" :: ["-vw"] ++ "/bin/ls" :: []) []) 0 =
       (OExit (-1), 0,
        tr0 ++ output_of (LittleReaper.LOGf
                            ("Failed to set sub reaper state - errno: "
                             +++ dec (prctl_errno failing_startup)
                             +++ " (" +++ strerror init_env (prctl_errno failing_startup)
                             +++ ")"))).
Proof.
  apply (little_reaper_gives_up_without_subreaper
           init_env failing_startup "little-reaper" ["-vw"] "/bin/ls" [] [] 0);
    reflexivity.
Defined.

(** X17.  The flag letters of little-reaper.c may be grouped, repeated and
    given in any order over several option arguments: each of [v], [e],
    [r], [w], [W] that occurs sets its option, and the parent runs its loop
    with exactly these options and with what [fork] returned as the
    command's pid. *)
Theorem little_reaper_options_reach_the_loop
        (e : env) (k : startup) (prog : string) (opts : list string)
        (cmd : string) (rest : list string) (ws : list wait_result) (flag : Z) :
  forallb (is_option little_reaper_flag) opts = true ->
  Ascii.eqb (first_char cmd) "-" = false ->
  prctl_rc k <> -1 \/ has_letter "e" (letters_of_all opts) = true ->
  fork_rc k <> 0 ->
  exists o tr0,
    LittleReaper.verbose o = int_of_bool (has_letter "v" (letters_of_all opts))
    /\ LittleReaper.fault_tolerant o = int_of_bool (has_letter "e" (letters_of_all opts))
    /\ LittleReaper.dont_reap o = int_of_bool (has_letter "r" (letters_of_all opts))
    /\ LittleReaper.wait_for_all_sub_processes o
       = int_of_bool (has_letter "w" (letters_of_all opts))
    /\ LittleReaper.wait_forever o = int_of_bool (has_letter "W" (letters_of_all opts))
    /\ effects tr0 = []
    /\ exec (LittleReaperMain.main e k (prog :: opts ++ cmd :: rest) ws) flag =
       let '(r, f, tr) := exec (LittleReaper.parent e o (fork_rc k) ws) flag in
       (match r with
        | ORet _ => ORet Waiting
        | OExit c => OExit c
        | OAbort => OAbort
        | OSleep => OSleep
        end, f, tr0 ++ tr).
Proof.
  intros Hopts Hcmd Hprctl Hfork.
  destruct (LRM_exec_main_to_fork e k prog opts cmd rest ws flag Hopts Hcmd Hprctl)
    as (tr0 & Heff0 & Hmain).
  exists (LittleReaperMain.options_of_letters (letters_of_all opts)
            LittleReaperMain.initial_options), tr0.
  repeat (split; [reflexivity |]).
  split; [exact Heff0 |].
  rewrite Hmain. unfold LittleReaperMain.fork_and_run. cbv zeta.
  apply Z.eqb_neq in Hfork. rewrite Hfork.
  rewrite exec_bind.
  destruct (exec (LittleReaper.parent e
                    (LittleReaperMain.options_of_letters (letters_of_all opts)
                       LittleReaperMain.initial_options) (fork_rc k) ws) flag)
    as [[[l | c | | ] f] tr]; cbn [exec]; now rewrite ?app_nil_r.
Qed.

(** X17 at work: [little-reaper -wv -v -W /bin/cmd]. *)
Lemma little_reaper_options_witness :
  exists o tr0,
    LittleReaper.verbose o
    = int_of_bool (has_letter "v" (letters_of_all ["-wv"; "-v"; "-W"]))
    /\ LittleReaper.fault_tolerant o
       = int_of_bool (has_letter "e" (letters_of_all ["-wv"; "-v"; "-W"]))
    /\ LittleReaper.dont_reap o
       = int_of_bool (has_letter "r" (letters_of_all ["-wv"; "-v"; "-W"]))
    /\ LittleReaper.wait_for_all_sub_processes o
       = int_of_bool (has_letter "w" (letters_of_all ["-wv"; "-v"; "-W"]))
    /\ LittleReaper.wait_forever o
       = int_of_bool (has_letter "W" (letters_of_all ["-wv"; "-v"; "-W"]))
    /\ effects tr0 = []
    /\ exec (LittleReaperMain.main init_env parent_startup
               ("little-reaper" :: ["-wv"; "-v"; "-W"] ++ "/bin/cmd" :: [])
               [reaped 100 0]) 0 =
       let '(r, f, tr) :=
         exec (LittleReaper.parent init_env o (fork_rc parent_startup) [reaped 100 0]) 0 in
       (match r with
        | ORet _ => ORet Waiting
        | OExit c => OExit c
        | OAbort => OAbort
        | OSleep => OSleep
        end, f, tr0 ++ tr).
Proof.
  apply (little_reaper_options_reach_the_loop
           init_env parent_startup "little-reaper" ["-wv"; "-v"; "-W"] "/bin/cmd" []
           [reaped 100 0] 0);
    try reflexivity.
  - left. discriminate.
  - discriminate.
Defined.



(** X19.  Without a command little-reaper.c starts nothing: if every
    argument is an option, or there is no argument at all, it writes
    ["Missing command"] and the usage and exits with [-1]; an argument that
    is a dash alone makes it write ["Missing option"] and the usage and
    exit with [-1], whatever follows. *)
Theorem little_reaper_needs_a_command
        (e : env) (k : startup) (prog : string) (opts more : list string)
        (ws : list wait_result) (flag : Z) :
  forallb (is_option little_reaper_flag) opts = true ->
  (exists tr0,
      effects tr0 = []
      /\ exec (LittleReaperMain.main e k (prog :: opts) ws) flag =
         (OExit (-1), flag,
          tr0 ++ output_of (LittleReaper.LOG "Missing command" ;;
                            LittleReaperMain.print_usage)))
  /\ (exists tr0,
         effects tr0 = []
         /\ exec (LittleReaperMain.main e k (prog :: opts ++ "-" :: more) ws) flag =
            (OExit (-1), flag,
             tr0 ++ output_of (LittleReaper.LOG "Missing option" ;;
                               LittleReaperMain.print_usage)))
  /\ exec (LittleReaperMain.main e k [] ws) flag =
     (OExit (-1), flag,
      output_of (LittleReaper.LOG "Missing command" ;; LittleReaperMain.print_usage)).
Proof.
  intros Hopts.
  assert (Hsay : forall (A : Type) msg,
             exec (LittleReaper.LOG msg ;; LittleReaperMain.print_usage ;; PExit (-1)) flag
             = (OExit (-1) : outcome A, flag,
                output_of (LittleReaper.LOG msg ;; LittleReaperMain.print_usage))).
  { intros A msg.
    rewrite (exec_quiet_then _ _ _ (quiet_LR_LOG _)).
    rewrite (exec_quiet_then _ _ _ quiet_LRM_print_usage). cbn [exec].
    rewrite (output_of_quiet_then _ _ (quiet_LR_LOG _)).
    now rewrite app_nil_r. }
  split; [| split].
  - destruct (LRM_exec_parse_options opts Hopts [] 1
                LittleReaperMain.initial_options flag) as (tr0 & Heff0 & Hparse).
    rewrite app_nil_r in Hparse.
    exists tr0. split; [exact Heff0 |].
    unfold LittleReaperMain.main. cbn [tl]. rewrite exec_bind, Hparse.
    cbn [LittleReaperMain.parse_arguments exec fst snd].
    change (-1 =? -1) with true. cbv iota.
    rewrite Hsay. now rewrite app_nil_r.
  - destruct (LRM_exec_parse_options opts Hopts ("-" :: more) 1
                LittleReaperMain.initial_options flag) as (tr0 & Heff0 & Hparse).
    exists tr0. split; [exact Heff0 |].
    unfold LittleReaperMain.main. cbn [tl]. rewrite exec_bind, Hparse.
    cbn [LittleReaperMain.parse_arguments first_char].
    replace (Ascii.eqb "-" "-") with true by reflexivity. cbv zeta.
    replace (strlen "-" =? 1) with true by reflexivity. cbv iota.
    now rewrite Hsay.
  - unfold LittleReaperMain.main.
    cbn [tl LittleReaperMain.parse_arguments bind fst snd].
    change (-1 =? -1) with true. cbv iota.
    apply Hsay.
Qed.

(** X19 at work: [little-reaper -w -vv]. *)
Lemma little_reaper_needs_a_command_witness :
  (exists tr0,
      effects tr0 = []
      /\ exec (LittleReaperMain.main init_env parent_startup
                 ("little-reaper" :: ["-w"; "-vv"]) []) 0 =
         (OExit (-1), 0,
          tr0 ++ output_of (LittleReaper.LOG "Missing command" ;;
                            LittleReaperMain.print_usage)))
  /\ (exists tr0,
         effects tr0 = []
         /\ exec (LittleReaperMain.main init_env parent_startup
                    ("little-reaper" :: ["-w"; "-vv"] ++ "-" :: ["/bin/ls"]) []) 0 =
            (OExit (-1), 0,
             tr0 ++ output_of (LittleReaper.LOG "Missing option" ;;
                               LittleReaperMain.print_usage)))
  /\ exec (LittleReaperMain.main init_env parent_startup [] []) 0 =
     (OExit (-1), 0,
      output_of (LittleReaper.LOG "Missing command" ;; LittleReaperMain.print_usage)).
Proof.
  apply (little_reaper_needs_a_command init_env parent_startup "little-reaper"
           ["-w"; "-vv"] ["/bin/ls"] [] 0).
  reflexivity.
Defined.

(** ** little-reaper.c: the loop and its modes *)

(** X20.  With [-W] little-reaper.c never exits and never aborts,
    whatever [wait] returns: it is waiting for the next child, or, once
    [wait] has failed with [ECHILD] (and from the start if [-r] is given
    too), it sleeps for ever. *)
Theorem little_reaper_wait_forever_never_exits
        (e : env) (o : LittleReaper.options) (command : Z)
        (ws : list wait_result) (flag : Z) :
  truthy (LittleReaper.wait_forever o) = true ->
  fst (fst (exec (LittleReaper.parent e o command ws) flag)) =
  if truthy (LittleReaper.dont_reap o) || existsb LittleReaper.is_no_child ws
  then OSleep
  else ORet (locals_after command ws LittleReaper.initial_locals).
Proof.
  intros HW. unfold LittleReaper.parent.
  destruct (truthy (LittleReaper.dont_reap o)); cbn [orb].
  - rewrite HW. unfold LittleReaper.infinite_sleep.
    rewrite exec_bind, (exec_quiet_then _ _ _ (quiet_LR_VERBOSE o _)).
    reflexivity.
  - destruct (existsb LittleReaper.is_no_child ws) eqn:Hnone.
    + destruct (existsb_first _ _ Hnone) as (pre & w & post & -> & Hpre & Hw).
      apply (exec_LR_main_loop_leaves e o command pre post w OSleep
               (output_of (LittleReaper.VERBOSE o "sleeping forever..."))).
      * intros pre' w' post' ->.
        rewrite exec_decide_wait_forever by exact HW.
        rewrite no_child_left_after.
        now rewrite (existsb_prefix _ _ _ _ Hpre).
      * rewrite exec_decide_wait_forever by exact HW.
        rewrite no_child_left_after, existsb_app. cbn [existsb].
        rewrite Hw, orb_true_r. reflexivity.
      * discriminate.
    + rewrite (exec_LR_main_loop_round e o command ws); [reflexivity |].
      intros pre w post ->.
      rewrite exec_decide_wait_forever by exact HW.
      rewrite no_child_left_after.
      now rewrite (existsb_prefix _ _ _ _ Hnone).
Qed.

(** X20 at work: [-W]; the command ends, an orphan ends, [wait] fails with
    [ECHILD]. *)
Lemma little_reaper_wait_forever_witness :
  fst (fst (exec (LittleReaper.parent init_env
                    (LittleReaperMain.options_of_letters "W" default_options) 100
                    [reaped 100 (W_EXITCODE 0); reaped 101 (W_KILLED 9);
                     wait_failed ECHILD]) 0)) =
  if truthy (LittleReaper.dont_reap
               (LittleReaperMain.options_of_letters "W" default_options))
     || existsb LittleReaper.is_no_child
          [reaped 100 (W_EXITCODE 0); reaped 101 (W_KILLED 9); wait_failed ECHILD]
  then OSleep
  else ORet (locals_after 100
               [reaped 100 (W_EXITCODE 0); reaped 101 (W_KILLED 9); wait_failed ECHILD]
               LittleReaper.initial_locals).
Proof.
  apply (little_reaper_wait_forever_never_exits
           init_env (LittleReaperMain.options_of_letters "W" default_options) 100
           [reaped 100 (W_EXITCODE 0); reaped 101 (W_KILLED 9); wait_failed ECHILD] 0).
  reflexivity.
Defined.

(** X21.  With [-w] (and neither [-W] nor [-r]) little-reaper.c does not
    leave when the command ends: it exits the first time [wait] fails with
    [ECHILD], and then with the code computed from the status of the last
    return of the command's pid before that. *)
Theorem little_reaper_wait_for_all_exits_at_ECHILD
        (e : env) (o : LittleReaper.options) (command : Z)
        (pre mid post : list wait_result) (c w : wait_result) (flag : Z) :
  truthy (LittleReaper.dont_reap o) = false ->
  truthy (LittleReaper.wait_forever o) = false ->
  truthy (LittleReaper.wait_for_all_sub_processes o) = true ->
  existsb LittleReaper.is_no_child (pre ++ c :: mid) = false ->
  LittleReaper.is_command_end command c = true ->
  existsb (LittleReaper.is_command_end command) mid = false ->
  LittleReaper.is_no_child w = true ->
  fst (fst (exec (LittleReaper.parent e o command ((pre ++ c :: mid) ++ w :: post)) flag))
  = OExit (LittleReaper.return_code_from_process_status (w_status c)).
Proof.
  intros Hr HW Hw Hnone Hc Hmid Hleave.
  unfold LittleReaper.parent. rewrite Hr.
  apply (exec_LR_main_loop_leaves e o command (pre ++ c :: mid) post w _ []).
  - intros pre' w' post' Heq.
    rewrite exec_decide_wait_for_all by assumption.
    rewrite no_child_left_after.
    rewrite Heq in Hnone.
    now rewrite (existsb_prefix _ _ _ _ Hnone).
  - rewrite exec_decide_wait_for_all by assumption.
    rewrite no_child_left_after, existsb_app. cbn [existsb].
    rewrite Hleave, orb_true_r.
    change (truthy 1) with true. cbv iota.
    rewrite command_terminated_after.
    rewrite !existsb_app. cbn [existsb]. rewrite Hc, orb_true_r. cbn [orb].
    change (truthy 1) with true. cbv iota.
    rewrite locals_after_app.
    rewrite command_status_after_none
      by (cbn [existsb]; now rewrite (failure_is_no_command_end command w Hleave)).
    now rewrite command_status_after_last_end.
  - discriminate.
Qed.

(** X21 at work: [-w]; an orphan ends, the command exits with 3, another
    orphan is killed, then [wait] fails with [ECHILD]. *)
Lemma little_reaper_wait_for_all_witness :
  fst (fst (exec (LittleReaper.parent init_env
                    (LittleReaperMain.options_of_letters "w" default_options) 100
                    (([reaped 101 (W_EXITCODE 0)]
                        ++ reaped 100 (W_EXITCODE 3) :: [reaped 102 (W_KILLED 9)])
                       ++ wait_failed ECHILD :: [])) 0))
  = OExit (LittleReaper.return_code_from_process_status
             (w_status (reaped 100 (W_EXITCODE 3)))).
Proof.
  apply (little_reaper_wait_for_all_exits_at_ECHILD
           init_env (LittleReaperMain.options_of_letters "w" default_options) 100
           [reaped 101 (W_EXITCODE 0)] [reaped 102 (W_KILLED 9)] []
           (reaped 100 (W_EXITCODE 3)) (wait_failed ECHILD) 0);
    reflexivity.
Defined.

(** X22.  With [-w] (and neither [-W] nor [-r]) little-reaper.c aborts on
    its assertion if [wait] fails with [ECHILD] before it has returned the
    command's pid with a terminal status, as it does at once when [fork]
    has failed. *)
Theorem little_reaper_wait_for_all_aborts_without_the_command
        (e : env) (o : LittleReaper.options) (command : Z)
        (pre post : list wait_result) (w : wait_result) (flag : Z) :
  truthy (LittleReaper.dont_reap o) = false ->
  truthy (LittleReaper.wait_forever o) = false ->
  truthy (LittleReaper.wait_for_all_sub_processes o) = true ->
  existsb LittleReaper.is_no_child pre = false ->
  existsb (LittleReaper.is_command_end command) pre = false ->
  LittleReaper.is_no_child w = true ->
  fst (fst (exec (LittleReaper.parent e o command (pre ++ w :: post)) flag)) = OAbort.
Proof.
  intros Hr HW Hw Hnone Hnever Hleave.
  unfold LittleReaper.parent. rewrite Hr.
  apply (exec_LR_main_loop_leaves e o command pre post w _ []).
  - intros pre' w' post' Heq.
    rewrite exec_decide_wait_for_all by assumption.
    rewrite no_child_left_after.
    rewrite Heq in Hnone.
    now rewrite (existsb_prefix _ _ _ _ Hnone).
  - rewrite exec_decide_wait_for_all by assumption.
    rewrite no_child_left_after, existsb_app. cbn [existsb].
    rewrite Hleave, orb_true_r.
    change (truthy 1) with true. cbv iota.
    rewrite command_terminated_after.
    rewrite existsb_app. cbn [existsb].
    rewrite Hnever, (failure_is_no_command_end command w Hleave).
    reflexivity.
  - discriminate.
Qed.

(** X22 at work: [fork] has failed, the first [wait] fails with
    [ECHILD]. *)
Lemma little_reaper_wait_for_all_aborts_witness :
  fst (fst (exec (LittleReaper.parent init_env
                    (LittleReaperMain.options_of_letters "w" default_options) (-1)
                    ([] ++ wait_failed ECHILD :: [])) 0)) = OAbort.
Proof.
  apply (little_reaper_wait_for_all_aborts_without_the_command
           init_env (LittleReaperMain.options_of_letters "w" default_options) (-1)
           [] [] (wait_failed ECHILD) 0);
    reflexivity.
Defined.

(** X23.  Without [-w], [-W] and [-r], little-reaper.c leaves its loop
    only when [wait] returns the command's pid with a terminal status:
    until then it goes round, also when [wait] fails with [ECHILD].  When
    [fork] has failed ([command] is [-1]) that never happens: whatever
    [wait] returns, the process neither exits nor sleeps but calls [wait]
    again. *)
Theorem little_reaper_waits_for_the_command_only
        (e : env) (o : LittleReaper.options) (command : Z)
        (ws : list wait_result) (flag : Z) :
  truthy (LittleReaper.dont_reap o) = false ->
  truthy (LittleReaper.wait_forever o) = false ->
  truthy (LittleReaper.wait_for_all_sub_processes o) = false ->
  (existsb (LittleReaper.is_command_end command) ws = false ->
   fst (exec (LittleReaper.parent e o command ws) flag)
   = (ORet (locals_after command ws LittleReaper.initial_locals), flag))
  /\ (command <= 0 ->
      fst (exec (LittleReaper.parent e o command ws) flag)
      = (ORet (locals_after command ws LittleReaper.initial_locals), flag)).
Proof.
  intros Hr HW Hw.
  assert (Hround : existsb (LittleReaper.is_command_end command) ws = false ->
                   fst (exec (LittleReaper.parent e o command ws) flag)
                   = (ORet (locals_after command ws LittleReaper.initial_locals), flag)).
  { intros Hnever. unfold LittleReaper.parent. rewrite Hr.
    apply exec_LR_main_loop_round.
    intros pre w post ->.
    rewrite exec_decide_default by assumption.
    rewrite command_terminated_after.
    now rewrite (existsb_prefix _ _ _ _ Hnever). }
  split; [exact Hround |].
  intros Hfailed. apply Hround.
  clear Hround. induction ws as [| w ws IH]; [reflexivity |].
  cbn [existsb]. rewrite IH, orb_false_r.
  unfold LittleReaper.is_command_end.
  destruct (0 <? w_child w) eqn:Hpos; [| reflexivity].
  apply Z.ltb_lt in Hpos.
  replace (w_child w =? command) with false by (symmetry; apply Z.eqb_neq; lia).
  now rewrite andb_false_r.
Qed.

(** X23 at work: [fork] has failed; [wait] fails with [ECHILD] three
    times. *)
Lemma little_reaper_waits_for_the_command_witness :
  (existsb (LittleReaper.is_command_end (-1))
           [wait_failed ECHILD; wait_failed ECHILD; wait_failed ECHILD] = false ->
   fst (exec (LittleReaper.parent init_env default_options (-1)
                [wait_failed ECHILD; wait_failed ECHILD; wait_failed ECHILD]) 0)
   = (ORet (locals_after (-1)
              [wait_failed ECHILD; wait_failed ECHILD; wait_failed ECHILD]
              LittleReaper.initial_locals), 0))
  /\ (-1 <= 0 ->
      fst (exec (LittleReaper.parent init_env default_options (-1)
                   [wait_failed ECHILD; wait_failed ECHILD; wait_failed ECHILD]) 0)
      = (ORet (locals_after (-1)
                 [wait_failed ECHILD; wait_failed ECHILD; wait_failed ECHILD]
                 LittleReaper.initial_locals), 0)).
Proof.
  apply (little_reaper_waits_for_the_command_only
           init_env default_options (-1)
           [wait_failed ECHILD; wait_failed ECHILD; wait_failed ECHILD] 0);
    reflexivity.
Defined.

(** X24.  With [-r] little-reaper.c never calls [wait]: once the command
    is started the parent exits with 0 at once, or with [-W] too sleeps for
    ever, whatever becomes of the command and of its descendants. *)
Theorem little_reaper_dont_reap_never_waits
        (e : env) (k : startup) (prog : string) (opts : list string)
        (cmd : string) (rest : list string) (ws : list wait_result) (flag : Z) :
  forallb (is_option little_reaper_flag) opts = true ->
  Ascii.eqb (first_char cmd) "-" = false ->
  prctl_rc k <> -1 \/ has_letter "e" (letters_of_all opts) = true ->
  fork_rc k <> 0 ->
  has_letter "r" (letters_of_all opts) = true ->
  exists tr,
    exec (LittleReaperMain.main e k (prog :: opts ++ cmd :: rest) ws) flag
    = (if has_letter "W" (letters_of_all opts) then OSleep else OExit 0, flag, tr)
    /\ effects tr = [].
Proof.
  intros Hopts Hcmd Hprctl Hfork Hr.
  destruct (LRM_exec_main_to_fork e k prog opts cmd rest ws flag Hopts Hcmd Hprctl)
    as (tr0 & Heff0 & Hmain).
  rewrite Hmain. unfold LittleReaperMain.fork_and_run. cbv zeta.
  apply Z.eqb_neq in Hfork. rewrite Hfork.
  unfold LittleReaper.parent, LittleReaperMain.options_of_letters.
  cbn [LittleReaper.dont_reap LittleReaper.wait_forever]. rewrite Hr.
  change (truthy 1) with true. cbv iota.
  destruct (has_letter "W" (letters_of_all opts)).
  - change (truthy 1) with true. cbv iota.
    unfold LittleReaper.infinite_sleep.
    rewrite !exec_bind.
    match goal with
    | |- context [exec (LittleReaper.VERBOSE ?o' ?m) flag] =>
        rewrite (exec_quiet_unit _ flag (quiet_LR_VERBOSE o' m));
        exists (tr0 ++ output_of (LittleReaper.VERBOSE o' m) ++ []);
        split; [reflexivity |];
        rewrite !effects_app, Heff0, (effects_output_of _ (quiet_LR_VERBOSE o' m))
    end.
    reflexivity.
  - change (truthy (LittleReaper.wait_forever LittleReaperMain.initial_options))
      with false. cbv iota.
    exists (tr0 ++ []). split; [reflexivity | now rewrite app_nil_r].
Qed.

(** X24 at work: [little-reaper -r /bin/cmd]; the returns of [wait] are
    never looked at. *)
Lemma little_reaper_dont_reap_witness :
  exists tr,
    exec (LittleReaperMain.main init_env parent_startup
            ("little-reaper" :: ["-r"] ++ "/bin/cmd" :: [])
            [reaped 100 (W_EXITCODE 3)]) 0
    = (if has_letter "W" (letters_of_all ["-r"]) then OSleep else OExit 0, 0, tr)
    /\ effects tr = [].
Proof.
  apply (little_reaper_dont_reap_never_waits
           init_env parent_startup "little-reaper" ["-r"] "/bin/cmd" []
           [reaped 100 (W_EXITCODE 3)] 0);
    try reflexivity.
  - left. discriminate.
  - discriminate.
Defined.

(** ** little-reaper.c signals nobody *)

Section LittleReaperOnlyWrites.

Variable e : env.
Variable k : startup.

Local Abbreviation only_writes :=
  (emits_only (fun ev => is_write ev = true) (fun _ : Z => False)).

Lemma only_writes_quiet {A : Type} (p : prog A) : quiet p -> only_writes p.
Proof. now apply quiet_emits_only. Qed.

Lemma only_writes_then {A B : Type} (p : prog A) (f : A -> prog B) :
  quiet p -> (forall a, only_writes (f a)) -> only_writes (bind p f).
Proof. intros Hp Hf. now apply emits_only_quiet_then. Qed.

Lemma only_writes_LRM_read_flags (letters : string) :
  forall o, only_writes (LittleReaperMain.read_flags letters o).
Proof.
  induction letters as [| c letters IH]; intros o; [exact I |].
  cbn [LittleReaperMain.read_flags].
  apply only_writes_then; [apply quiet_LR_VERBOSEf | intros _].
  repeat match goal with
         | |- only_writes (if ?b then _ else _) => destruct b; [apply IH |]
         end.
  apply only_writes_then; [apply quiet_LR_LOGf | intros _].
  apply only_writes_then; [apply quiet_LRM_print_usage | intros _].
  exact I.
Qed.

Lemma only_writes_LRM_parse_arguments (args : list string) :
  forall i o, only_writes (LittleReaperMain.parse_arguments args i o).
Proof.
  induction args as [| arg args IH]; intros i o; [exact I |].
  cbn [LittleReaperMain.parse_arguments].
  destruct (Ascii.eqb (first_char arg) "-"); [| exact I].
  cbv zeta. destruct (strlen arg =? 1).
  - apply only_writes_then; [apply quiet_LR_LOG | intros _].
    apply only_writes_then; [apply quiet_LRM_print_usage | intros _].
    exact I.
  - apply emits_only_bind; [apply only_writes_LRM_read_flags | intros o'; apply IH].
Qed.

Lemma only_writes_LR_decide (o : LittleReaper.options) (l : LittleReaper.locals) :
  only_writes (LittleReaper.decide o l).
Proof.
  unfold LittleReaper.decide, LittleReaper.infinite_sleep.
  repeat match goal with
         | |- only_writes (if ?b then _ else _) => destruct b
         end;
    try exact I;
    (apply only_writes_then; [apply quiet_LR_VERBOSE | intros _; exact I]).
Qed.

Lemma quiet_LR_observe (o : LittleReaper.options) (command : Z)
      (w : wait_result) (l : LittleReaper.locals) :
  quiet (LittleReaper.observe e o command w l).
Proof.
  unfold LittleReaper.observe. cbv zeta.
  destruct (0 <? w_child w).
  - destruct (WIFEXITED (w_status w) || WIFSIGNALED (w_status w)); [| exact I].
    apply quiet_bind; [apply quiet_observe_logs | intros _].
    apply quiet_bind; [apply quiet_observe_logs | intros _].
    destruct (w_child w =? command); [| exact I].
    apply quiet_bind; [apply quiet_LR_VERBOSE | intros _; exact I].
  - destruct (w_errno w =? ECHILD).
    + apply quiet_bind; [apply quiet_LR_VERBOSE | intros _; exact I].
    + apply quiet_bind; [apply quiet_LR_VERBOSEf | intros _; exact I].
Qed.

Lemma only_writes_LR_parent (o : LittleReaper.options) (command : Z)
      (ws : list wait_result) :
  only_writes (LittleReaper.parent e o command ws).
Proof.
  unfold LittleReaper.parent.
  destruct (truthy (LittleReaper.dont_reap o)).
  - apply emits_only_bind; [| intros _; exact I].
    destruct (truthy (LittleReaper.wait_forever o)); [| exact I].
    unfold LittleReaper.infinite_sleep.
    apply only_writes_then; [apply quiet_LR_VERBOSE | intros _; exact I].
  - generalize LittleReaper.initial_locals as l.
    induction ws as [| w ws IH]; intros l; [exact I |].
    cbn [LittleReaper.main_loop].
    apply emits_only_bind; [| intros l'; apply IH].
    unfold LittleReaper.iteration.
    apply only_writes_then; [apply quiet_LR_observe | intros l'].
    apply only_writes_LR_decide.
Qed.

Lemma only_writes_LRM_main (argv : list string) (ws : list wait_result) :
  only_writes (LittleReaperMain.main e k argv ws).
Proof.
  unfold LittleReaperMain.main.
  apply emits_only_bind; [apply only_writes_LRM_parse_arguments | intros r].
  cbv zeta. destruct (snd r =? -1).
  - apply only_writes_then; [apply quiet_LR_LOG | intros _].
    apply only_writes_then; [apply quiet_LRM_print_usage | intros _].
    exact I.
  - apply emits_only_bind.
    + unfold LittleReaperMain.make_me_a_reaper. cbv zeta.
      destruct (prctl_rc k =? -1); [| exact I].
      apply only_writes_then; [apply quiet_LR_LOGf | intros _].
      now destruct (negb (truthy (LittleReaper.fault_tolerant (fst r)))).
    + intros _.
      apply only_writes_then; [apply quiet_LR_VERBOSEf | intros _].
      unfold LittleReaperMain.fork_and_run. cbv zeta.
      destruct (fork_rc k =? 0).
      * destruct (execv_errno k); [| exact I].
        apply only_writes_then; [apply quiet_LR_LOGf | intros _; exact I].
      * apply emits_only_bind; [apply only_writes_LR_parent | intros _; exact I].
Qed.

End LittleReaperOnlyWrites.

(** X25.  little-reaper.c never signals anybody and never arms a timer:
    whatever its command line, whatever the kernel answers during start-up
    and whatever [wait] returns, all it does to the outside world, besides
    starting the command, is write to stdout.  It reaps the descendants of
    the command but never terminates them. *)
Theorem little_reaper_signals_nobody
        (e : env) (k : startup) (argv : list string) (ws : list wait_result) (flag : Z) :
  Forall (fun ev => is_write ev = true)
         (snd (exec (LittleReaperMain.main e k argv ws) flag))
  /\ kills (snd (exec (LittleReaperMain.main e k argv ws) flag)) = []
  /\ alarms (snd (exec (LittleReaperMain.main e k argv ws) flag)) = [].
Proof.
  destruct (exec_emits_only (fun ev => is_write ev = true) (fun _ => False)
              (LittleReaperMain.main e k argv ws) flag
              (only_writes_LRM_main e k argv ws)) as [Htr _].
  split; [exact Htr |].
  pose proof (effects_of_writes _ Htr) as Heff.
  split.
  - now rewrite <- kills_effects, Heff.
  - now rewrite <- alarms_effects, Heff.
Qed.

(** ** A command that cannot be started *)



(** ** The signals the handler is installed for *)


(** ** A command that was never observed *)

(** X29 at work ([unobserved_command_status_reads_as_success]): [fork] has
    failed; a [SIGTERM] from outside interrupts the first [wait], the second
    fails with [ECHILD]; tinyreaper exits with 0. *)
Lemma unobserved_command_witness :
  Tinyreaper.recorded_status (-1) [wait_failed EINTR; wait_failed ECHILD] 0 = 0
  /\ fst (fst (prun (Tinyreaper.signal_handler init_env 0) [Sig SIGTERM 77; Run]
                    (Tinyreaper.parent init_env 0 (-1) "/bin/cmd"
                       [wait_failed EINTR; wait_failed ECHILD]) 0))
     = OExit 0.
Proof.
  apply (unobserved_command_status_reads_as_success
           init_env 0 (-1) "/bin/cmd" [wait_failed EINTR; wait_failed ECHILD]
           [Sig SIGTERM 77; Run] 0).
  - intros w [<- | [<- | []]] Hpos; simpl in Hpos; lia.
  - discriminate.
  - intros si_pid [H | [H | []]]; discriminate H.
Defined.

(** ** The revision with [-w] and [-t]: the handler and the exit code *)

(** X30.  The revision with [-w] and [-t], run with its own signal handler:
    in every run, whatever signals are delivered to the handler and
    wherever they preempt the loop, the process is still in the loop (the
    returns of [wait] have not led it to a [break]), or the alarm handler
    has ended it with [-1], or it has left the loop and exits with the code
    computed from [command_status]; when no [SIGALRM] arrives, only the
    first and the last are possible.  The alarm handler does end runs whose
    command has exited with 0: with [-w], the command is reaped with status
    0 while an orphan lives on, a [SIGTERM] from outside begins the
    shutdown, the [SIGALRM] it armed arrives, and the process exits with
    [-1], status 255. *)
Theorem wt_revision_exits_from_the_loop_or_the_alarm
        (e : env) (o : ReaperWT.options) (command_pid : Z) (argv0 : string)
        (sch : list slot) (ws : list wait_result) (flag : Z) :
  ended (fun _ => ReaperWT.status_at_break o command_pid ws 0 = None)
        (fun c => c = -1
                  \/ exists cs, ReaperWT.status_at_break o command_pid ws 0 = Some cs
                                /\ c = rc_of_command_status cs)
        False
        (prun (ReaperWT.signal_handler e o) sch
              (ReaperWT.parent e o command_pid argv0 ws) flag)
  /\ ((forall si_pid, ~ In (Sig SIGALRM si_pid) sch) ->
      ended (fun _ => ReaperWT.status_at_break o command_pid ws 0 = None)
            (fun c => exists cs, ReaperWT.status_at_break o command_pid ws 0 = Some cs
                                 /\ c = rc_of_command_status cs)
            False
            (prun (ReaperWT.signal_handler e o) sch
                  (ReaperWT.parent e o command_pid argv0 ws) flag))
  /\ (WIFEXITED (W_EXITCODE 0) = true
      /\ WEXITSTATUS (W_EXITCODE 0) = 0
      /\ fst (fst (prun (ReaperWT.signal_handler init_env
                           {| ReaperWT.verbose := 0;
                              ReaperWT.wait_for_all_children := 1;
                              ReaperWT.terminate_all_children_after_command_terminated := 0 |})
                        [Run; Run; Run; Run; Run; Run; Run;
                         Sig SIGTERM 77; Run; Run; Run; Run; Run; Run; Run;
                         Sig SIGALRM 0]
                        (ReaperWT.parent init_env
                           {| ReaperWT.verbose := 0;
                              ReaperWT.wait_for_all_children := 1;
                              ReaperWT.terminate_all_children_after_command_terminated := 0 |}
                           100 "/bin/cmd" [reaped 100 (W_EXITCODE 0)]) 0))
         = OExit (-1)
      /\ exit_status (-1) = 255).
Proof.
  split; [apply prun_WT_parent | split; [apply prun_WT_parent_no_alarm |]].
  repeat split.
Qed.
